(** * Match-3 engine (script.js): shallow embedding and verified properties

    The engine of [script.js] is embedded as executable Rocq functions over an
    explicit game state.  The DOM side of every function (class names,
    datasets, animation promises and delays) is presentation only and is left
    out; every read or write of the data model is kept, in source order. *)

From Stdlib Require Import ZArith ZifyNat DecimalString DecimalNat.
From stdpp Require Import base tactics option list numbers strings.

Set Default Proof Using "Type".
Open Scope nat_scope.

(** ** Outcomes of a call

    A JavaScript call either completes, or throws a [TypeError] (a property
    read on [undefined] or [null]).  The two [while] loops of the source
    without a structural bound run here on a step budget; [OutOfFuel] is the
    budget running out. *)

Inductive Outcome (A : Type) : Type :=
| Ret (a : A)
| Throw
| OutOfFuel.
Arguments Ret {A} a.
Arguments Throw {A}.
Arguments OutOfFuel {A}.

#[global] Instance Outcome_ret : MRet Outcome := @Ret.
#[global] Instance Outcome_bind : MBind Outcome := λ A B f m,
  match m with
  | Ret a => f a
  | Throw => Throw
  | OutOfFuel => OutOfFuel
  end.

(** [for (let i = lo; i < lo + n; i++) body], threading the loop state. *)
Fixpoint forUp {St : Type} (n i : nat) (body : nat → St → Outcome St)
  (s : St) : Outcome St :=
  match n with
  | 0 => Ret s
  | S n' => s' ← body i s; forUp n' (S i) body s'
  end.

(** [for (let i = n - 1; i >= 0; i--) body]. *)
Fixpoint forDown {St : Type} (n : nat) (body : nat → St → Outcome St)
  (s : St) : Outcome St :=
  match n with
  | 0 => Ret s
  | S i => s' ← body i s; forDown i body s'
  end.

(** [for (const x of xs) body]. *)
Fixpoint forOf {X St : Type} (xs : list X) (body : X → St → Outcome St)
  (s : St) : Outcome St :=
  match xs with
  | [] => Ret s
  | x :: xs' => s' ← body x s; forOf xs' body s'
  end.

(** ** Configuration *)

Definition COLS : nat := 8.
Definition ROWS : nat := 8.
Definition TYPES : nat := 6.
Definition STARTING_MOVES : Z := 30.
Definition MATCH_MIN : nat := 3.

Arguments COLS : simpl never.
Arguments ROWS : simpl never.
Arguments TYPES : simpl never.
Arguments MATCH_MIN : simpl never.

(** ** Data model

    A tile object carries a [type]: a number, or [null] while a cascade is in
    progress.  A grid slot holds a tile object, or [null] between the
    allocation of the rows in [init] and the creation of its tile. *)

Abbreviation Kind := (option nat).

Inductive Slot : Type :=
| NoTile
| Tile (type : Kind).

Abbreviation Grid := (list (list Slot)).

(** A point [{r, c}]. *)
Abbreviation Coord := (nat * nat)%type.
Abbreviation Run := (list (nat * nat)).

#[global] Instance Slot_eq_dec : EqDecision Slot.
Proof. solve_decision. Defined.

(** [grid[r][c].type]: throws when the row or the tile is missing. *)
Definition typeAt (g : Grid) (r c : nat) : Outcome Kind :=
  match g !! r with
  | Some row =>
      match row !! c with
      | Some (Tile k) => Ret k
      | _ => Throw
      end
  | None => Throw
  end.

(** [grid[r][c].type = k]: the same tile object, its type reassigned. *)
Definition setType (g : Grid) (r c : nat) (k : Kind) : Outcome Grid :=
  match g !! r with
  | Some row =>
      match row !! c with
      | Some (Tile _) => Ret (<[r := <[c := Tile k]> row]> g)
      | _ => Throw
      end
  | None => Throw
  end.

(** ** The random source

    [Math.random()] yields a number in [[0, 1)]; a sample is the fraction
    [num / (num + gap + 1)].  [rand n] is [Math.floor(Math.random() * n)],
    the product taken exactly. *)

Record Sample : Type := { num : nat; gap : nat }.

Record Rng : Type := { draws : nat → Sample; pos : nat }.

Definition random (src : Rng) : Sample * Rng :=
  (draws src (pos src), {| draws := draws src; pos := S (pos src) |}).

Definition rand (n : nat) (src : Rng) : nat * Rng :=
  let '(u, src') := random src in
  ((num u * n) / (num u + gap u + 1), src').

(** ** Utilities *)

Definition inBounds (r c : nat) : bool :=
  bool_decide (r < ROWS) && bool_decide (c < COLS).

Definition isAdjacent (r1 c1 r2 c2 : nat) : bool :=
  let dr := (r1 - r2) + (r2 - r1) in
  let dc := (c1 - c2) + (c2 - c1) in
  bool_decide (dr + dc = 1).

(** ** findAllMatches *)

(** [run[0]]; reading a field of it throws when the run is empty. *)
Definition firstOf (run : Run) : Outcome Coord :=
  match run with
  | pt :: _ => Ret pt
  | [] => Throw
  end.

(** Body of the inner horizontal loop, at column [c] of row [r]. *)
Definition hStep (g : Grid) (r c : nat) (st : Run * list Run)
  : Outcome (Run * list Run) :=
  let '(run, matches) := st in
  same ← (if decide (c < COLS) then
            a ← typeAt g r c;
            first ← firstOf run;
            b ← typeAt g r first.2;
            mret (bool_decide (a = b))
          else mret false);
  if (same : bool) then mret (run ++ [(r, c)], matches)
  else mret ([(r, c)],
             if decide (MATCH_MIN ≤ length run) then matches ++ [run]
             else matches).

(** Body of the inner vertical loop, at row [r] of column [c]. *)
Definition vStep (g : Grid) (c r : nat) (st : Run * list Run)
  : Outcome (Run * list Run) :=
  let '(run, matches) := st in
  same ← (if decide (r < ROWS) then
            a ← typeAt g r c;
            first ← firstOf run;
            b ← typeAt g first.1 c;
            mret (bool_decide (a = b))
          else mret false);
  if (same : bool) then mret (run ++ [(r, c)], matches)
  else mret ([(r, c)],
             if decide (MATCH_MIN ≤ length run) then matches ++ [run]
             else matches).

Definition hRow (g : Grid) (r : nat) (matches : list Run)
  : Outcome (list Run) :=
  st ← forUp COLS 1 (hStep g r) ([(r, 0)], matches);
  mret st.2.

Definition vCol (g : Grid) (c : nat) (matches : list Run)
  : Outcome (list Run) :=
  st ← forUp ROWS 1 (vStep g c) ([(0, c)], matches);
  mret st.2.

Definition findAllMatches (g : Grid) : Outcome (list Run) :=
  matches ← forUp ROWS 0 (hRow g) [];
  forUp COLS 0 (vCol g) matches.

(** ** Game state

    The module-level variables [grid], [score] and [moves], and the state of
    [Math.random].  [selected] and [processing] only serve the click handler
    and are not modelled. *)

Record State : Type := {
  grid : Grid;
  score : Z;
  moves : Z;
  rng : Rng
}.

(** ** dropTiles *)

(** An index computed in [Z]: [grid[-1]] is [undefined]. *)
Definition indexOf (z : Z) : Outcome nat :=
  if decide (0 ≤ z)%Z then Ret (Z.to_nat z) else Throw.

(** Body of the inner loop of [dropTiles], at row [r] of column [c]. *)
Definition dropStep (c r : nat) (st : Grid * Z) : Outcome (Grid * Z) :=
  let '(g, write) := st in
  t ← typeAt g r c;
  if decide (t ≠ None) then
    g' ← (if decide (Z.of_nat r ≠ write) then
            w ← indexOf write;
            t' ← typeAt g r c;
            g1 ← setType g w c t';
            setType g1 r c None
          else mret g);
    mret (g', (write - 1)%Z)
  else mret (g, write).

Definition dropColumn (c : nat) (g : Grid) : Outcome Grid :=
  st ← forDown ROWS (dropStep c) (g, (Z.of_nat ROWS - 1)%Z);
  mret st.1.

Definition dropTiles (g : Grid) : Outcome Grid :=
  forUp COLS 0 dropColumn g.

(** ** refillTiles *)

Definition refillStep (c r : nat) (st : Grid * Rng) : Outcome (Grid * Rng) :=
  let '(g, src) := st in
  t ← typeAt g r c;
  if decide (t = None) then
    let '(t', src') := rand TYPES src in
    g' ← setType g r c (Some t');
    mret (g', src')
  else mret (g, src).

Definition refillTiles (g : Grid) (src : Rng) : Outcome (Grid * Rng) :=
  forUp COLS 0 (λ c, forUp ROWS 0 (refillStep c)) (g, src).

(** ** resolveMatches *)

(** [`${n}`] for a natural number, and [Number(s)] on decimal digit strings
    (anything else is [NaN], here [None]; [Number("")] is [0]). *)
Definition toString (n : nat) : string :=
  NilEmpty.string_of_uint (Nat.to_uint n).

Definition Number (s : string) : option nat :=
  Nat.of_uint <$> NilEmpty.uint_of_string s.

(** [`${pt.r},${pt.c}`]. *)
Definition keyOf (pt : Coord) : string :=
  toString pt.1 +:+ "," +:+ toString pt.2.

(** [s.split(',')]. *)
Fixpoint splitComma (s : string) : list string :=
  match s with
  | EmptyString => [EmptyString]
  | String a s' =>
      if Ascii.eqb a (Ascii.ascii_of_nat 44) then EmptyString :: splitComma s'
      else match splitComma s' with
           | h :: t => String a h :: t
           | [] => [String a EmptyString]
           end
  end.

(** [const [r,c] = key.split(',').map(Number)], together with the index
    [grid[r][c]] that follows it: a [NaN] or missing component makes that
    slot [undefined], and the property read on it throws. *)
Definition coordOfKey (key : string) : Outcome Coord :=
  match Number <$> splitComma key with
  | Some r :: Some c :: _ => Ret (r, c)
  | _ => Throw
  end.

(** [Set.prototype.add]; a [Set] iterates in insertion order. *)
Definition setAdd (s : list string) (key : string) : list string :=
  if decide (key ∈ s) then s else s ++ [key].

(** [matches.forEach(run => run.forEach(pt => removeSet.add(...)))]. *)
Definition removeSetOf (matches : list Run) : list string :=
  foldl (λ s run, foldl (λ s pt, setAdd s (keyOf pt)) s run) [] matches.

(** First [for] loop over the set: [tile.el] is read on each tile. *)
Definition markRemoving (g : Grid) (key : string) (u : unit) : Outcome unit :=
  pt ← coordOfKey key;
  _ ← typeAt g pt.1 pt.2;
  mret u.

(** Second [for] loop over the set. *)
Definition removeTile (key : string) (st : Grid * nat) : Outcome (Grid * nat) :=
  let '(g, totalRemoved) := st in
  pt ← coordOfKey key;
  g' ← setType g pt.1 pt.2 None;
  mret (g', S totalRemoved).

(** One iteration of the [while] loop of [resolveMatches]: the next value of
    [matches], of [totalRemoved], and of the state. *)
Definition resolvePass (matches : list Run) (totalRemoved : nat) (st : State)
  : Outcome (list Run * nat * State) :=
  let removeSet := removeSetOf matches in
  _ ← forOf removeSet (markRemoving (grid st)) ();
  '(g1, total1) ← forOf removeSet removeTile (grid st, totalRemoved);
  let score1 := (score st + Z.of_nat (length removeSet) * 10)%Z in
  g2 ← dropTiles g1;
  '(g3, src3) ← refillTiles g2 (rng st);
  matches' ← findAllMatches g3;
  mret (matches', total1,
        {| grid := g3; score := score1; moves := moves st; rng := src3 |}).

Fixpoint resolveLoop (fuel : nat) (matches : list Run) (totalRemoved : nat)
  (st : State) : Outcome (nat * State) :=
  match matches with
  | [] => Ret (totalRemoved, st)
  | _ :: _ =>
      match fuel with
      | 0 => OutOfFuel
      | S fuel' =>
          '(matches', total', st') ← resolvePass matches totalRemoved st;
          resolveLoop fuel' matches' total' st'
      end
  end.

Definition resolveMatches (fuel : nat) (initialMatches : list Run) (st : State)
  : Outcome (nat * State) :=
  resolveLoop fuel initialMatches 0 st.

(** ** removeInitialMatches *)

(** [(type + 1) % TYPES]; [null + 1] is [1]. *)
Definition nextKind (k : Kind) : Kind :=
  Some ((default 0 k + 1) mod TYPES).

(** Body of [for (const run of matches)]. *)
Definition bumpRun (run : Run) (g : Grid) : Outcome Grid :=
  match run !! (length run / 2) with
  | Some pick =>
      t ← typeAt g pick.1 pick.2;
      setType g pick.1 pick.2 (nextKind t)
  | None => Throw
  end.

Fixpoint removeInitialLoop (fuel : nat) (matches : list Run) (g : Grid)
  : Outcome Grid :=
  match matches with
  | [] => Ret g
  | _ :: _ =>
      match fuel with
      | 0 => OutOfFuel
      | S fuel' =>
          g' ← forOf matches bumpRun g;
          matches' ← findAllMatches g';
          removeInitialLoop fuel' matches' g'
      end
  end.

Definition removeInitialMatches (fuel : nat) (g : Grid) : Outcome Grid :=
  matches ← findAllMatches g;
  removeInitialLoop fuel matches g.

(** ** shuffleBoard *)

Definition shuffleStep (r c : nat) (st : Grid * Rng) : Outcome (Grid * Rng) :=
  let '(g, src) := st in
  let '(t, src') := rand TYPES src in
  g' ← setType g r c (Some t);
  mret (g', src').

Definition shuffleBoard (fuel : nat) (st : State) : Outcome State :=
  '(g, src) ← forUp ROWS 0 (λ r, forUp COLS 0 (shuffleStep r))
                (grid st, rng st);
  g' ← removeInitialMatches fuel g;
  mret {| grid := g'; score := score st; moves := moves st; rng := src |}.

(** ** checkEndConditions *)

(** What the evaluation shows: the win overlay ([showOverlay(true, ..)]), the
    game-over overlay ([showOverlay(false, ..)]), or nothing. *)
Inductive Status : Type := Playing | Won | Lost.

Definition checkEndConditions (st : State) : Status :=
  if decide (2000 ≤ score st)%Z then Won
  else if decide (moves st ≤ 0)%Z then Lost
  else Playing.

(** ** attemptSwap *)

(** [swapData(a, b)], the tile objects [a] and [b] named by their slots (a
    slot keeps its tile object for the lifetime of the grid). *)
Definition swapData (g : Grid) (a b : Coord) : Outcome Grid :=
  ta ← typeAt g a.1 a.2;
  tb ← typeAt g b.1 b.2;
  g1 ← setType g a.1 a.2 tb;
  setType g1 b.1 b.2 ta.

(** Returns the state left behind and what [checkEndConditions] showed
    ([Playing] on the rejected branch, where it is not called). *)
Definition attemptSwap (fuel : nat) (r1 c1 r2 c2 : nat) (st : State)
  : Outcome (Status * State) :=
  _ ← typeAt (grid st) r1 c1;
  _ ← typeAt (grid st) r2 c2;
  g1 ← swapData (grid st) (r1, c1) (r2, c2);
  matches ← findAllMatches g1;
  match matches with
  | _ :: _ =>
      let st1 := {| grid := g1; score := score st;
                    moves := (moves st - 1)%Z; rng := rng st |} in
      '(_, st2) ← resolveMatches fuel matches st1;
      mret (checkEndConditions st2, st2)
  | [] =>
      g2 ← swapData g1 (r1, c1) (r2, c2);
      mret (Playing,
            {| grid := g2; score := score st; moves := moves st;
               rng := rng st |})
  end.

(** ** randomTypeSafe and init *)

(** [c>=2 && grid[r] && grid[r][c-1] && grid[r][c-2] &&
     grid[r][c-1].type===t && grid[r][c-2].type===t]. *)
Definition leftPair (g : Grid) (r c t : nat) : bool :=
  bool_decide (2 ≤ c) &&
  match g !! r with
  | Some row =>
      match row !! (c - 1), row !! (c - 2) with
      | Some (Tile k1), Some (Tile k2) =>
          bool_decide (k1 = Some t) && bool_decide (k2 = Some t)
      | _, _ => false
      end
  | None => false
  end.

(** [r>=2 && grid[r-1] && grid[r-2] &&
     grid[r-1][c].type===t && grid[r-2][c].type===t]: the slots themselves
    are not tested, so the type reads can throw. *)
Definition upPair (g : Grid) (r c t : nat) : Outcome bool :=
  if decide (2 ≤ r) then
    match g !! (r - 1), g !! (r - 2) with
    | Some _, Some _ =>
        k1 ← typeAt g (r - 1) c;
        if decide (k1 = Some t) then
          k2 ← typeAt g (r - 2) c;
          mret (bool_decide (k2 = Some t))
        else mret false
    | _, _ => mret false
    end
  else mret false.

(** The [while(true)] loop; the result carries the final value of [tries]
    next to the returned type. *)
Fixpoint randomTypeSafeLoop (fuel tries : nat) (g : Grid) (r c : nat)
  (src : Rng) : Outcome (nat * nat * Rng) :=
  match fuel with
  | 0 => OutOfFuel
  | S fuel' =>
      let '(t, src') := rand TYPES src in
      if decide (15 < tries) then Ret (t, tries, src')
      else if leftPair g r c t then
        randomTypeSafeLoop fuel' (S tries) g r c src'
      else
        up ← upPair g r c t;
        if (up : bool) then randomTypeSafeLoop fuel' (S tries) g r c src'
        else Ret (t, tries, src')
  end.

(** Seventeen rounds always suffice: [tries] grows on every round that does
    not return, and the round entered with [tries = 16] returns. *)
Definition randomTypeSafeTries (g : Grid) (r c : nat) (src : Rng)
  : Outcome (nat * nat * Rng) :=
  randomTypeSafeLoop 17 0 g r c src.

Definition randomTypeSafe (g : Grid) (r c : nat) (src : Rng)
  : Outcome (nat * Rng) :=
  '(t, _, src') ← randomTypeSafeTries g r c src;
  mret (t, src').

(** [grid[r][c] = cell], with [c] inside the row. *)
Definition putTile (g : Grid) (r c : nat) (k : Kind) : Outcome Grid :=
  match g !! r with
  | Some row => Ret (<[r := <[c := Tile k]> row]> g)
  | None => Throw
  end.

Definition initStep (r c : nat) (st : Grid * Rng) : Outcome (Grid * Rng) :=
  let '(g, src) := st in
  '(t, src') ← randomTypeSafe g r c src;
  g' ← putTile g r c (Some t);
  mret (g', src').

(** [init], up to the deferred call of [removeInitialMatches]. *)
Definition init (src : Rng) : Outcome State :=
  let blank := replicate ROWS (replicate COLS NoTile) in
  '(g, src') ← forUp ROWS 0 (λ r, forUp COLS 0 (initStep r)) (blank, src);
  mret {| grid := g; score := 0; moves := STARTING_MOVES; rng := src' |}.

(** * Specification vocabulary *)

(** ** Grids of tiles *)

(** The shape the grid has from the end of [init] on: [ROWS] rows of [COLS]
    tile objects. *)
Definition Tiled (g : Grid) : Prop :=
  length g = ROWS ∧
  Forall (λ row, length row = COLS ∧ Forall (λ s, s ≠ NoTile) row) g.

#[global] Instance Tiled_dec g : Decision (Tiled g).
Proof. unfold Tiled. apply _. Defined.

(** The type held at a slot, for reading grids in statements ([null] where
    the source would throw). *)
Definition kindAt (g : Grid) (r c : nat) : Kind :=
  match typeAt g r c with
  | Ret k => k
  | _ => None
  end.

(** ** Runs along a line

    Both scans of [findAllMatches] walk a line of cells (a row, a column) with
    one and the same loop body; [scanStep] is that body over an abstract
    line, and [hStep] and [vStep] are its two instances. *)

Definition scanStep (get : nat → Outcome Kind) (posOf : Coord → nat)
    (mk : nat → Coord) (n i : nat) (st : Run * list Run)
  : Outcome (Run * list Run) :=
  let '(run, matches) := st in
  same ← (if decide (i < n) then
            a ← get i;
            first ← firstOf run;
            b ← get (posOf first);
            mret (bool_decide (a = b))
          else mret false);
  if (same : bool) then mret (run ++ [mk i], matches)
  else mret ([mk i],
             if decide (MATCH_MIN ≤ length run) then matches ++ [run]
             else matches).

(** The cells [s, s+1, .., s+len-1] of a line, as points. *)
Definition segment (mk : nat → Coord) (s len : nat) : Run :=
  mk <$> seq s len.

(** [s, len] delimits a maximal run of equal kinds on a line of [n] cells. *)
Definition MaxRun (kind : nat → Kind) (n s len : nat) : Prop :=
  0 < len ∧ s + len ≤ n ∧
  (∀ i, s ≤ i < s + len → kind i = kind s) ∧
  (s = 0 ∨ kind (s - 1) ≠ kind s) ∧
  (s + len = n ∨ kind (s + len) ≠ kind s).

(** The runs the scan has to report for a line. *)
Definition LineMatch (kind : nat → Kind) (mk : nat → Coord) (n : nat)
    (x : Run) : Prop :=
  ∃ s len, MATCH_MIN ≤ len ∧ MaxRun kind n s len ∧ x = segment mk s len.

(** Loop invariant of the scan, on entry to round [i]: the current run
    starts at [s], and every maximal run that ends at or before [s] and is
    long enough has been reported, once. *)
Definition scanInv (mk : nat → Coord) (kind : nat → Kind) (n : nat)
  (ms0 : list Run) (i : nat) (st : Run * list Run) : Prop :=
  ∃ s em,
    st = (segment mk s (i - s), ms0 ++ em) ∧ s < i ∧
    (if decide (i ≤ n) then
       (∀ j, s ≤ j < i → kind j = kind s) ∧ (s = 0 ∨ kind (s - 1) ≠ kind s)
     else s = n) ∧
    NoDup em ∧
    ∀ x, x ∈ em ↔
         ∃ s' len, MATCH_MIN ≤ len ∧ MaxRun kind n s' len ∧ s' + len ≤ s ∧
                   x = segment mk s' len.

(** The scan of line [j] of a family of lines. *)
Definition scanLine (get : nat → nat → Outcome Kind) (posOf : Coord → nat)
    (mk : nat → nat → Coord) (n j : nat) (ms : list Run)
  : Outcome (list Run) :=
  st ← forUp n 1 (scanStep (get j) posOf (mk j) n) ([mk j 0], ms);
  mret st.2.

(** ** What [findAllMatches] has to return *)

(** The points of [len] cells from column [s] on in row [r], and from row [s]
    on in column [c]. *)
Definition hLine (r s len : nat) : Run := (λ c, (r, c)) <$> seq s len.
Definition vLine (c s len : nat) : Run := (λ r, (r, c)) <$> seq s len.

(** A maximal run of equal types in a row, and in a column. *)
Definition HRun (g : Grid) (r s len : nat) : Prop :=
  r < ROWS ∧ MaxRun (kindAt g r) COLS s len.
Definition VRun (g : Grid) (c s len : nat) : Prop :=
  c < COLS ∧ MaxRun (λ r, kindAt g r c) ROWS s len.

(** [x] lists, in order, the points of a maximal horizontal run of at least
    [MATCH_MIN] cells; of a vertical one; of either. *)
Definition HMatch (g : Grid) (x : Run) : Prop :=
  ∃ r s len, MATCH_MIN ≤ len ∧ HRun g r s len ∧ x = hLine r s len.

Definition VMatch (g : Grid) (x : Run) : Prop :=
  ∃ c s len, MATCH_MIN ≤ len ∧ VRun g c s len ∧ x = vLine c s len.

Definition IsMatch (g : Grid) (x : Run) : Prop :=
  ∃ i s len, MATCH_MIN ≤ len ∧
    ((HRun g i s len ∧ x = hLine i s len) ∨
     (VRun g i s len ∧ x = vLine i s len)).

(** ** Columns and gravity *)

(** The types of column [c] from row [j] down to the bottom row, top first;
    [column g c] is the whole column. *)
Definition colFrom (g : Grid) (c j : nat) : list Kind :=
  (λ r, kindAt g r c) <$> seq j (ROWS - j).

Definition column (g : Grid) (c : nat) : list Kind := colFrom g c 0.

(** The tiles of a column (its non-null types, in order) and its gaps. *)
Definition live (l : list Kind) : list Kind := filter (λ k, k ≠ None) l.
Definition gaps (l : list Kind) : list Kind := filter (λ k, k = None) l.

(** Number of gaps among the rows [j ..] of the column, as first seen. *)
Definition gapsFrom (g : Grid) (c j : nat) : nat :=
  (ROWS - j) - length (live (colFrom g c j)).

(** Invariant of the inner loop, the rows [j ..] already handled. *)
Definition dropInv (g : Grid) (c j : nat) (st : Grid * Z) : Prop :=
  Tiled st.1 ∧
  (∀ r c', c' ≠ c → kindAt st.1 r c' = kindAt g r c') ∧
  (∀ r, r < j → kindAt st.1 r c = kindAt g r c) ∧
  st.2 = (Z.of_nat (j + gapsFrom g c j) - 1)%Z ∧
  colFrom st.1 c j = replicate (gapsFrom g c j) None ++ live (colFrom g c j).

(** ** Sample boards *)

Definition tile (t : nat) : Slot := Tile (Some t).
Definition hole : Slot := Tile None.

(** A populated board with two horizontal runs and a vertical one. *)
Definition sampleGrid : Grid :=
  [ [tile 0; tile 0; tile 0; tile 1; tile 2; tile 3; tile 4; tile 5];
    [tile 1; tile 2; tile 3; tile 4; tile 5; tile 0; tile 1; tile 5];
    [tile 2; tile 3; tile 4; tile 5; tile 0; tile 1; tile 2; tile 5];
    [tile 3; tile 4; tile 5; tile 0; tile 1; tile 2; tile 3; tile 4];
    [tile 4; tile 5; tile 0; tile 1; tile 2; tile 3; tile 4; tile 5];
    [tile 5; tile 0; tile 1; tile 2; tile 3; tile 4; tile 5; tile 0];
    [tile 0; tile 1; tile 2; tile 3; tile 4; tile 5; tile 0; tile 1];
    [tile 1; tile 1; tile 1; tile 1; tile 1; tile 1; tile 1; tile 1] ].

(** A board in the middle of a cascade, with removed tiles. *)
Definition gappedGrid : Grid :=
  [ [hole;   tile 0; tile 0; tile 1; tile 2; tile 3; tile 4; hole];
    [tile 1; hole;   tile 3; tile 4; tile 5; tile 0; tile 1; hole];
    [hole;   tile 3; tile 4; tile 5; tile 0; tile 1; tile 2; hole];
    [tile 3; hole;   tile 5; tile 0; tile 1; tile 2; tile 3; tile 4];
    [hole;   tile 5; tile 0; hole;   tile 2; tile 3; tile 4; tile 5];
    [tile 5; hole;   tile 1; hole;   tile 3; tile 4; tile 5; tile 0];
    [hole;   tile 1; tile 2; hole;   tile 4; tile 5; tile 0; tile 1];
    [tile 1; hole;   hole;   tile 1; tile 1; hole;   hole;   hole] ].

(** ** Seeding *)

(** [grid[r][c]], when the row and the slot exist. *)
Definition slotAt (g : Grid) (r c : nat) : option Slot :=
  row ← g !! r; row !! c.

(** Type [t] at [(r, c)] would complete a run of three with the two filled
    slots to its left, or with the two filled slots above it. *)
Definition CompletesLeft (g : Grid) (r c t : nat) : Prop :=
  2 ≤ c ∧ slotAt g r (c - 1) = Some (Tile (Some t)) ∧
  slotAt g r (c - 2) = Some (Tile (Some t)).

Definition CompletesUp (g : Grid) (r c t : nat) : Prop :=
  2 ≤ r ∧ slotAt g (r - 1) c = Some (Tile (Some t)) ∧
  slotAt g (r - 2) c = Some (Tile (Some t)).

(** The grid as [init] has it when it draws the third tile, after two tiles
    of type 0. *)
Definition pairGrid : Grid :=
  (tile 0 :: tile 0 :: replicate 6 NoTile) :: replicate 7 (replicate 8 NoTile).

(** A random source stuck at [0], and one that walks through the types. *)
Definition zeroSource : Rng :=
  {| draws := λ _, {| num := 0; gap := 0 |}; pos := 0 |}.

Definition cyclingSource : Rng :=
  {| draws := λ i, {| num := (i * 7 + 3) mod 11; gap := 10 - (i * 7 + 3) mod 11 |};
     pos := 0 |}.

(** ** Runs on the board *)

(** Some row or column has [len >= MATCH_MIN] contiguous slots of one type. *)
Definition HasRun (g : Grid) : Prop :=
  ∃ r c len, MATCH_MIN ≤ len ∧
    ((r < ROWS ∧ c + len ≤ COLS ∧
      ∀ i, i < len → kindAt g r (c + i) = kindAt g r c) ∨
     (c < COLS ∧ r + len ≤ ROWS ∧
      ∀ i, i < len → kindAt g (r + i) c = kindAt g r c)).

(** A populated board without any run: type [(r + 2c) mod 6] at [(r, c)]. *)
Definition quietGrid : Grid :=
  [ [tile 0; tile 2; tile 4; tile 0; tile 2; tile 4; tile 0; tile 2];
    [tile 1; tile 3; tile 5; tile 1; tile 3; tile 5; tile 1; tile 3];
    [tile 2; tile 4; tile 0; tile 2; tile 4; tile 0; tile 2; tile 4];
    [tile 3; tile 5; tile 1; tile 3; tile 5; tile 1; tile 3; tile 5];
    [tile 4; tile 0; tile 2; tile 4; tile 0; tile 2; tile 4; tile 0];
    [tile 5; tile 1; tile 3; tile 5; tile 1; tile 3; tile 5; tile 1];
    [tile 0; tile 2; tile 4; tile 0; tile 2; tile 4; tile 0; tile 2];
    [tile 1; tile 3; tile 5; tile 1; tile 3; tile 5; tile 1; tile 3] ].

Definition quietState : State :=
  {| grid := quietGrid; score := 120; moves := 17; rng := cyclingSource |}.

(** ** Populated boards *)

(** Every non-null type on the board is a type id. *)
Definition Bounded (g : Grid) : Prop :=
  ∀ r c t, kindAt g r c = Some t → t < TYPES.

(** Every slot holds a tile whose type is a type id in [[0, TYPES)]. *)
Definition Populated (g : Grid) : Prop :=
  Tiled g ∧
  ∀ r c, r < ROWS → c < COLS → ∃ t, kindAt g r c = Some t ∧ t < TYPES.

(** The effect of [refillTiles] on one slot: a tile keeps its type, a gap
    receives a type id. *)
Definition Refilled (g g' : Grid) (r c : nat) : Prop :=
  match kindAt g r c with
  | Some t => kindAt g' r c = Some t
  | None => ∃ t, t < TYPES ∧ kindAt g' r c = Some t
  end.

(** Invariant of the loops of [refillTiles], on entry to row [r] of column
    [c]: the slots visited so far are refilled, the others untouched. *)
Definition refillInv (g : Grid) (c r : nat) (st : Grid * Rng) : Prop :=
  Tiled st.1 ∧
  ∀ r' c', r' < ROWS → c' < COLS →
    if decide (c' < c ∨ (c' = c ∧ r' < r)) then Refilled g st.1 r' c'
    else kindAt st.1 r' c' = kindAt g r' c'.

(** The points of the runs lie on the board. *)
Definition OnBoard (ms : list Run) : Prop :=
  ∀ run pt, run ∈ ms → pt ∈ run → pt.1 < ROWS ∧ pt.2 < COLS.

Definition sampleState : State :=
  {| grid := sampleGrid; score := 0; moves := 29; rng := cyclingSource |}.

(** The runs of [sampleGrid]. *)
Definition sampleMatches : list Run :=
  [ hLine 0 0 3; hLine 7 0 8; vLine 7 0 3 ].

(** ** Operations on a running session

    The calls that act on the state of a game in progress; [fuel] bounds the
    [while] loops of those that have one.  ([init] is not among them: it
    builds the state of a new game, score 0 and [STARTING_MOVES] moves, from
    nothing but the random source.) *)

Inductive Op : Type :=
| AttemptSwap (r1 c1 r2 c2 : nat)
| ResolveMatches (matches : list Run)
| DropTiles
| RefillTiles
| RemoveInitialMatches
| ShuffleBoard
| CheckEndConditions.

Definition withGrid (st : State) (g : Grid) (src : Rng) : State :=
  {| grid := g; score := score st; moves := moves st; rng := src |}.

Definition runOp (fuel : nat) (op : Op) (st : State) : Outcome State :=
  match op with
  | AttemptSwap r1 c1 r2 c2 =>
      res ← attemptSwap fuel r1 c1 r2 c2 st; mret res.2
  | ResolveMatches matches =>
      res ← resolveMatches fuel matches st; mret res.2
  | DropTiles =>
      g ← dropTiles (grid st); mret (withGrid st g (rng st))
  | RefillTiles =>
      res ← refillTiles (grid st) (rng st); mret (withGrid st res.1 res.2)
  | RemoveInitialMatches =>
      g ← removeInitialMatches fuel (grid st); mret (withGrid st g (rng st))
  | ShuffleBoard => shuffleBoard fuel st
  | CheckEndConditions =>
      let _ := checkEndConditions st in mret st
  end.

(** A populated board whose only runs are a row of three and a column of
    three that meet in the corner [(0, 0)]. *)
Definition cornerGrid : Grid :=
  [ [tile 0; tile 0; tile 0; tile 1; tile 2; tile 4; tile 0; tile 2];
    [tile 0; tile 3; tile 5; tile 1; tile 3; tile 5; tile 1; tile 3];
    [tile 0; tile 4; tile 1; tile 2; tile 4; tile 0; tile 2; tile 4];
    [tile 3; tile 5; tile 1; tile 3; tile 5; tile 1; tile 3; tile 5];
    [tile 4; tile 0; tile 2; tile 4; tile 0; tile 2; tile 4; tile 0];
    [tile 5; tile 1; tile 3; tile 5; tile 1; tile 3; tile 5; tile 1];
    [tile 0; tile 2; tile 4; tile 0; tile 2; tile 4; tile 0; tile 2];
    [tile 1; tile 3; tile 5; tile 1; tile 3; tile 5; tile 1; tile 3] ].

Definition cornerState : State :=
  {| grid := cornerGrid; score := 40; moves := 12; rng := cyclingSource |}.

(** A checker for [Populated]. *)
Definition validSlotb (s : Slot) : bool :=
  match s with
  | Tile (Some t) => bool_decide (t < TYPES)
  | _ => false
  end.

Definition populatedb (g : Grid) : bool :=
  bool_decide (length g = ROWS) &&
  forallb (λ row, bool_decide (length row = COLS) && forallb validSlotb row) g.

(** ** The sweeps of [removeInitialMatches] *)

(** [run[Math.floor(run.length/2)]], the point a sweep changes in a run. *)
Definition middle (run : Run) : option Coord := run !! (length run / 2).

Definition picksOf (ms : list Run) : list Coord := omap middle ms.

(** How often [p] occurs in a list of points. *)
Definition countOf (p : Coord) (l : list Coord) : nat :=
  length (filter (λ q, q = p) l).

(** *** A bound on the number of sweeps

    A sweep can only change a slot whose type equals that of its left
    neighbour (as the middle of a horizontal run) or of its upper neighbour
    (as the middle of a vertical run).  As long as the two neighbours keep
    their types, a slot can therefore be changed at most twice in a row:
    [budget] counts how many changes it has left.  The first slot a sweep
    changes, in row-major order, has both neighbours before it, so the
    budgets, read in that order as the digits of a number in base 3, go down
    with every sweep. *)

Definition sameAs (x : Kind) (nb : option Kind) : bool :=
  bool_decide (nb = Some x).

Definition pickable (x : Kind) (l u : option Kind) : bool :=
  sameAs x l || sameAs x u.

Definition budget (x : Kind) (l u : option Kind) : nat :=
  if pickable x l u then
    if pickable (nextKind x) l u then 2 else 1
  else 0.

(** The types of the left and upper neighbours, where there are such. *)
Definition leftOf (g : Grid) (r c : nat) : option Kind :=
  if decide (c = 0) then None else Some (kindAt g r (c - 1)).

Definition upOf (g : Grid) (r c : nat) : option Kind :=
  if decide (r = 0) then None else Some (kindAt g (r - 1) c).

Definition budgetAt (g : Grid) (r c : nat) : nat :=
  budget (kindAt g r c) (leftOf g r c) (upOf g r c).

(** The budgets of all slots, in row-major order. *)
Definition budgets (g : Grid) : list nat :=
  (λ k, budgetAt g (k / COLS) (k mod COLS)) <$> seq 0 (ROWS * COLS).

Fixpoint weigh (bs : list nat) : nat :=
  match bs with
  | [] => 0
  | b :: bs' => b * 3 ^ length bs' + weigh bs'
  end.

Definition sweepsLeft (g : Grid) : nat := weigh (budgets g).

(** ** The fill of [init]

    The grid while [init] is about to fill slot [(r, c)]: the rows are
    allocated, and every slot before [(r, c)] in row-major order holds a
    tile with a type id. *)
Definition Seeding (g : Grid) (r c : nat) : Prop :=
  length g = ROWS ∧ Forall (λ row, length row = COLS) g ∧
  ∀ r' c', r' < ROWS → c' < COLS → r' < r ∨ (r' = r ∧ c' < c) →
           ∃ t, t < TYPES ∧ slotAt g r' c' = Some (Tile (Some t)).

(** ** Further vocabulary: utilities, draws and whole-board views *)

(** [idx(r, c)] of the source: the row-major position of a slot. *)
Definition idx (r c : nat) : nat := r * COLS + c.

(** [Math.floor(u * n)] for one sample [u]. *)
Definition floorMul (n : nat) (u : Sample) : nat :=
  (num u * n) / (num u + gap u + 1).

(** The source after [k] further calls of [Math.random]. *)
Definition advance (k : nat) (src : Rng) : Rng :=
  {| draws := draws src; pos := pos src + k |}.

(** All the types on the board, in row-major order. *)
Definition allTypes (g : Grid) : list Kind :=
  (λ k, kindAt g (k / COLS) (k mod COLS)) <$> seq 0 (ROWS * COLS).

(** Exchange of two positions. *)
Definition transpose (i j k : nat) : nat :=
  if decide (k = i) then j else if decide (k = j) then i else k.

(** The slots of the board in the order [refillTiles] visits them (column by
    column, each from the top), and in the order [shuffleBoard] and [init]
    do (row by row, each from the left). *)
Definition columnMajor : list Coord :=
  c ← seq 0 COLS; (λ r, (r, c)) <$> seq 0 ROWS.

Definition rowMajor : list Coord :=
  r ← seq 0 ROWS; (λ c, (r, c)) <$> seq 0 COLS.

(** The null slots among [l], and those of the board as [refillTiles] meets
    them. *)
Definition nullsAmong (g : Grid) (l : list Coord) : list Coord :=
  filter (λ p, kindAt g p.1 p.2 = None) l.

Definition nullSlots (g : Grid) : list Coord := nullsAmong g columnMajor.

(** Invariant of [refillTiles] after the slots [done]: one sample used per
    null slot met, in order; everything else as it was. *)
Definition refillDrawsInv (g : Grid) (src : Rng) (done : list Coord)
    (st : Grid * Rng) : Prop :=
  Tiled st.1 ∧
  st.2 = advance (length (nullsAmong g done)) src ∧
  (∀ r c, (r, c) ∉ done ∨ kindAt g r c ≠ None →
          kindAt st.1 r c = kindAt g r c) ∧
  ∀ i p, nullsAmong g done !! i = Some p →
         kindAt st.1 p.1 p.2 = Some (floorMul TYPES (draws src (pos src + i))).

(** Invariant of the loops of [shuffleBoard] after the slots [done]. *)
Definition shuffleInv (src : Rng) (done : list Coord) (st : Grid * Rng)
  : Prop :=
  Tiled st.1 ∧
  st.2 = advance (length done) src ∧
  ∀ i p, done !! i = Some p →
         kindAt st.1 p.1 p.2 = Some (floorMul TYPES (draws src (pos src + i))).

(** ** A cascade without end *)

(** Every slot of the board holds type [t], and every sample of the random
    source gives type [t]. *)
Definition Stuck (t : nat) (st : State) : Prop :=
  Tiled (grid st) ∧
  (∀ r c, r < ROWS → c < COLS → kindAt (grid st) r c = Some t) ∧
  ∀ i, floorMul TYPES (draws (rng st) i) = t.

(** The board with type 0 everywhere, under the source stuck at 0. *)
Definition stuckState : State :=
  {| grid := replicate ROWS (replicate COLS (tile 0)); score := 0;
     moves := 29; rng := zeroSource |}.

(** * Verification *)

(** ** The outcome monad and the loops *)

Lemma bind_Ret {A B} (m : Outcome A) (f : A → Outcome B) b :
  m ≫= f = Ret b ↔ ∃ a, m = Ret a ∧ f a = Ret b.
Proof.
  destruct m; simpl; split;
    first [ by eauto | by intros (? & [= <-] & ?) | by intros (? & ? & ?) | done ].
Qed.

(** Reduce binds on returned values and pair projections, and nothing else. *)
Ltac osimpl :=
  cbn [mbind Outcome_bind mret Outcome_ret fst snd] in *.

Ltac inv_bind H :=
  let a := fresh "a" in
  let Ha := fresh "Ha" in
  apply bind_Ret in H as (a & Ha & H).

Section loops.
Context {St : Type}.
Implicit Types (body : nat → St → Outcome St) (I : nat → St → Prop).

(** Total rule: every round returns and re-establishes the invariant. *)
Lemma forUp_total I n i body s :
  I i s →
  (∀ j t, i ≤ j < i + n → I j t → ∃ t', body j t = Ret t' ∧ I (S j) t') →
  ∃ s', forUp n i body s = Ret s' ∧ I (i + n) s'.
Proof.
  revert i s. induction n as [|n IH]; intros i s Hi Hstep; simpl.
  - exists s. by rewrite Nat.add_0_r.
  - destruct (Hstep i s) as (t & -> & Ht); [lia|done|]. simpl.
    destruct (IH (S i) t) as (s' & Hs' & HI); [done| |].
    + intros j u Hj. apply Hstep. lia.
    + exists s'. split; [done|]. by replace (i + S n) with (S i + n) by lia.
Qed.

(** Partial rule: whenever the loop returns, the invariant has been kept. *)
Lemma forUp_partial I n i body s s' :
  forUp n i body s = Ret s' →
  I i s →
  (∀ j t t', i ≤ j < i + n → I j t → body j t = Ret t' → I (S j) t') →
  I (i + n) s'.
Proof.
  revert i s. induction n as [|n IH]; intros i s Hrun Hi Hstep; simpl in *.
  - injection Hrun as <-. by rewrite Nat.add_0_r.
  - inv_bind Hrun. replace (i + S n) with (S i + n) by lia.
    eapply IH; [done|..].
    + eapply Hstep; [|done..]. lia.
    + intros j u u' Hj. apply Hstep. lia.
Qed.

Lemma forDown_total I n body s :
  I n s →
  (∀ j t, j < n → I (S j) t → ∃ t', body j t = Ret t' ∧ I j t') →
  ∃ s', forDown n body s = Ret s' ∧ I 0 s'.
Proof.
  revert s. induction n as [|n IH]; intros s Hi Hstep; simpl.
  - by exists s.
  - destruct (Hstep n s) as (t & -> & Ht); [lia|done|]. simpl.
    apply IH; [done|]. intros j u Hj. apply Hstep. lia.
Qed.

Lemma forOf_total {X} (I : list X → St → Prop) (xs : list X)
    (body : X → St → Outcome St) s :
  I [] s →
  (∀ done x t, (∃ rest, xs = done ++ x :: rest) → I done t →
     ∃ t', body x t = Ret t' ∧ I (done ++ [x]) t') →
  ∃ s', forOf xs body s = Ret s' ∧ I xs s'.
Proof.
  intros Hi Hstep.
  cut (∀ done rest t, xs = done ++ rest → I done t →
         ∃ s', forOf rest body t = Ret s' ∧ I xs s').
  { intros H. by apply (H [] xs s). }
  intros done rest. revert done.
  induction rest as [|x rest IH]; intros done t Hxs Hd; simpl.
  - exists t. split; [done|]. by rewrite Hxs, app_nil_r.
  - destruct (Hstep done x t) as (t' & -> & Ht'); [by exists rest|done|].
    simpl. apply (IH (done ++ [x])); [|done].
    by rewrite <- app_assoc.
Qed.

Lemma forOf_partial {X} (I : list X → St → Prop) (xs : list X)
    (body : X → St → Outcome St) s s' :
  forOf xs body s = Ret s' →
  I [] s →
  (∀ done x t t', (∃ rest, xs = done ++ x :: rest) → I done t →
     body x t = Ret t' → I (done ++ [x]) t') →
  I xs s'.
Proof.
  intros Hrun Hi Hstep.
  cut (∀ done rest t, xs = done ++ rest → I done t →
         forOf rest body t = Ret s' → I xs s').
  { intros H. by apply (H [] xs s). }
  intros done rest. revert done.
  induction rest as [|x rest IH]; intros done t Hxs Hd Hr; simpl in *.
  - injection Hr as <-. by rewrite Hxs, app_nil_r.
  - inv_bind Hr. apply (IH (done ++ [x]) a); [by rewrite <- app_assoc| |done].
    eapply Hstep; [by exists rest|done..].
Qed.
End loops.


Lemma Tiled_lookup g r c :
  Tiled g → r < ROWS → c < COLS →
  ∃ row k, g !! r = Some row ∧ row !! c = Some (Tile k) ∧ length row = COLS.
Proof.
  intros [Hlen Hrows] Hr Hc.
  destruct (lookup_lt_is_Some_2 g r) as [row Hrow]; [lia|].
  rewrite Forall_lookup in Hrows. destruct (Hrows _ _ Hrow) as [Hl Hs].
  destruct (lookup_lt_is_Some_2 row c) as [s Hsl]; [lia|].
  rewrite Forall_lookup in Hs. specialize (Hs _ _ Hsl).
  destruct s as [|k]; [done|]. by exists row, k.
Qed.

Lemma typeAt_Tiled g r c :
  Tiled g → r < ROWS → c < COLS → typeAt g r c = Ret (kindAt g r c).
Proof.
  intros Hg Hr Hc. destruct (Tiled_lookup g r c) as (row & k & H1 & H2 & _);
    [done..|].
  unfold kindAt, typeAt. by rewrite H1, H2.
Qed.

Lemma setType_Tiled g r c k :
  Tiled g → r < ROWS → c < COLS →
  ∃ g', setType g r c k = Ret g' ∧ Tiled g' ∧
        ∀ r' c', kindAt g' r' c' =
                 if decide (r' = r ∧ c' = c) then k else kindAt g r' c'.
Proof.
  intros Hg Hr Hc.
  destruct (Tiled_lookup g r c) as (row & k0 & H1 & H2 & Hl); [done..|].
  unfold setType. rewrite H1, H2. eexists. split; [done|]. split.
  - destruct Hg as [Hlen Hrows]. split; [by rewrite length_insert|].
    apply Forall_insert; [done|]. split; [by rewrite length_insert|].
    rewrite Forall_lookup in Hrows. destruct (Hrows _ _ H1) as [_ Hs].
    by apply Forall_insert.
  - intros r' c'. unfold kindAt, typeAt.
    destruct (decide (r' = r)) as [->|Hne].
    + rewrite list_lookup_insert_eq by (apply lookup_lt_Some in H1; lia).
      destruct (decide (c' = c)) as [->|Hnc].
      * rewrite list_lookup_insert_eq by lia.
        by rewrite decide_True.
      * rewrite list_lookup_insert_ne by done. rewrite H1.
        by rewrite decide_False by lia.
    + rewrite list_lookup_insert_ne by done.
      by rewrite decide_False by lia.
Qed.

Lemma Tiled_ext g g' :
  Tiled g → Tiled g' →
  (∀ r c, r < ROWS → c < COLS → kindAt g r c = kindAt g' r c) →
  g = g'.
Proof.
  intros Hg Hg' Heq. apply list_eq. intros r.
  destruct (decide (r < ROWS)) as [Hr|Hr].
  - destruct (Tiled_lookup g r 0) as (row & ? & H1 & _ & Hl); [done..|unfold COLS; lia|].
    destruct (Tiled_lookup g' r 0) as (row' & ? & H1' & _ & Hl'); [done..|unfold COLS; lia|].
    rewrite H1, H1'. f_equal. apply list_eq. intros c.
    destruct (decide (c < COLS)) as [Hc|Hc].
    + specialize (Heq r c Hr Hc).
      destruct (Tiled_lookup g r c) as (row1 & k & H2 & H3 & _); [done..|].
      destruct (Tiled_lookup g' r c) as (row1' & k' & H2' & H3' & _); [done..|].
      unfold kindAt, typeAt in Heq. rewrite H2, H2', H3, H3' in Heq.
      simplify_eq. by rewrite H3, H3'.
    + rewrite !lookup_ge_None_2; [done|lia..].
  - destruct Hg as [Hl _], Hg' as [Hl' _].
    rewrite !lookup_ge_None_2; [done|lia..].
Qed.


Lemma hStep_scanStep g r :
  hStep g r = scanStep (typeAt g r) snd (λ c, (r, c)) COLS.
Proof. done. Qed.

Lemma vStep_scanStep g c :
  vStep g c = scanStep (λ r, typeAt g r c) fst (λ r, (r, c)) ROWS.
Proof. done. Qed.


Lemma segment_snoc mk s len : segment mk s len ++ [mk (s + len)] = segment mk s (S len).
Proof. unfold segment. by rewrite seq_S, fmap_app. Qed.

Lemma segment_length mk s len : length (segment mk s len) = len.
Proof. unfold segment. by rewrite length_fmap, length_seq. Qed.

(** Two maximal runs that end after the start of the other coincide. *)
Lemma MaxRun_overlap kind n s len s' len' :
  MaxRun kind n s len → MaxRun kind n s' len' →
  s < s' + len' → s' + len' ≤ s + len → s' = s ∧ len' = len.
Proof.
  intros (Hl & Hn & Heq & Hleft & Hright) (Hl' & Hn' & Heq' & Hleft' & Hright') H1 H2.
  assert (s' = s) as ->.
  { destruct (decide (s' < s)).
    - destruct Hleft as [->|Hleft]; [lia|]. exfalso. apply Hleft.
      rewrite (Heq' (s - 1)), (Heq' s); [done|lia..].
    - destruct (decide (s < s')); [|lia].
      destruct Hleft' as [->|Hleft']; [lia|]. exfalso. apply Hleft'.
      rewrite (Heq (s' - 1)), (Heq s'); [done|lia..]. }
  split; [done|]. destruct (decide (s + len' < s + len)); [|lia].
  destruct Hright' as [?|Hright']; [lia|]. exfalso. apply Hright'.
  apply Heq. lia.
Qed.

Section scan.
Context (get : nat → Outcome Kind) (posOf : Coord → nat) (mk : nat → Coord).
Context (kind : nat → Kind) (n : nat).
Hypothesis get_kind : ∀ i, i < n → get i = Ret (kind i).
Hypothesis posOf_mk : ∀ i, posOf (mk i) = i.


Lemma segment_inj s len s' len' :
  0 < len → segment mk s len = segment mk s' len' → s = s' ∧ len = len'.
Proof using posOf_mk.
  intros Hl Heq. assert (len = len').
  { apply (f_equal length) in Heq. by rewrite !segment_length in Heq. }
  subst len'. split; [|done]. destruct len as [|len]; [lia|].
  unfold segment in Heq. simpl in Heq. injection Heq as Heq _.
  apply (f_equal posOf) in Heq. by rewrite !posOf_mk in Heq.
Qed.

Lemma scanStep_inv ms0 i st :
  1 ≤ i < 1 + n → scanInv mk kind n ms0 i st →
  ∃ st', scanStep get posOf mk n i st = Ret st' ∧ scanInv mk kind n ms0 (S i) st'.
Proof using get_kind posOf_mk.
  intros Hi (s & em & -> & Hs & Hrun & Hnd & Hem).
  rewrite decide_True in Hrun by lia. destruct Hrun as [Heq Hleft].
  assert (Hfirst : firstOf (segment mk s (i - s)) = Ret (mk s)).
  { destruct (i - s) as [|d] eqn:Hd; [lia|]. by unfold segment. }
  (* whether the run is extended by cell [i] *)
  destruct (decide (i < n ∧ kind i = kind s)) as [[Hin Hk]|Hbreak].
  - exists (segment mk s (S i - s), ms0 ++ em). split.
    + unfold scanStep. rewrite (decide_True (P := i < n)) by done.
      rewrite (get_kind i) by done. simpl. rewrite Hfirst. simpl.
      rewrite posOf_mk, get_kind by lia. simpl.
      rewrite bool_decide_eq_true_2 by done. simpl.
      replace (mk i) with (mk (s + (i - s))) by (f_equal; lia).
      rewrite segment_snoc. by replace (S i - s) with (S (i - s)) by lia.
    + exists s, em. split; [done|]. split; [lia|].
      rewrite decide_True by lia. split; [|done]. split; [|done].
      intros j Hj. destruct (decide (j = i)) as [->|]; [done|].
      apply Heq. lia.
  - assert (Hmax : MaxRun kind n s (i - s)).
    { split; [lia|]. split; [lia|]. split.
      { intros j Hj. apply Heq. lia. }
      split; [done|]. replace (s + (i - s)) with i by lia.
      destruct (decide (i = n)); [by left|right].
      intros Hk. apply Hbreak. split; [lia|done]. }
    set (ms' := if decide (MATCH_MIN ≤ i - s) then em ++ [segment mk s (i - s)]
                else em).
    exists ([mk i], ms0 ++ ms'). split.
    + unfold scanStep.
      assert ((if decide (i < n) then
          a ← get i; first ← firstOf (segment mk s (i - s));
          b ← get (posOf first); mret (bool_decide (a = b))
        else mret false) = Ret false) as ->.
      { destruct (decide (i < n)) as [Hin|]; [|done].
        rewrite (get_kind i) by done. simpl. rewrite Hfirst. simpl.
        rewrite posOf_mk, get_kind by lia. simpl.
        rewrite bool_decide_eq_false_2; [done|]. intros Hk. by apply Hbreak. }
      simpl. rewrite segment_length. unfold ms'.
      destruct (decide (MATCH_MIN ≤ i - s)); [|done].
      by rewrite app_assoc.
    + exists i, ms'. split; [by replace (S i - i) with 1 by lia|].
      split; [lia|]. split.
      { destruct (decide (S i ≤ n)) as [Hin|]; [|lia]. split.
        - intros j Hj. f_equal. lia.
        - right. rewrite (Heq (i - 1)) by lia. intros Hk. apply Hbreak.
          split; [lia|done]. }
      assert (Hnew : ∀ x, x ∈ em → x ≠ segment mk s (i - s)).
      { intros x Hx ->. apply Hem in Hx as (s' & len & Hlen & _ & Hend & Hx).
        apply segment_inj in Hx as [-> _]; [|lia]. unfold MATCH_MIN in Hlen. lia. }
      split.
      { unfold ms'. destruct (decide (MATCH_MIN ≤ i - s)); [|done].
        apply NoDup_app. split; [done|]. split; [|apply NoDup_singleton].
        intros x Hx ->%list_elem_of_singleton. by eapply Hnew. }
      intros x. split.
      * intros Hx.
        assert (x ∈ em ∨ (MATCH_MIN ≤ i - s ∧ x = segment mk s (i - s)))
          as [Hx' | [Hlen ->] ].
        { unfold ms' in Hx. destruct (decide (MATCH_MIN ≤ i - s)); [|by left].
          apply elem_of_app in Hx as [? | ->%list_elem_of_singleton]; auto. }
        -- apply Hem in Hx' as (s' & len & ? & ? & ? & ->).
           exists s', len. split_and!; try done. lia.
        -- exists s, (i - s). split_and!; try done. lia.
      * intros (s' & len & Hlen & Hmax' & Hend & ->).
        destruct (decide (s' + len ≤ s)) as [Hle|Hgt].
        -- assert (segment mk s' len ∈ em) by (apply Hem; eauto 10).
           unfold ms'. destruct (decide (MATCH_MIN ≤ i - s)); [|done].
           apply elem_of_app. by left.
        -- destruct (MaxRun_overlap kind n s (i - s) s' len) as [-> ->];
             [done|done|lia|lia|].
           unfold ms'. rewrite decide_True by done.
           apply elem_of_app. right. by apply list_elem_of_singleton.
Qed.

(** The scan of one line appends to [ms0] exactly the runs to report. *)
Lemma scanLine_spec ms0 :
  ∃ run em,
    forUp n 1 (scanStep get posOf mk n) ([mk 0], ms0) = Ret (run, ms0 ++ em) ∧
    NoDup em ∧ ∀ x, x ∈ em ↔ LineMatch kind mk n x.
Proof using get_kind posOf_mk.
  destruct (forUp_total (scanInv mk kind n ms0) n 1 (scanStep get posOf mk n)
              ([mk 0], ms0)) as (st' & Hrun & Hinv).
  - exists 0, []. split; [by rewrite app_nil_r|]. split; [lia|].
    split.
    { destruct (decide (1 ≤ n)); [|lia]. split; [|by left].
      intros j Hj. f_equal. lia. }
    split; [apply NoDup_nil_2|]. intros x. split; [by intros ?%elem_of_nil|].
    intros (s' & len & Hlen & _ & Hend & _). unfold MATCH_MIN in Hlen. lia.
  - intros j t Hj. by apply scanStep_inv.
  - destruct Hinv as (s & em & -> & Hs & Hfin & Hnd & Hem).
    rewrite decide_False in Hfin by lia. subst s.
    eexists _, em. split; [done|]. split; [done|].
    intros x. rewrite Hem. unfold LineMatch. split.
    + intros (s' & len & ? & ? & ? & ->). eauto.
    + intros (s' & len & ? & Hmax & ->). exists s', len.
      split_and!; try done. destruct Hmax as (_ & ? & _). lia.
Qed.
End scan.

Section scanAll.
Context (get : nat → nat → Outcome Kind) (posOf : Coord → nat).
Context (mk : nat → nat → Coord) (kind : nat → nat → Kind) (m n : nat).
Hypothesis get_kind : ∀ j i, j < m → i < n → get j i = Ret (kind j i).
Hypothesis posOf_mk : ∀ j i, posOf (mk j i) = i.
Hypothesis mk_line : ∀ j i j' i', mk j i = mk j' i' → j = j'.


(** Scanning the lines [0 .. m-1] appends the runs to report of each. *)
Lemma scanAll_spec ms0 :
  ∃ em, forUp m 0 (scanLine get posOf mk n) ms0 = Ret (ms0 ++ em) ∧ NoDup em ∧
        ∀ x, x ∈ em ↔ ∃ j, j < m ∧ LineMatch (kind j) (mk j) n x.
Proof using get_kind posOf_mk mk_line.
  pose (I := λ (j : nat) (ms : list Run),
    ∃ em, ms = ms0 ++ em ∧ NoDup em ∧
          ∀ x, x ∈ em ↔ ∃ j', j' < j ∧ LineMatch (kind j') (mk j') n x).
  destruct (forUp_total I m 0 (scanLine get posOf mk n) ms0) as (ms & Hrun & em & -> & Hnd & Hem).
  - exists []. split; [by rewrite app_nil_r|]. split; [apply NoDup_nil_2|].
    intros x. split; [by intros ?%elem_of_nil|]. intros (? & ? & _). lia.
  - intros j ms Hj (em & -> & Hnd & Hem).
    destruct (scanLine_spec (get j) posOf (mk j) (kind j) n) with (ms0 := ms0 ++ em)
      as (run & em' & Hrun & Hnd' & Hem').
    { intros i Hi. apply get_kind; lia. }
    { done. }
    exists ((ms0 ++ em) ++ em'). split.
    { unfold scanLine. by rewrite Hrun. }
    exists (em ++ em'). split; [by rewrite app_assoc|]. split.
    + apply NoDup_app. split; [done|]. split; [|done].
      intros x Hx Hx'. apply Hem in Hx as (j' & Hj' & s & len & Hlen & _ & ->).
      apply Hem' in Hx' as (s' & len' & Hlen' & _ & Heq).
      unfold MATCH_MIN in *.
      destruct len as [|len]; [lia|]. destruct len' as [|len']; [lia|].
      unfold segment in Heq. simpl in Heq. injection Heq as Heq _.
      apply mk_line in Heq. lia.
    + intros x. rewrite elem_of_app, Hem, Hem'. split.
      * intros [(j' & ? & ?)|?]; [exists j'|exists j]; split; (lia || done).
      * intros (j' & Hj' & Hx). destruct (decide (j' = j)) as [->|]; [by right|].
        left. exists j'. split; [lia|done].
  - by exists em.
Qed.
End scanAll.


(** The result of [findAllMatches] is the horizontal matches followed by the
    vertical ones, each exactly once. *)
Lemma findAllMatches_split g :
  Tiled g →
  ∃ emH emV, findAllMatches g = Ret (emH ++ emV) ∧
             NoDup emH ∧ NoDup emV ∧
             (∀ x, x ∈ emH ↔ HMatch g x) ∧ (∀ x, x ∈ emV ↔ VMatch g x).
Proof.
  intros Hg.
  destruct (scanAll_spec (typeAt g) snd (λ r c, (r, c)) (kindAt g) ROWS COLS)
    with (ms0 := @nil Run) as (emH & HrunH & HndH & HemH).
  { intros. by apply typeAt_Tiled. }
  { done. }
  { by intros ???? [= -> _]. }
  destruct (scanAll_spec (λ c r, typeAt g r c) fst (λ c r, (r, c))
              (λ c r, kindAt g r c) COLS ROWS)
    with (ms0 := emH) as (emV & HrunV & HndV & HemV).
  { intros. by apply typeAt_Tiled. }
  { done. }
  { by intros ???? [= _ ->]. }
  exists emH, emV. split.
  { unfold findAllMatches.
    change (forUp ROWS 0 (hRow g) []) with
      (forUp ROWS 0 (scanLine (typeAt g) snd (λ r c, (r, c)) COLS) []).
    rewrite HrunH. simpl. exact HrunV. }
  split; [done|]. split; [done|]. split.
  - intros x. rewrite HemH. unfold HMatch, HRun. split.
    + intros (r & Hr & s & len & Hlen & Hmax & ->). by exists r, s, len.
    + intros (r & s & len & Hlen & [Hr Hmax] & ->). exists r. split; [done|].
      by exists s, len.
  - intros x. rewrite HemV. unfold VMatch, VRun. split.
    + intros (c & Hc & s & len & Hlen & Hmax & ->). by exists c, s, len.
    + intros (c & s & len & Hlen & [Hc Hmax] & ->). exists c. split; [done|].
      by exists s, len.
Qed.

Lemma IsMatch_cases g x : IsMatch g x ↔ HMatch g x ∨ VMatch g x.
Proof.
  unfold IsMatch, HMatch, VMatch. split.
  - intros (i & s & len & Hlen & [[? ->]|[? ->]]); [left|right];
      by exists i, s, len.
  - intros [(i & s & len & ? & ? & ->)|(i & s & len & ? & ? & ->)];
      exists i, s, len; (split; [done|]); [by left|by right].
Qed.

(** A row of two or more points is no column of points. *)
Lemma hLine_vLine r s len c s' len' :
  2 ≤ len → hLine r s len ≠ vLine c s' len'.
Proof.
  intros Hlen Heq. assert (len' = len) as ->.
  { apply (f_equal length) in Heq. unfold hLine, vLine in Heq.
    by rewrite !length_fmap, !length_seq in Heq. }
  destruct len as [|[|len]]; [lia..|].
  unfold hLine, vLine in Heq. simpl in Heq. injection Heq as ? ? ? ?. lia.
Qed.

Lemma findAllMatches_spec g :
  Tiled g →
  ∃ ms, findAllMatches g = Ret ms ∧ NoDup ms ∧ ∀ x, x ∈ ms ↔ IsMatch g x.
Proof.
  intros Hg.
  destruct (findAllMatches_split g Hg) as (emH & emV & Hrun & HndH & HndV & HemH & HemV).
  exists (emH ++ emV). split; [done|]. split.
  - apply NoDup_app. split; [done|]. split; [|done].
    intros x (r & s & len & Hlen & _ & ->)%HemH (c & s' & len' & _ & _ & Heq)%HemV.
    apply hLine_vLine in Heq; [done|]. unfold MATCH_MIN in Hlen. lia.
  - intros x. by rewrite elem_of_app, HemH, HemV, IsMatch_cases.
Qed.


Lemma colFrom_cons g c j :
  j < ROWS → colFrom g c j = kindAt g j c :: colFrom g c (S j).
Proof.
  intros Hj. unfold colFrom.
  by replace (ROWS - j) with (S (ROWS - S j)) by lia.
Qed.

Lemma colFrom_length g c j : length (colFrom g c j) = ROWS - j.
Proof. unfold colFrom. by rewrite length_fmap, length_seq. Qed.

Lemma colFrom_lookup g c j i :
  i < ROWS - j → colFrom g c j !! i = Some (kindAt g (j + i) c).
Proof.
  intros Hi. unfold colFrom. by rewrite list_lookup_fmap, lookup_seq_lt.
Qed.

Lemma colFrom_ext g g' c j :
  (∀ r, j ≤ r < ROWS → kindAt g' r c = kindAt g r c) →
  colFrom g' c j = colFrom g c j.
Proof.
  intros Heq. unfold colFrom. apply list_eq. intros i.
  rewrite !list_lookup_fmap. destruct (seq j (ROWS - j) !! i) as [r|] eqn:Hr;
    [|done].
  apply lookup_seq in Hr as [-> ?]. simpl. f_equal. apply Heq. lia.
Qed.

(** Reassigning the type at row [r] of column [c] updates one entry. *)
Lemma colFrom_update g g' c j r k :
  (∀ r', kindAt g' r' c = if decide (r' = r) then k else kindAt g r' c) →
  j ≤ r → colFrom g' c j = <[r - j := k]> (colFrom g c j).
Proof.
  intros Hupd Hjr. apply list_eq. intros i.
  destruct (decide (i < ROWS - j)) as [Hi|Hi].
  - rewrite colFrom_lookup, Hupd by done.
    destruct (decide (j + i = r)) as [<-|Hne].
    + replace (j + i - j) with i by lia.
      by rewrite list_lookup_insert_eq by (rewrite colFrom_length; lia).
    + rewrite list_lookup_insert_ne by lia. by rewrite colFrom_lookup.
  - rewrite !lookup_ge_None_2; [done|..].
    + rewrite length_insert, colFrom_length. lia.
    + rewrite colFrom_length. lia.
Qed.

Lemma live_length_le l : length (live l) ≤ length l.
Proof. apply length_filter. Qed.

Lemma insert_last_gap (z : nat) (k : Kind) (l : list Kind) :
  0 < z →
  None :: <[z - 1 := k]> (replicate z None ++ l) = replicate z None ++ k :: l.
Proof.
  intros Hz. destruct z as [|z]; [lia|].
  replace (S z - 1) with z by lia.
  rewrite replicate_S_end at 1. rewrite <- app_assoc.
  rewrite insert_app_r_alt by (rewrite length_replicate; lia).
  rewrite length_replicate, Nat.sub_diag. done.
Qed.

Section dropColumn.
Context (g : Grid) (c : nat).
Hypothesis c_lt : c < COLS.


Lemma dropStep_inv j st :
  j < ROWS → dropInv g c (S j) st →
  ∃ st', dropStep c j st = Ret st' ∧ dropInv g c j st'.
Proof using c_lt.
  destruct st as [g1 write].
  intros Hj (Hg1 & Hoth & Habove & Hw & Hcol). simpl in *.
  pose proof (live_length_le (colFrom g c (S j))) as Hlive.
  rewrite colFrom_length in Hlive.
  unfold dropStep. rewrite typeAt_Tiled by done. simpl.
  rewrite (Habove j) by lia.
  pose proof (colFrom_cons g c j Hj) as Hcons.
  destruct (kindAt g j c) as [t|] eqn:Hk.
  - (* a tile: it moves to row [write] unless it is there already *)
    assert (Hgaps : gapsFrom g c j = gapsFrom g c (S j)).
    { unfold gapsFrom. rewrite Hcons. unfold live.
      rewrite filter_cons_True by done. rewrite length_cons.
      fold (live (colFrom g c (S j))). lia. }
    assert (Hlive' : live (colFrom g c j) = Some t :: live (colFrom g c (S j))).
    { rewrite Hcons. unfold live. by rewrite filter_cons_True. }
    rewrite decide_True by done.
    destruct (decide (Z.of_nat j ≠ write)) as [Hne|Heq].
    + assert (Hz : 0 < gapsFrom g c (S j)) by lia.
      unfold indexOf. rewrite decide_True by lia. simpl.
      assert (Hwr : Z.to_nat write = j + gapsFrom g c (S j)) by lia.
      rewrite Hwr.
      destruct (setType_Tiled g1 (j + gapsFrom g c (S j)) c (Some t))
        as (g2 & -> & Hg2 & Hk2); [done|unfold gapsFrom in *; lia|done|].
      simpl.
      destruct (setType_Tiled g2 j c None) as (g3 & -> & Hg3 & Hk3);
        [done..|].
      simpl. eexists. split; [done|]. split; [done|]. simpl. split.
      { intros r c' Hc'. rewrite Hk3, Hk2.
        rewrite !decide_False by lia. by apply Hoth. }
      split.
      { intros r Hr. rewrite Hk3, Hk2. rewrite !decide_False by lia.
        apply Habove. lia. }
      split; [lia|].
      rewrite Hgaps, Hlive'. rewrite <- insert_last_gap by done.
      rewrite colFrom_cons, Hk3 by done. rewrite decide_True by done.
      f_equal. rewrite <- Hcol.
      rewrite (colFrom_ext g2 g3).
      2:{ intros r Hr. rewrite Hk3. by rewrite decide_False by lia. }
      rewrite (colFrom_update g1 g2 c (S j) (j + gapsFrom g c (S j)) (Some t)).
      * f_equal. lia.
      * intros r'. rewrite Hk2. destruct (decide (r' = j + gapsFrom g c (S j))).
        -- by rewrite decide_True.
        -- by rewrite decide_False by lia.
      * lia.
    + apply dec_stable in Heq. simpl.
      exists (g1, (write - 1)%Z). split; [done|]. split; [done|]. simpl.
      split; [done|]. split; [intros r Hr; apply Habove; lia|].
      split; [lia|].
      assert (gapsFrom g c (S j) = 0) as Hz by lia.
      rewrite Hgaps, Hlive', Hz. simpl.
      rewrite colFrom_cons, (Habove j), Hk by lia. f_equal.
      by rewrite Hcol, Hz.
  - (* a gap: nothing moves *)
    assert (Hlive' : live (colFrom g c j) = live (colFrom g c (S j))).
    { rewrite Hcons. unfold live. by rewrite filter_cons_False by naive_solver. }
    assert (Hgaps : gapsFrom g c j = S (gapsFrom g c (S j))).
    { unfold gapsFrom. rewrite Hlive'. lia. }
    rewrite decide_False by naive_solver. simpl.
    exists (g1, write). split; [done|]. split; [done|]. simpl.
    split; [done|]. split; [intros r Hr; apply Habove; lia|].
    split; [lia|].
    rewrite Hgaps, Hlive'. simpl.
    rewrite colFrom_cons, (Habove j), Hk by lia. by rewrite Hcol.
Qed.

(** [dropColumn] leaves the other columns alone and compacts column [c]
    towards the bottom, in order. *)
Lemma dropColumn_spec g1 :
  Tiled g1 → (∀ r c', kindAt g1 r c' = kindAt g r c') →
  ∃ g', dropColumn c g1 = Ret g' ∧ Tiled g' ∧
        (∀ r c', c' ≠ c → kindAt g' r c' = kindAt g r c') ∧
        column g' c = replicate (ROWS - length (live (column g c))) None
                        ++ live (column g c).
Proof using c_lt.
  intros Hg1 Hsame.
  destruct (forDown_total (dropInv g c) ROWS (dropStep c)
              (g1, (Z.of_nat ROWS - 1)%Z)) as ([g' w] & Hrun & Hinv).
  - split; [done|]. cbn [fst snd]. split; [by intros; apply Hsame|].
    split; [by intros; apply Hsame|].
    assert (colFrom g c ROWS = []) as Hnil.
    { unfold colFrom. by rewrite Nat.sub_diag. }
    assert (colFrom g1 c ROWS = []) as Hnil1.
    { unfold colFrom. by rewrite Nat.sub_diag. }
    unfold gapsFrom. rewrite Hnil, Hnil1, Nat.sub_diag. split; [|done].
    change (length (live [])) with 0. lia.
  - intros j st Hj. by apply dropStep_inv.
  - destruct Hinv as (Hg' & Hoth & _ & _ & Hcol). osimpl.
    exists g'. unfold dropColumn. rewrite Hrun. osimpl.
    split; [done|]. split; [done|]. split; [done|].
    unfold column. rewrite Hcol. unfold gapsFrom.
    by rewrite Nat.sub_0_r.
Qed.
End dropColumn.

Lemma live_gaps_length l : length (gaps l) + length (live l) = length l.
Proof.
  unfold gaps, live. induction l as [|[t|] l IH].
  - done.
  - rewrite filter_cons_False, filter_cons_True by done. simpl. lia.
  - rewrite filter_cons_True, filter_cons_False by naive_solver. simpl. lia.
Qed.

Lemma live_compact z l : live (replicate z None ++ live l) = live l.
Proof.
  unfold live. rewrite filter_app.
  assert (filter (λ k : Kind, k ≠ None) (replicate z None) = []) as ->.
  { induction z as [|z IH]; [done|]. simpl.
    by rewrite filter_cons_False by naive_solver. }
  simpl. induction l as [|[t|] l IH]; [done|..].
  - rewrite filter_cons_True by done. rewrite filter_cons_True by done.
    by rewrite IH.
  - by rewrite filter_cons_False by naive_solver.
Qed.

Lemma gaps_compact z l : gaps (replicate z None ++ live l) = replicate z None.
Proof.
  unfold gaps, live. rewrite filter_app.
  assert (filter (λ k : Kind, k = None) (replicate z None) = replicate z None)
    as ->.
  { induction z as [|z IH]; [done|]. simpl.
    by rewrite filter_cons_True, IH by done. }
  assert (filter (λ k : Kind, k = None) (filter (λ k : Kind, k ≠ None) l) = [])
    as ->; [|by rewrite app_nil_r].
  induction l as [|[t|] l IH]; [done|..].
  - rewrite filter_cons_True by done. by rewrite filter_cons_False by done.
  - by rewrite filter_cons_False by naive_solver.
Qed.

Lemma column_length g c : length (column g c) = ROWS.
Proof. unfold column. rewrite colFrom_length. lia. Qed.

(** [dropTiles] compacts every column towards the bottom, in order. *)
Lemma dropTiles_spec g :
  Tiled g →
  ∃ g', dropTiles g = Ret g' ∧ Tiled g' ∧
        ∀ c, c < COLS →
             column g' c = replicate (length (gaps (column g c))) None
                             ++ live (column g c).
Proof.
  intros Hg.
  pose (I := λ (c : nat) (g1 : Grid),
    Tiled g1 ∧
    (∀ c', c' < c →
           column g1 c' = replicate (length (gaps (column g c'))) None
                            ++ live (column g c')) ∧
    (∀ r c', c ≤ c' → kindAt g1 r c' = kindAt g r c')).
  destruct (forUp_total I COLS 0 dropColumn g) as (g' & Hrun & Hg' & Hcols & _).
  - split; [done|]. split; [intros; lia|done].
  - intros c g1 Hc (Hg1 & Hdone & Hrest).
    destruct (dropColumn_spec g1 c) with (g1 := g1)
      as (g2 & Hrun & Hg2 & Hoth & Hcol); [lia|done..|].
    exists g2. split; [done|]. split; [done|]. split.
    + intros c' Hc'. destruct (decide (c' = c)) as [->|Hne].
      * rewrite Hcol. assert (column g1 c = column g c) as ->.
        { apply colFrom_ext. intros r _. by apply Hrest. }
        f_equal. f_equal.
        pose proof (live_gaps_length (column g c)) as Hlen.
        rewrite column_length in Hlen. lia.
      * rewrite <- Hdone by lia. apply colFrom_ext. intros r _. by apply Hoth.
    + intros r c' Hc'. rewrite Hoth by lia. apply Hrest. lia.
  - exists g'. split; [done|]. split; [done|]. intros c Hc. by apply Hcols.
Qed.

(** ** Claims about [dropTiles] *)

(** C4.  For every grid of tiles, [dropTiles] returns, and compacts each
    column on its own: afterwards the column reads, from the top, as many
    nulls as the column had, followed by its non-null types in the order they
    had before. *)
Theorem dropTiles_compacts g :
  Tiled g →
  ∃ g', dropTiles g = Ret g' ∧
        ∀ c, c < COLS →
             column g' c = replicate (length (gaps (column g c))) None
                             ++ live (column g c).
Proof.
  intros Hg. destruct (dropTiles_spec g Hg) as (g' & Hrun & _ & Hcols).
  by exists g'.
Qed.

Lemma dropTiles_compacts_witness :
  Tiled gappedGrid ∧
  ∃ g', dropTiles gappedGrid = Ret g' ∧
        ∀ c, c < COLS →
             column g' c = replicate (length (gaps (column gappedGrid c))) None
                             ++ live (column gappedGrid c).
Proof.
  assert (H : Tiled gappedGrid) by (vm_compute; repeat constructor; done).
  split; [exact H|]. exact (dropTiles_compacts gappedGrid H).
Defined.

(** C10.  For every grid of tiles and every column, [dropTiles] keeps the
    multiset of the non-null types of the column, and the number of its null
    slots. *)
Theorem dropTiles_preserves_tiles g :
  Tiled g →
  ∃ g', dropTiles g = Ret g' ∧
        ∀ c, c < COLS →
             live (column g' c) ≡ₚ live (column g c) ∧
             length (gaps (column g' c)) = length (gaps (column g c)).
Proof.
  intros Hg. destruct (dropTiles_spec g Hg) as (g' & Hrun & _ & Hcols).
  exists g'. split; [done|]. intros c Hc. rewrite (Hcols c Hc).
  rewrite live_compact, gaps_compact, length_replicate. done.
Qed.

Lemma dropTiles_preserves_tiles_witness :
  Tiled gappedGrid ∧
  ∃ g', dropTiles gappedGrid = Ret g' ∧
        ∀ c, c < COLS →
             live (column g' c) ≡ₚ live (column gappedGrid c) ∧
             length (gaps (column g' c)) = length (gaps (column gappedGrid c)).
Proof.
  assert (H : Tiled gappedGrid) by (vm_compute; repeat constructor; done).
  split; [exact H|]. exact (dropTiles_preserves_tiles gappedGrid H).
Defined.

(** ** Claim about [findAllMatches] *)

(** C2.  On every grid of tiles (so on every fully populated one)
    [findAllMatches] returns, and the list it returns has no repetition and
    holds exactly the maximal horizontal and vertical runs of equal types of
    at least [MATCH_MIN] cells, each as the list of all its points. *)
Theorem findAllMatches_exact g :
  Tiled g →
  ∃ ms, findAllMatches g = Ret ms ∧ NoDup ms ∧ ∀ x, x ∈ ms ↔ IsMatch g x.
Proof. apply findAllMatches_spec. Qed.

Lemma findAllMatches_exact_witness :
  Tiled sampleGrid ∧
  ∃ ms, findAllMatches sampleGrid = Ret ms ∧ NoDup ms ∧
        ∀ x, x ∈ ms ↔ IsMatch sampleGrid x.
Proof.
  assert (H : Tiled sampleGrid) by (vm_compute; repeat constructor; done).
  split; [exact H|]. exact (findAllMatches_exact sampleGrid H).
Defined.

(** ** Claim about [checkEndConditions] *)

(** C8.  For every score and number of moves, the evaluation shows the win
    exactly when the score has reached 2000, whatever the moves; the loss
    exactly when the score is below 2000 and no move is left; and nothing
    otherwise.  With both thresholds reached it is the win. *)
Theorem checkEndConditions_spec st :
  (checkEndConditions st = Won ↔ (2000 ≤ score st)%Z) ∧
  (checkEndConditions st = Lost ↔ (score st < 2000)%Z ∧ (moves st ≤ 0)%Z) ∧
  (checkEndConditions st = Playing ↔ (score st < 2000)%Z ∧ (0 < moves st)%Z).
Proof.
  unfold checkEndConditions.
  destruct (decide (2000 ≤ score st)%Z); [|destruct (decide (moves st ≤ 0)%Z)];
    split_and!; (split; intros); first [done | lia].
Qed.

(** ** Claim about [randomTypeSafe] *)

Lemma rand_lt n src : 0 < n → (rand n src).1 < n.
Proof.
  intros Hn. unfold rand, random. cbn [fst].
  apply Nat.Div0.div_lt_upper_bound. nia.
Qed.

Lemma leftPair_false g r c t : leftPair g r c t = false → ¬ CompletesLeft g r c t.
Proof.
  unfold leftPair, CompletesLeft, slotAt. intros Hf (Hc & H1 & H2).
  rewrite bool_decide_eq_true_2 in Hf by done.
  destruct (g !! r) as [row|]; [|done]. simpl in *.
  rewrite H1, H2 in Hf. by rewrite !bool_decide_eq_true_2 in Hf.
Qed.

Lemma upPair_false g r c t : upPair g r c t = Ret false → ¬ CompletesUp g r c t.
Proof.
  unfold upPair, CompletesUp, slotAt, typeAt. intros Hf (Hr & H1 & H2).
  rewrite decide_True in Hf by done.
  destruct (g !! (r - 1)) as [row1|]; [|done].
  destruct (g !! (r - 2)) as [row2|]; [|done]. simpl in *.
  rewrite H1 in Hf. simpl in Hf. rewrite decide_True in Hf by done.
  rewrite H2 in Hf. simpl in Hf. by rewrite bool_decide_eq_true_2 in Hf.
Qed.

Lemma randomTypeSafeLoop_spec g r c fuel tries src t tries' src' :
  randomTypeSafeLoop fuel tries g r c src = Ret (t, tries', src') →
  t < TYPES ∧ tries ≤ tries' ∧ (tries ≤ 16 → tries' ≤ 16) ∧
  (tries' < 16 → leftPair g r c t = false ∧ upPair g r c t = Ret false).
Proof.
  revert tries src. induction fuel as [|fuel IH]; intros tries src Hrun;
    [done|].
  cbn [randomTypeSafeLoop] in Hrun. pose proof (rand_lt TYPES src) as Hlt.
  destruct (rand TYPES src) as [t0 src0]. cbn [fst] in Hlt.
  destruct (decide (15 < tries)).
  { injection Hrun as -> -> ->. split; [apply Hlt; unfold TYPES; lia|]. lia. }
  destruct (leftPair g r c t0) eqn:Hleft.
  { apply IH in Hrun as (? & ? & ? & ?). split_and!; [done|lia|lia|done]. }
  destruct (upPair g r c t0) as [[|]| |] eqn:Hup; simpl in Hrun; try done.
  { apply IH in Hrun as (? & ? & ? & ?). split_and!; [done|lia|lia|done]. }
  injection Hrun as -> -> ->. split; [apply Hlt; unfold TYPES; lia|].
  split_and!; [lia|lia|done].
Qed.

Lemma typeAt_fuel g r c : typeAt g r c ≠ OutOfFuel.
Proof.
  unfold typeAt. destruct (g !! r) as [row|]; [|done].
  by destruct (row !! c) as [[|k]|].
Qed.

Lemma upPair_fuel g r c t : upPair g r c t ≠ OutOfFuel.
Proof.
  unfold upPair. destruct (decide (2 ≤ r)); [|done].
  destruct (g !! (r - 1)); [|done]. destruct (g !! (r - 2)); [|done].
  pose proof (typeAt_fuel g (r - 1) c). pose proof (typeAt_fuel g (r - 2) c).
  destruct (typeAt g (r - 1) c) as [k1| |]; [|done..]. cbn [mbind Outcome_bind].
  destruct (decide (k1 = Some t)); [|done].
  by destruct (typeAt g (r - 2) c).
Qed.

(** The seventeen rounds granted to the loop are never used up. *)
Lemma randomTypeSafeLoop_fuel g r c fuel tries src :
  0 < fuel → 17 ≤ fuel + tries →
  randomTypeSafeLoop fuel tries g r c src ≠ OutOfFuel.
Proof.
  revert tries src. induction fuel as [|fuel IH]; intros tries src Hf Hsum;
    [lia|].
  cbn [randomTypeSafeLoop]. destruct (rand TYPES src) as [t0 src0].
  destruct (decide (15 < tries)); [done|].
  destruct (leftPair g r c t0); [apply IH; lia|].
  pose proof (upPair_fuel g r c t0).
  destruct (upPair g r c t0) as [[|]| |]; cbn [mbind Outcome_bind];
    first [done | apply IH; lia].
Qed.

Lemma randomTypeSafeTries_fuel g r c src :
  randomTypeSafeTries g r c src ≠ OutOfFuel.
Proof. apply randomTypeSafeLoop_fuel; lia. Qed.

(** C9, as the code has it.  Whenever [randomTypeSafe] returns, the type is
    in [[0, TYPES)], at most 16 draws were rejected, and unless 16 draws were
    rejected first the type differs from the common type of the two filled
    slots to the left and from that of the two filled slots above. *)
Theorem randomTypeSafe_avoids g r c src t tries src' :
  randomTypeSafeTries g r c src = Ret (t, tries, src') →
  t < TYPES ∧ tries ≤ 16 ∧
  (tries < 16 → ¬ CompletesLeft g r c t ∧ ¬ CompletesUp g r c t).
Proof.
  intros Hrun. apply randomTypeSafeLoop_spec in Hrun as (Ht & _ & H16 & Hsafe).
  split; [done|]. split; [apply H16; lia|]. intros Hlt.
  destruct (Hsafe Hlt) as [Hl Hu].
  split; [by apply leftPair_false|by apply upPair_false].
Qed.

Lemma randomTypeSafe_avoids_witness :
  randomTypeSafeTries pairGrid 0 2 cyclingSource
    = Ret (1, 0, {| draws := draws cyclingSource; pos := 1 |}) ∧
  1 < TYPES ∧ 0 ≤ 16 ∧
  (0 < 16 → ¬ CompletesLeft pairGrid 0 2 1 ∧ ¬ CompletesUp pairGrid 0 2 1).
Proof.
  assert (H : randomTypeSafeTries pairGrid 0 2 cyclingSource
              = Ret (1, 0, {| draws := draws cyclingSource; pos := 1 |}))
    by reflexivity.
  split; [exact H|].
  exact (randomTypeSafe_avoids pairGrid 0 2 cyclingSource 1 0 _ H).
Defined.

(** C9, as worded, fails when exactly 16 draws are rejected: that is not
    more than 16, yet the seventeenth draw is returned unchecked.  With the
    source stuck at 0 and two tiles of type 0 to the left, the call returns
    0 with [tries = 16], completing the run. *)
Lemma randomTypeSafe_gives_up_at_16 :
  ∃ t tries src',
    randomTypeSafeTries pairGrid 0 2 zeroSource = Ret (t, tries, src') ∧
    ¬ (16 < tries) ∧ CompletesLeft pairGrid 0 2 t.
Proof.
  exists 0, 16, {| draws := draws zeroSource; pos := 17 |}.
  split; [reflexivity|]. split; [lia|].
  unfold CompletesLeft. split; [lia|]. split; reflexivity.
Qed.

(** ** Runs and the result of [findAllMatches] *)

(** A stretch of equal kinds lies inside a maximal one. *)
Lemma MaxRun_extend kind n c len :
  0 < len → c + len ≤ n → (∀ i, c ≤ i < c + len → kind i = kind c) →
  ∃ s len', MaxRun kind n s len' ∧ len ≤ len'.
Proof.
  intros Hlen Hn Heq.
  (* leftwards *)
  assert (∃ s, s ≤ c ∧ (∀ i, s ≤ i < c + len → kind i = kind s) ∧
               (s = 0 ∨ kind (s - 1) ≠ kind s)) as (s & Hs & Hall & Hleft).
  { clear Hn. revert Heq. generalize (c + len) as e. intros e.
    induction c as [|c IH]; intros Heq.
    - exists 0. split; [done|]. split; [done|]. by left.
    - destruct (decide (kind c = kind (S c))) as [Hk|Hk].
      + destruct IH as (s & Hs & Hall & Hleft).
        { intros i Hi. destruct (decide (i = c)) as [->|]; [done|].
          rewrite Hk. apply Heq. lia. }
        exists s. split; [lia|done].
      + exists (S c). split; [done|]. split; [done|]. right.
        by replace (S c - 1) with c by lia. }
  (* rightwards *)
  assert (∃ e, c + len ≤ e ≤ n ∧ (∀ i, s ≤ i < e → kind i = kind s) ∧
               (e = n ∨ kind e ≠ kind s)) as (e & He & Hall' & Hright).
  { clear Heq Hleft. revert Hall Hn. generalize (c + len) as e. intros e.
    remember (n - e) as d eqn:Hd. revert e Hd.
    induction d as [|d IH]; intros e Hd Hall Hn.
    - exists e. split; [lia|]. split; [done|]. left. lia.
    - destruct (decide (kind e = kind s)) as [Hk|Hk].
      + destruct (IH (S e)) as (e' & He' & Hall' & Hright); [lia| |lia|].
        { intros i Hi. destruct (decide (i = e)) as [->|]; [done|].
          apply Hall. lia. }
        exists e'. split; [lia|done].
      + exists e. split; [lia|]. split; [done|]. by right. }
  exists s, (e - s). split; [|lia].
  split; [lia|]. split; [lia|]. split.
  { intros i Hi. apply Hall'. lia. }
  split; [done|]. replace (s + (e - s)) with e by lia.
  destruct Hright as [->|?]; [by left|by right].
Qed.

Lemma HasRun_IsMatch g : HasRun g ↔ ∃ x, IsMatch g x.
Proof.
  split.
  - intros (r & c & len & Hlen & [(Hr & Hc & Heq)|(Hc & Hr & Heq)]).
    + destruct (MaxRun_extend (kindAt g r) COLS c len) as (s & len' & Hmax & Hle).
      { unfold MATCH_MIN in Hlen. lia. }
      { done. }
      { intros i Hi. replace i with (c + (i - c)) by lia. apply Heq. lia. }
      exists (hLine r s len'), r, s, len'. split; [lia|]. by left.
    + destruct (MaxRun_extend (λ r, kindAt g r c) ROWS r len)
        as (s & len' & Hmax & Hle).
      { unfold MATCH_MIN in Hlen. lia. }
      { done. }
      { intros i Hi. replace i with (r + (i - r)) by lia. apply Heq. lia. }
      exists (vLine c s len'), c, s, len'. split; [lia|]. by right.
  - intros (x & i & s & len & Hlen &
            [[[Hi (_ & Hn & Heq & _)] _]|[[Hi (_ & Hn & Heq & _)] _]]).
    + exists i, s, len. split; [done|]. left. split; [done|]. split; [done|].
      intros j Hj. apply Heq. lia.
    + exists s, i, len. split; [done|]. right. split; [done|]. split; [done|].
      intros j Hj. apply Heq. lia.
Qed.

(** [findAllMatches] returns the empty list exactly on boards without run. *)
Lemma findAllMatches_nil g :
  Tiled g → findAllMatches g = Ret [] ↔ ¬ HasRun g.
Proof.
  intros Hg. destruct (findAllMatches_spec g Hg) as (ms & Hrun & _ & Hms).
  rewrite Hrun, HasRun_IsMatch. split.
  - intros [= ->] (x & Hx). apply Hms in Hx. by apply elem_of_nil in Hx.
  - intros Hno. destruct ms as [|x ms]; [done|]. exfalso. apply Hno.
    exists x. apply Hms. apply list_elem_of_here.
Qed.

(** ** swapData and attemptSwap *)

Lemma swapData_spec g a b :
  Tiled g → a.1 < ROWS → a.2 < COLS → b.1 < ROWS → b.2 < COLS →
  ∃ g1, swapData g a b = Ret g1 ∧ Tiled g1 ∧
        ∀ r c, kindAt g1 r c =
               if decide (r = b.1 ∧ c = b.2) then kindAt g a.1 a.2
               else if decide (r = a.1 ∧ c = a.2) then kindAt g b.1 b.2
               else kindAt g r c.
Proof.
  intros Hg ????. unfold swapData. rewrite !typeAt_Tiled by done. osimpl.
  destruct (setType_Tiled g a.1 a.2 (kindAt g b.1 b.2))
    as (g1 & -> & Hg1 & Hk1); [done..|]. osimpl.
  destruct (setType_Tiled g1 b.1 b.2 (kindAt g a.1 a.2))
    as (g2 & -> & Hg2 & Hk2); [done..|].
  exists g2. split; [done|]. split; [done|].
  intros r c. rewrite Hk2. destruct (decide (r = b.1 ∧ c = b.2)); [done|].
  by rewrite Hk1.
Qed.

(** Swapping the same two tiles twice restores every type. *)
Lemma swapData_twice g a b g1 :
  Tiled g → a.1 < ROWS → a.2 < COLS → b.1 < ROWS → b.2 < COLS →
  swapData g a b = Ret g1 → swapData g1 a b = Ret g.
Proof.
  intros Hg ???? Hswap.
  destruct (swapData_spec g a b) as (g1' & Hrun1 & Hg1 & Hk1); [done..|].
  rewrite Hrun1 in Hswap. injection Hswap as ->.
  destruct (swapData_spec g1 a b) as (g2 & Hrun2 & Hg2 & Hk2); [done..|].
  rewrite Hrun2. f_equal. apply Tiled_ext; [done..|].
  intros r c _ _. rewrite Hk2, !Hk1.
  repeat case_decide; destruct_and?; first [congruence | exfalso; tauto].
Qed.

Lemma inBounds_true r c : inBounds r c = true ↔ r < ROWS ∧ c < COLS.
Proof.
  unfold inBounds. rewrite andb_true_iff.
  by rewrite !bool_decide_eq_true.
Qed.

(** C1.  For every pair of adjacent cells of a grid of tiles, if swapping
    their types yields a grid without a run of [MATCH_MIN] or more, then
    [attemptSwap] returns with the state it was called in: every slot's type,
    the score and the moves counter (and the random source) are as before. *)
Theorem attemptSwap_rejected fuel r1 c1 r2 c2 st :
  Tiled (grid st) →
  inBounds r1 c1 = true → inBounds r2 c2 = true →
  isAdjacent r1 c1 r2 c2 = true →
  (∀ g1, swapData (grid st) (r1, c1) (r2, c2) = Ret g1 → ¬ HasRun g1) →
  attemptSwap fuel r1 c1 r2 c2 st = Ret (Playing, st).
Proof.
  intros Hg [Hr1 Hc1]%inBounds_true [Hr2 Hc2]%inBounds_true _ Hno.
  unfold attemptSwap. rewrite !typeAt_Tiled by done. osimpl.
  destruct (swapData_spec (grid st) (r1, c1) (r2, c2))
    as (g1 & Hswap & Hg1 & _); [done..|].
  rewrite Hswap. osimpl.
  assert (findAllMatches g1 = Ret []) as ->.
  { apply findAllMatches_nil; [done|]. by apply Hno. }
  osimpl. rewrite (swapData_twice (grid st) (r1, c1) (r2, c2) g1) by done.
  osimpl. by destruct st.
Qed.

Lemma attemptSwap_rejected_witness :
  attemptSwap 5 0 0 0 1 quietState = Ret (Playing, quietState).
Proof.
  assert (Hg : Tiled (grid quietState))
    by (vm_compute; repeat constructor; done).
  apply (attemptSwap_rejected 5 0 0 0 1 quietState Hg);
    [reflexivity..|].
  intros g1 Hswap. vm_compute in Hswap. injection Hswap as <-.
  apply findAllMatches_nil; [|vm_compute; reflexivity].
  vm_compute; repeat constructor; done.
Defined.

(** ** Keys of the removal set *)

Lemma splitComma_digits d :
  splitComma (NilEmpty.string_of_uint d) = [NilEmpty.string_of_uint d].
Proof. induction d; simpl; [done|by rewrite IHd..]. Qed.

Lemma splitComma_digits_comma d s :
  splitComma (NilEmpty.string_of_uint d +:+ "," +:+ s)
  = NilEmpty.string_of_uint d :: splitComma s.
Proof. induction d; simpl; [done|by rewrite IHd..]. Qed.

Lemma Number_toString n : Number (toString n) = Some n.
Proof.
  unfold Number, toString. rewrite NilEmpty.usu. simpl.
  by rewrite Unsigned.of_to.
Qed.

(** Splitting a key and reading its two numbers gives the point back. *)
Lemma coordOfKey_keyOf pt : coordOfKey (keyOf pt) = Ret pt.
Proof.
  destruct pt as [r c]. unfold coordOfKey, keyOf, toString at 1. simpl.
  rewrite splitComma_digits_comma. unfold toString at 1.
  rewrite splitComma_digits. simpl.
  fold (toString r). fold (toString c). by rewrite !Number_toString.
Qed.

Lemma keyOf_inj pt pt' : keyOf pt = keyOf pt' → pt = pt'.
Proof.
  intros Heq. pose proof (coordOfKey_keyOf pt) as H.
  rewrite Heq, coordOfKey_keyOf in H. by injection H.
Qed.

Lemma setAdd_spec s key :
  NoDup s →
  NoDup (setAdd s key) ∧ ∀ k, k ∈ setAdd s key ↔ k ∈ s ∨ k = key.
Proof.
  intros Hnd. unfold setAdd. destruct (decide (key ∈ s)) as [Hin|Hnin].
  - split; [done|]. intros k. split; [by left|]. by intros [?| ->].
  - split.
    + apply NoDup_app. split; [done|]. split; [|apply NoDup_singleton].
      by intros k Hk ->%list_elem_of_singleton.
    + intros k. by rewrite elem_of_app, list_elem_of_singleton.
Qed.

Lemma addRun_spec s (run : Run) :
  NoDup s →
  NoDup (foldl (λ s pt, setAdd s (keyOf pt)) s run) ∧
  ∀ k, k ∈ foldl (λ s pt, setAdd s (keyOf pt)) s run
       ↔ k ∈ s ∨ ∃ pt, pt ∈ run ∧ k = keyOf pt.
Proof.
  revert s. induction run as [|pt run IH]; intros s Hnd; simpl.
  - split; [done|]. intros k. split; [by left|].
    by intros [?|(? & ?%elem_of_nil & _)].
  - destruct (setAdd_spec s (keyOf pt) Hnd) as [Hnd' Hin'].
    destruct (IH _ Hnd') as [Hnd'' Hin'']. split; [done|].
    intros k. rewrite Hin'', Hin'. split.
    + intros [[?| ->]|(pt' & ? & ->)]; [by left|right..].
      * exists pt. split; [apply list_elem_of_here|done].
      * exists pt'. split; [by apply list_elem_of_further|done].
    + intros [?|(pt' & [->|?]%elem_of_cons & ->)]; [by left; left|by left; right|].
      right. by exists pt'.
Qed.

(** The removal set has no repetition and holds the keys of the points of
    the runs. *)
Lemma removeSetOf_spec ms :
  NoDup (removeSetOf ms) ∧
  ∀ k, k ∈ removeSetOf ms ↔ ∃ run pt, run ∈ ms ∧ pt ∈ run ∧ k = keyOf pt.
Proof.
  unfold removeSetOf.
  cut (∀ s, NoDup s →
         NoDup (foldl (λ s run, foldl (λ s pt, setAdd s (keyOf pt)) s run) s ms) ∧
         ∀ k, k ∈ foldl (λ s run, foldl (λ s pt, setAdd s (keyOf pt)) s run) s ms
              ↔ k ∈ s ∨ ∃ run pt, run ∈ ms ∧ pt ∈ run ∧ k = keyOf pt).
  { intros H. destruct (H [] (NoDup_nil_2)) as [Hnd Hin]. split; [done|].
    intros k. rewrite Hin. split; [|by right].
    by intros [?%elem_of_nil|?]. }
  induction ms as [|run ms IH]; intros s Hnd; simpl.
  - split; [done|]. intros k. split; [by left|].
    by intros [?|(? & ? & ?%elem_of_nil & _)].
  - destruct (addRun_spec s run Hnd) as [Hnd' Hin'].
    destruct (IH _ Hnd') as [Hnd'' Hin'']. split; [done|].
    intros k. rewrite Hin'', Hin'. split.
    + intros [[?|(pt & ? & ->)]|(run' & pt & ? & ? & ->)]; [by left|right..].
      * exists run, pt. split; [apply list_elem_of_here|done].
      * exists run', pt. split; [by apply list_elem_of_further|done].
    + intros [?|(run' & pt & [->|?]%elem_of_cons & ? & ->)]; [by left; left|..].
      * left. right. by exists pt.
      * right. by exists run', pt.
Qed.

(** ** Reads and writes that return stay on the board *)

Lemma typeAt_Ret_bounds g r c k :
  Tiled g → typeAt g r c = Ret k → r < ROWS ∧ c < COLS.
Proof.
  intros [Hlen Hrows]. unfold typeAt.
  destruct (g !! r) as [row|] eqn:Hrow; [|done].
  destruct (row !! c) as [s|] eqn:Hs; [|done]. intros _.
  rewrite Forall_lookup in Hrows. destruct (Hrows _ _ Hrow) as [Hl _].
  apply lookup_lt_Some in Hrow, Hs. lia.
Qed.

Lemma setType_Ret_bounds g r c k g' :
  Tiled g → setType g r c k = Ret g' → r < ROWS ∧ c < COLS.
Proof.
  intros [Hlen Hrows]. unfold setType.
  destruct (g !! r) as [row|] eqn:Hrow; [|done].
  destruct (row !! c) as [s|] eqn:Hs; [|done]. intros _.
  rewrite Forall_lookup in Hrows. destruct (Hrows _ _ Hrow) as [Hl _].
  apply lookup_lt_Some in Hrow, Hs. lia.
Qed.

Lemma kindAt_off_board g r c :
  Tiled g → ¬ (r < ROWS ∧ c < COLS) → kindAt g r c = None.
Proof.
  intros Hg Hout. unfold kindAt.
  destruct (typeAt g r c) as [k| |] eqn:Hk; [|done..].
  by apply typeAt_Ret_bounds in Hk.
Qed.

Lemma Populated_Bounded g : Populated g → Bounded g.
Proof.
  intros [Hg Hall] r c t Hk.
  destruct (decide (r < ROWS ∧ c < COLS)) as [[Hr Hc]|Hout].
  - destruct (Hall r c Hr Hc) as (t' & Ht' & ?). congruence.
  - rewrite kindAt_off_board in Hk by done. done.
Qed.

(** ** The removal loops of [resolveMatches] *)

Lemma removeLoop_count keys g total g1 total1 :
  forOf keys removeTile (g, total) = Ret (g1, total1) →
  total1 = total + length keys.
Proof.
  revert g total. induction keys as [|key keys IH]; intros g total Hrun;
    simpl in Hrun.
  - by injection Hrun as _ <-.
  - inv_bind Hrun. destruct a as [g' total']. apply IH in Hrun as ->.
    unfold removeTile in Ha. inv_bind Ha. inv_bind Ha.
    injection Ha as _ <-. simpl. lia.
Qed.

(** Whatever keys are removed, tiles only lose their type. *)
Lemma removeLoop_partial keys g total g1 total1 :
  Tiled g →
  forOf keys removeTile (g, total) = Ret (g1, total1) →
  Tiled g1 ∧ ∀ r c, kindAt g1 r c = kindAt g r c ∨ kindAt g1 r c = None.
Proof.
  intros Hg Hrun.
  apply (forOf_partial
    (λ _ (st : Grid * nat),
       Tiled st.1 ∧ ∀ r c, kindAt st.1 r c = kindAt g r c ∨ kindAt st.1 r c = None)
    keys removeTile (g, total) (g1, total1)); [done|by split; [|left]|].
  intros _ key [g2 t2] [g3 t3] _ [Hg2 Hk2] Hstep. simpl in *.
  inv_bind Hstep. inv_bind Hstep. injection Hstep as <- _.
  pose proof (setType_Ret_bounds _ _ _ _ _ Hg2 Ha0) as [Hr Hc].
  destruct (setType_Tiled g2 a.1 a.2 None) as (g3 & Hset & Hg3 & Hk3); [done..|].
  rewrite Hset in Ha0. injection Ha0 as <-. split; [done|].
  intros r c. rewrite Hk3. case_decide; [by right|apply Hk2].
Qed.

(** With the keys of points of the board, both loops return, and the second
    one empties exactly the keyed slots. *)
Lemma removeLoop_total keys g total :
  Tiled g →
  (∀ k, k ∈ keys → ∃ pt, k = keyOf pt ∧ pt.1 < ROWS ∧ pt.2 < COLS) →
  forOf keys (markRemoving g) () = Ret () ∧
  ∃ g1, forOf keys removeTile (g, total) = Ret (g1, total + length keys) ∧
        Tiled g1 ∧
        ∀ r c, kindAt g1 r c =
               if decide (keyOf (r, c) ∈ keys) then None else kindAt g r c.
Proof.
  intros Hg Hkeys. split.
  - destruct (forOf_total (λ _ (_ : unit), True) keys (markRemoving g) ())
      as ([] & Hrun & _); [done| |done].
    intros done key [] [rest ->] _. exists (). split; [|done].
    destruct (Hkeys key) as (pt & -> & Hr & Hc).
    { apply elem_of_app. right. apply list_elem_of_here. }
    unfold markRemoving. rewrite coordOfKey_keyOf. osimpl.
    by rewrite typeAt_Tiled.
  - destruct (forOf_total
      (λ done (st : Grid * nat),
         Tiled st.1 ∧ st.2 = total + length done ∧
         ∀ r c, kindAt st.1 r c =
                if decide (keyOf (r, c) ∈ done) then None else kindAt g r c)
      keys removeTile (g, total)) as ([g1 t1] & Hrun & Hg1 & Ht1 & Hk1).
    + split; [done|]. split; [simpl; lia|]. intros r c.
      by rewrite decide_False by apply not_elem_of_nil.
    + intros done key [g2 t2] [rest ->] (Hg2 & Ht2 & Hk2). simpl in *.
      destruct (Hkeys key) as (pt & -> & Hr & Hc).
      { apply elem_of_app. right. apply list_elem_of_here. }
      unfold removeTile. rewrite coordOfKey_keyOf. osimpl.
      destruct (setType_Tiled g2 pt.1 pt.2 None) as (g3 & -> & Hg3 & Hk3);
        [done..|].
      osimpl. eexists. split; [done|]. simpl. split; [done|]. split.
      { rewrite length_app. simpl. lia. }
      intros r c. rewrite Hk3, Hk2. destruct pt as [pr pc]. simpl.
      destruct (decide (r = pr ∧ c = pc)) as [[-> ->]|Hne].
      * rewrite decide_True; [done|]. apply elem_of_app. right.
        apply list_elem_of_here.
      * destruct (decide (keyOf (r, c) ∈ done)) as [Hin|Hnin].
        -- rewrite decide_True; [done|]. apply elem_of_app. by left.
        -- rewrite decide_False; [done|].
           intros [?|Heq%list_elem_of_singleton]%elem_of_app; [done|].
           apply keyOf_inj in Heq. injection Heq as -> ->. by apply Hne.
    + simpl in *. subst t1. by exists g1.
Qed.

(** ** refillTiles *)

Lemma refillStep_inv g c r st :
  c < COLS → r < ROWS → refillInv g c r st →
  ∃ st', refillStep c r st = Ret st' ∧ refillInv g c (S r) st'.
Proof.
  destruct st as [g1 src1]. intros Hc Hr [Hg1 Hinv]. cbn [fst snd] in *.
  unfold refillStep. rewrite typeAt_Tiled by done. osimpl.
  pose proof (Hinv r c Hr Hc) as Hrc.
  rewrite decide_False in Hrc by lia.
  destruct (kindAt g1 r c) as [t|] eqn:Hk.
  - rewrite decide_False by done. eexists. split; [done|].
    split; [done|]. simpl. intros r' c' Hr' Hc'.
    specialize (Hinv r' c' Hr' Hc').
    destruct (decide (r' = r ∧ c' = c)) as [[-> ->]|Hne].
    + rewrite decide_True by lia. unfold Refilled. by rewrite <- Hrc, Hk.
    + destruct (decide (c' < c ∨ c' = c ∧ r' < r)).
      * by rewrite decide_True by lia.
      * by rewrite decide_False by lia.
  - rewrite decide_True by done.
    pose proof (rand_lt TYPES src1) as Hlt.
    destruct (rand TYPES src1) as [t src2]. cbn [fst] in Hlt. cbv beta iota.
    destruct (setType_Tiled g1 r c (Some t)) as (g2 & -> & Hg2 & Hk2); [done..|].
    osimpl. eexists. split; [done|]. split; [done|]. simpl.
    intros r' c' Hr' Hc'. specialize (Hinv r' c' Hr' Hc'). rewrite Hk2.
    destruct (decide (r' = r ∧ c' = c)) as [[-> ->]|Hne].
    + rewrite decide_True by lia. unfold Refilled. rewrite <- Hrc.
      exists t. split; [apply Hlt; unfold TYPES; lia|].
      rewrite Hk2. by rewrite decide_True.
    + destruct (decide (c' < c ∨ c' = c ∧ r' < r)).
      * rewrite decide_True by lia. unfold Refilled in *. by rewrite Hk2, decide_False.
      * by rewrite decide_False by lia.
Qed.

Lemma refillTiles_spec g src :
  Tiled g →
  ∃ g' src', refillTiles g src = Ret (g', src') ∧ Tiled g' ∧
             ∀ r c, r < ROWS → c < COLS → Refilled g g' r c.
Proof.
  intros Hg.
  destruct (forUp_total (λ c, refillInv g c 0) COLS 0
              (λ c, forUp ROWS 0 (refillStep c)) (g, src))
    as ([g' src'] & Hrun & Hg' & Hinv).
  - split; [done|]. intros r c _ _. by rewrite decide_False by lia.
  - intros c st Hc Hst.
    destruct (forUp_total (refillInv g c) ROWS 0 (refillStep c) st)
      as (st' & Hrun & Hg' & Hinv); [done| |].
    + intros r st1 Hr. apply refillStep_inv; lia.
    + exists st'. split; [done|]. split; [done|].
      intros r' c' Hr' Hc'. specialize (Hinv r' c' Hr' Hc'). simpl in Hinv.
      destruct (decide (c' < c ∨ c' = c ∧ r' < ROWS)).
      * by rewrite decide_True by lia.
      * by rewrite decide_False by lia.
  - exists g', src'. split; [done|]. split; [done|].
    intros r c Hr Hc. specialize (Hinv r c Hr Hc). simpl in Hinv.
    by rewrite decide_True in Hinv by lia.
Qed.

(** ** One pass of [resolveMatches] *)

Lemma dropTiles_Bounded g g' :
  Tiled g → Bounded g → dropTiles g = Ret g' → Tiled g' ∧ Bounded g'.
Proof.
  intros Hg Hb Hrun.
  destruct (dropTiles_spec g Hg) as (g2 & Hrun' & Hg2 & Hcols).
  rewrite Hrun in Hrun'. injection Hrun' as <-. split; [done|].
  intros r c t Hk.
  destruct (decide (r < ROWS ∧ c < COLS)) as [[Hr Hc]|Hout];
    [|by rewrite kindAt_off_board in Hk].
  assert (Some t ∈ column g' c) as Hin.
  { apply list_elem_of_lookup. exists r. unfold column.
    rewrite colFrom_lookup by lia. by rewrite <- Hk. }
  rewrite (Hcols c Hc) in Hin.
  apply elem_of_app in Hin as [Hin|Hin].
  { by apply elem_of_replicate in Hin as [? _]. }
  unfold live in Hin. apply list_elem_of_filter in Hin as [_ Hin].
  apply list_elem_of_lookup in Hin as [r' Hr'].
  assert (r' < ROWS) as Hlt.
  { apply lookup_lt_Some in Hr'. by rewrite column_length in Hr'. }
  unfold column in Hr'. rewrite colFrom_lookup in Hr' by lia.
  injection Hr' as Hr'. by apply (Hb r' c).
Qed.

Lemma refillTiles_Populated g src g' src' :
  Tiled g → Bounded g → refillTiles g src = Ret (g', src') → Populated g'.
Proof.
  intros Hg Hb Hrun.
  destruct (refillTiles_spec g src Hg) as (g2 & src2 & Hrun' & Hg2 & Hfill).
  rewrite Hrun in Hrun'. injection Hrun' as <- <-. split; [done|].
  intros r c Hr Hc. specialize (Hfill r c Hr Hc). unfold Refilled in Hfill.
  destruct (kindAt g r c) as [t|] eqn:Hk.
  - exists t. split; [done|]. by apply (Hb r c).
  - destruct Hfill as (t & ? & ?). by exists t.
Qed.

(** What a pass that returns has done. *)
Lemma resolvePass_inv ms total st ms' total' st' :
  resolvePass ms total st = Ret (ms', total', st') →
  total' = total + length (removeSetOf ms) ∧
  score st' = (score st + 10 * Z.of_nat (length (removeSetOf ms)))%Z ∧
  moves st' = moves st ∧
  findAllMatches (grid st') = Ret ms' ∧
  (Tiled (grid st) → Bounded (grid st) → Populated (grid st')).
Proof.
  unfold resolvePass. intros Hrun.
  apply bind_Ret in Hrun as (_ & _ & Hrun).
  apply bind_Ret in Hrun as ([g1 total1] & Hrem & Hrun).
  apply bind_Ret in Hrun as (g2 & Hdrop & Hrun).
  apply bind_Ret in Hrun as ([g3 src3] & Hfill & Hrun).
  apply bind_Ret in Hrun as (ms3 & Hfind & Hrun).
  injection Hrun as <- <- <-. cbn [grid score moves].
  split; [by apply removeLoop_count in Hrem|].
  split; [lia|]. split; [done|]. split; [done|].
  intros Hg Hb.
  destruct (removeLoop_partial _ _ _ _ _ Hg Hrem) as [Hg1 Hk1].
  assert (Bounded g1) as Hb1.
  { intros r c t Hk. destruct (Hk1 r c) as [Heq|Heq]; [|congruence].
    apply (Hb r c). congruence. }
  destruct (dropTiles_Bounded g1 g2 Hg1 Hb1 Hdrop) as [Hg2 Hb2].
  by apply (refillTiles_Populated g2 (rng st) g3 src3).
Qed.

(** On a grid of tiles, a pass over runs of the board returns. *)
Lemma resolvePass_total ms total st :
  Tiled (grid st) → OnBoard ms →
  ∃ ms' st', resolvePass ms total st
             = Ret (ms', total + length (removeSetOf ms), st').
Proof.
  intros Hg Hon.
  destruct (removeLoop_total (removeSetOf ms) (grid st) total Hg)
    as (Hmark & g1 & Hrem & Hg1 & _).
  { intros k Hk. apply removeSetOf_spec in Hk as (run & pt & Hrun & Hpt & ->).
    exists pt. split; [done|]. by apply (Hon run). }
  destruct (dropTiles_spec g1 Hg1) as (g2 & Hdrop & Hg2 & _).
  destruct (refillTiles_spec g2 (rng st) Hg2) as (g3 & src3 & Hfill & Hg3 & _).
  destruct (findAllMatches_spec g3 Hg3) as (ms3 & Hfind & _).
  unfold resolvePass. rewrite Hmark. osimpl. rewrite Hrem. osimpl.
  rewrite Hdrop. osimpl. rewrite Hfill. osimpl. rewrite Hfind. osimpl.
  by eexists _, _.
Qed.

Lemma resolveLoop_inv fuel ms total st n st' :
  resolveLoop fuel ms total st = Ret (n, st') →
  (score st' - 10 * Z.of_nat n = score st - 10 * Z.of_nat total)%Z ∧
  moves st' = moves st ∧
  (Populated (grid st) → Populated (grid st')).
Proof.
  revert ms total st. induction fuel as [|fuel IH]; intros ms total st Hrun.
  - destruct ms; [|done]. injection Hrun as <- <-. by split_and!.
  - destruct ms as [|run ms]; [injection Hrun as <- <-; by split_and!|].
    cbn [resolveLoop] in Hrun.
    apply bind_Ret in Hrun as ([[ms1 total1] st1] & Hpass & Hrun).
    apply resolvePass_inv in Hpass as (-> & Hs & Hm & _ & Hpop).
    apply IH in Hrun as (Hs' & Hm' & Hpop'). split_and!.
    + lia.
    + congruence.
    + intros [Hg Hall]. apply Hpop'. apply Hpop; [done|].
      by apply Populated_Bounded.
Qed.

Lemma populatedb_Populated g : populatedb g = true → Populated g.
Proof.
  unfold populatedb. intros [Hlen Hrows]%andb_prop.
  apply bool_decide_eq_true in Hlen. rewrite forallb_forall in Hrows.
  assert (Hrow : ∀ r row, g !! r = Some row →
            length row = COLS ∧ ∀ c s, row !! c = Some s → validSlotb s = true).
  { intros r row Hr. apply list_elem_of_lookup_2, list_elem_of_In in Hr.
    apply Hrows in Hr as [Hl Hs]%andb_prop. apply bool_decide_eq_true in Hl.
    split; [done|]. intros c s Hc. rewrite forallb_forall in Hs.
    by apply Hs, list_elem_of_In, list_elem_of_lookup_2 with c. }
  assert (Hg : Tiled g).
  { split; [done|]. apply Forall_lookup. intros r row Hr.
    destruct (Hrow r row Hr) as [Hl Hs]. split; [done|].
    apply Forall_lookup. intros c s Hc Heq. subst s.
    by specialize (Hs c _ Hc). }
  split; [done|]. intros r c Hr Hc.
  destruct (Tiled_lookup g r c Hg Hr Hc) as (row & k & H1 & H2 & _).
  destruct (Hrow r row H1) as [_ Hs]. specialize (Hs c _ H2).
  unfold kindAt, typeAt. rewrite H1, H2. destruct k as [t|]; [|done].
  exists t. split; [done|]. by apply bool_decide_eq_true in Hs.
Qed.

(** ** Claims about [resolveMatches] *)

(** C3.  When the grid holds a type id in every slot, as it does between
    cascades, and a call of [resolveMatches] returns, then again every slot
    holds a concrete type id in [[0, TYPES)]: no null slot is left. *)
Theorem resolveMatches_populated fuel initialMatches st n st' :
  Populated (grid st) →
  resolveMatches fuel initialMatches st = Ret (n, st') →
  Populated (grid st').
Proof.
  intros Hpop Hrun. by apply resolveLoop_inv in Hrun as (_ & _ & H); apply H.
Qed.

Lemma resolveMatches_populated_witness :
  ∃ n st', resolveMatches 10 sampleMatches sampleState = Ret (n, st') ∧
           Populated (grid sampleState) ∧ Populated (grid st').
Proof.
  assert (Hpop : Populated (grid sampleState))
    by (apply populatedb_Populated; reflexivity).
  destruct (resolveMatches 10 sampleMatches sampleState) as [[n st']| |] eqn:Hrun;
    [|vm_compute in Hrun; discriminate Hrun..].
  exists n, st'. split; [reflexivity|]. split; [exact Hpop|].
  exact (resolveMatches_populated 10 sampleMatches sampleState n st' Hpop Hrun).
Defined.

Lemma runOp_score fuel op st st' :
  runOp fuel op st = Ret st' → (score st ≤ score st')%Z.
Proof.
  destruct op as [r1 c1 r2 c2|ms| | | | |]; cbn [runOp]; intros Hrun.
  - apply bind_Ret in Hrun as ([status st1] & Hswap & [= <-]).
    unfold attemptSwap in Hswap.
    apply bind_Ret in Hswap as (_ & _ & Hswap).
    apply bind_Ret in Hswap as (_ & _ & Hswap).
    apply bind_Ret in Hswap as (g1 & _ & Hswap).
    apply bind_Ret in Hswap as ([|run ms] & _ & Hswap).
    + apply bind_Ret in Hswap as (g2 & _ & [= _ <-]). done.
    + apply bind_Ret in Hswap as ([n st2] & Hres & [= _ <-]).
      apply resolveLoop_inv in Hres as (Hs & _). cbn [score] in Hs. lia.
  - apply bind_Ret in Hrun as ([n st1] & Hres & [= <-]).
    apply resolveLoop_inv in Hres as (Hs & _). simpl. lia.
  - by apply bind_Ret in Hrun as (g & _ & [= <-]).
  - by apply bind_Ret in Hrun as (res & _ & [= <-]).
  - by apply bind_Ret in Hrun as (g & _ & [= <-]).
  - unfold shuffleBoard in Hrun.
    apply bind_Ret in Hrun as ([g src] & _ & Hrun).
    by apply bind_Ret in Hrun as (g' & _ & [= <-]).
  - by injection Hrun as <-.
Qed.

(** C5.  Whenever [resolveMatches] returns, the score has grown by exactly
    10 times the removed-tile count it returns; each pass of its loop adds 10
    times the size of the removal set of that pass, which is also what it
    adds to the count; and no operation on a running session lowers the
    score. *)
Theorem score_accounting :
  (∀ fuel initialMatches st n st',
     resolveMatches fuel initialMatches st = Ret (n, st') →
     score st' = (score st + 10 * Z.of_nat n)%Z) ∧
  (∀ matches total st matches' total' st',
     resolvePass matches total st = Ret (matches', total', st') →
     total' = total + length (removeSetOf matches) ∧
     score st' = (score st + 10 * Z.of_nat (length (removeSetOf matches)))%Z) ∧
  (∀ fuel op st st', runOp fuel op st = Ret st' → (score st ≤ score st')%Z).
Proof.
  split_and!.
  - intros fuel ms st n st' Hrun.
    apply resolveLoop_inv in Hrun as (Hs & _). lia.
  - intros ms total st ms' total' st' Hrun.
    by apply resolvePass_inv in Hrun as (? & ? & _).
  - apply runOp_score.
Qed.

Lemma score_accounting_witness :
  ∃ n st' matches' total' st1,
    resolveMatches 10 sampleMatches sampleState = Ret (n, st') ∧
    score st' = (score sampleState + 10 * Z.of_nat n)%Z ∧
    resolvePass sampleMatches 0 sampleState = Ret (matches', total', st1) ∧
    total' = 0 + length (removeSetOf sampleMatches) ∧
    score st1
      = (score sampleState + 10 * Z.of_nat (length (removeSetOf sampleMatches)))%Z ∧
    runOp 10 (ResolveMatches sampleMatches) sampleState = Ret st' ∧
    (score sampleState ≤ score st')%Z.
Proof.
  destruct score_accounting as (Hall & Hpass & Hop).
  destruct (resolveMatches 10 sampleMatches sampleState) as [[n st']| |] eqn:Hrun;
    [|vm_compute in Hrun; discriminate Hrun..].
  destruct (resolvePass sampleMatches 0 sampleState) as [[[ms' total'] st1]| |]
    eqn:Hrun1; [|vm_compute in Hrun1; discriminate Hrun1..].
  assert (Hrun2 : runOp 10 (ResolveMatches sampleMatches) sampleState = Ret st').
  { cbn [runOp]. rewrite Hrun. reflexivity. }
  exists n, st', ms', total', st1.
  split; [reflexivity|]. split; [exact (Hall _ _ _ _ _ Hrun)|].
  split; [reflexivity|].
  split; [exact (proj1 (Hpass _ _ _ _ _ _ Hrun1))|].
  split; [exact (proj2 (Hpass _ _ _ _ _ _ Hrun1))|].
  split; [exact Hrun2|]. exact (Hop _ _ _ _ Hrun2).
Defined.

Lemma filter_ne_length {A} `{EqDecision A} (l : list A) (p : A) :
  NoDup l → p ∈ l → S (length (filter (λ q, q ≠ p) l)) = length l.
Proof.
  induction l as [|x l IH]; intros Hnd Hin; [by apply elem_of_nil in Hin|].
  apply NoDup_cons in Hnd as [Hx Hnd].
  destruct (decide (x = p)) as [->|Hne].
  - rewrite filter_cons_False by (by intros ?). simpl. f_equal.
    f_equal. clear IH Hin Hnd. induction l as [|y l IH]; [done|].
    apply not_elem_of_cons in Hx as [? ?].
    rewrite filter_cons_True by done. by rewrite IH.
  - rewrite filter_cons_True by done. simpl. f_equal. apply IH; [done|].
    apply elem_of_cons in Hin as [->|?]; done.
Qed.

(** C6.  When the match list is two runs of three distinct points of the
    board that share exactly one point, the removal set of the pass has
    exactly 5 keys, and the pass returns having removed 5 tiles and added
    exactly 50 to the score. *)
Theorem overlap_removes_five run1 run2 total st :
  Tiled (grid st) → OnBoard [run1; run2] →
  NoDup run1 → NoDup run2 → length run1 = 3 → length run2 = 3 →
  (∃ p, p ∈ run1 ∧ p ∈ run2 ∧ ∀ q, q ∈ run1 → q ∈ run2 → q = p) →
  length (removeSetOf [run1; run2]) = 5 ∧
  ∃ matches' st',
    resolvePass [run1; run2] total st = Ret (matches', total + 5, st') ∧
    score st' = (score st + 50)%Z.
Proof.
  intros Hg Hon Hnd1 Hnd2 Hl1 Hl2 (p & Hp1 & Hp2 & Honly).
  assert (Hlen : length (removeSetOf [run1; run2]) = 5).
  { destruct (removeSetOf_spec [run1; run2]) as [Hnd Hin].
    assert (removeSetOf [run1; run2]
              ≡ₚ keyOf <$> (run1 ++ filter (λ q, q ≠ p) run2)) as Hperm.
    { apply NoDup_Permutation; [done|..].
      - apply NoDup_fmap_2; [intros ??; apply keyOf_inj|].
        apply NoDup_app. split; [done|]. split; [|by apply NoDup_filter].
        intros q Hq1 [Hne Hq2]%list_elem_of_filter. by apply Hne, Honly.
      - intros k. rewrite Hin, list_elem_of_fmap. split.
        + intros (run & pt & Hrun & Hpt & ->). exists pt. split; [done|].
          apply elem_of_app.
          apply elem_of_cons in Hrun as [->|Hrun]; [by left|].
          apply list_elem_of_singleton in Hrun as ->.
          destruct (decide (pt = p)) as [->|Hne]; [by left|].
          right. by apply list_elem_of_filter.
        + intros (pt & -> & [Hpt|[_ Hpt]%list_elem_of_filter]%elem_of_app).
          * exists run1, pt. split; [apply list_elem_of_here|done].
          * exists run2, pt. split; [|done].
            apply list_elem_of_further, list_elem_of_here. }
    rewrite Hperm, length_fmap, length_app, Hl1.
    pose proof (filter_ne_length run2 p Hnd2 Hp2). lia. }
  split; [done|].
  destruct (resolvePass_total [run1; run2] total st Hg Hon) as (ms' & st' & Hrun).
  rewrite Hlen in Hrun. exists ms', st'. split; [done|].
  apply resolvePass_inv in Hrun as (_ & Hs & _). rewrite Hlen in Hs. lia.
Qed.

Lemma overlap_removes_five_witness :
  findAllMatches cornerGrid = Ret [hLine 0 0 3; vLine 0 0 3] ∧
  length (removeSetOf [hLine 0 0 3; vLine 0 0 3]) = 5 ∧
  ∃ matches' st',
    resolvePass [hLine 0 0 3; vLine 0 0 3] 0 cornerState
      = Ret (matches', 0 + 5, st') ∧
    score st' = (score cornerState + 50)%Z.
Proof.
  split; [reflexivity|].
  apply (overlap_removes_five (hLine 0 0 3) (vLine 0 0 3) 0 cornerState).
  - vm_compute; repeat constructor; done.
  - intros run pt Hrun Hpt. unfold ROWS, COLS.
    apply elem_of_cons in Hrun as [->|Hrun];
      [|apply list_elem_of_singleton in Hrun as ->];
      vm_compute in Hpt;
      repeat (apply elem_of_cons in Hpt as [-> | Hpt]; [simpl; lia|]);
      by apply elem_of_nil in Hpt.
  - compute_done.
  - compute_done.
  - reflexivity.
  - reflexivity.
  - exists (0, 0). split; [compute_done|]. split; [compute_done|].
    intros q H1 H2. apply list_elem_of_In in H1, H2. vm_compute in H1, H2.
    intuition congruence.
Defined.

(** ** Termination of [removeInitialMatches] *)

(** [lia] with quotients and remainders by constants. *)
Ltac dlia := zify; Z.div_mod_to_equations; lia.

Lemma nextKind_ne x : nextKind x ≠ x.
Proof.
  unfold nextKind, TYPES. destruct x as [t|]; [|done]. cbv [from_option id].
  intros Heq. assert ((t + 1) mod 6 = t) by congruence. dlia.
Qed.

Lemma nextKind_twice_ne x : nextKind (nextKind x) ≠ x.
Proof.
  unfold nextKind, TYPES. destruct x as [t|]; [|done]. cbv [from_option id].
  intros Heq. assert (((t + 1) mod 6 + 1) mod 6 = t) by congruence. dlia.
Qed.

(** A slot changed once as the middle of a run has a smaller budget. *)
Lemma budget_bump x l u :
  pickable x l u = true → budget (nextKind x) l u < budget x l u.
Proof.
  pose proof (nextKind_ne x). pose proof (nextKind_ne (nextKind x)).
  pose proof (nextKind_twice_ne x).
  unfold budget, pickable, sameAs. intros Hp. rewrite Hp.
  repeat case_bool_decide; simpl in *; first [lia | congruence].
Qed.

(** A slot changed twice, as the middle of a horizontal and of a vertical
    run, has no budget left. *)
Lemma budget_bump_twice x :
  budget (nextKind (nextKind x)) (Some x) (Some x) < budget x (Some x) (Some x).
Proof.
  pose proof (nextKind_ne x). pose proof (nextKind_twice_ne x).
  unfold budget, pickable, sameAs.
  repeat case_bool_decide; simpl in *; first [lia | congruence].
Qed.

Lemma budget_le x l u : budget x l u ≤ 2.
Proof. unfold budget. repeat case_match; lia. Qed.

Lemma weigh_lt bs : Forall (λ b, b ≤ 2) bs → weigh bs < 3 ^ length bs.
Proof.
  induction 1 as [|b bs Hb _ IH]; simpl; [lia|].
  assert (b * 3 ^ length bs ≤ 2 * 3 ^ length bs) by (apply Nat.mul_le_mono_r; lia).
  lia.
Qed.

(** Lexicographic descent: equal digits up to position [k], a smaller digit
    at [k]. *)
Lemma weigh_lex bs bs' k b b' :
  length bs' = length bs → Forall (λ b, b ≤ 2) bs' →
  (∀ j, j < k → bs' !! j = bs !! j) →
  bs !! k = Some b → bs' !! k = Some b' → b' < b →
  weigh bs' < weigh bs.
Proof.
  revert bs' k. induction bs as [|a bs IH]; intros bs' k Hlen Hle Hpre Hb Hb' Hlt;
    [done|].
  destruct bs' as [|a' bs']; [done|]. simpl in Hlen.
  apply Forall_cons in Hle as [Ha' Hle].
  destruct k as [|k]; simpl in *.
  - injection Hb as ->. injection Hb' as ->.
    pose proof (weigh_lt bs' Hle) as Hw.
    replace (length bs') with (length bs) in * by lia.
    assert ((b' + 1) * 3 ^ length bs ≤ b * 3 ^ length bs)
      by (apply Nat.mul_le_mono_r; lia).
    lia.
  - pose proof (Hpre 0 ltac:(lia)) as Hhd. injection Hhd as ->.
    replace (length bs') with (length bs) by lia.
    apply Nat.add_lt_mono_l. apply (IH bs' k); [lia|done| |done..].
    intros j Hj. apply (Hpre (S j)). lia.
Qed.

Lemma countOf_app p l1 l2 : countOf p (l1 ++ l2) = countOf p l1 + countOf p l2.
Proof. unfold countOf. by rewrite filter_app, length_app. Qed.

Lemma countOf_NoDup p l :
  NoDup l → countOf p l = if decide (p ∈ l) then 1 else 0.
Proof.
  unfold countOf. induction 1 as [|q l Hq Hnd IH]; [done|].
  destruct (decide (q = p)) as [->|Hne].
  - rewrite filter_cons_True by done. rewrite decide_True by apply list_elem_of_here.
    simpl. rewrite IH. by rewrite decide_False.
  - rewrite filter_cons_False by done. rewrite IH.
    destruct (decide (p ∈ l)).
    + by rewrite decide_True by (by apply list_elem_of_further).
    + rewrite decide_False; [done|]. by intros [->|?]%elem_of_cons.
Qed.

Lemma middle_hLine r s len :
  0 < len → middle (hLine r s len) = Some (r, s + len / 2).
Proof.
  intros Hlen. unfold middle, hLine.
  rewrite length_fmap, length_seq, list_lookup_fmap.
  rewrite lookup_seq_lt; [done|]. apply Nat.div_lt; lia.
Qed.

Lemma middle_vLine c s len :
  0 < len → middle (vLine c s len) = Some (s + len / 2, c).
Proof.
  intros Hlen. unfold middle, vLine.
  rewrite length_fmap, length_seq, list_lookup_fmap.
  rewrite lookup_seq_lt; [done|]. apply Nat.div_lt; lia.
Qed.

(** The middle of a run of three or more has a neighbour on both sides. *)
Lemma middle_inside len : 3 ≤ len → 1 ≤ len / 2 ∧ len / 2 + 1 < len.
Proof. intros. dlia. Qed.

(** A sweep advances every slot once for each run it is the middle of. *)
Lemma sweep_spec g ms :
  Tiled g →
  (∀ run, run ∈ ms → ∃ p, middle run = Some p ∧ p.1 < ROWS ∧ p.2 < COLS) →
  ∃ g', forOf ms bumpRun g = Ret g' ∧ Tiled g' ∧
        ∀ r c, kindAt g' r c
               = Nat.iter (countOf (r, c) (picksOf ms)) nextKind (kindAt g r c).
Proof.
  intros Hg Hms.
  apply (forOf_total
    (λ done g1, Tiled g1 ∧
       ∀ r c, kindAt g1 r c
              = Nat.iter (countOf (r, c) (picksOf done)) nextKind (kindAt g r c))).
  { by split. }
  intros done run g1 [rest ->] [Hg1 Hk1].
  destruct (Hms run) as (p & Hmid & Hr & Hc).
  { apply elem_of_app. right. apply list_elem_of_here. }
  unfold bumpRun. unfold middle in Hmid. rewrite Hmid.
  rewrite typeAt_Tiled by done. osimpl.
  destruct (setType_Tiled g1 p.1 p.2 (nextKind (kindAt g1 p.1 p.2)))
    as (g2 & -> & Hg2 & Hk2); [done..|].
  exists g2. split; [done|]. split; [done|]. intros r c.
  unfold picksOf. rewrite omap_app, countOf_app. simpl.
  unfold middle at 2. rewrite Hmid. simpl. rewrite Nat.add_comm, Hk2.
  unfold countOf at 1. destruct p as [pr pc]. simpl.
  destruct (decide (r = pr ∧ c = pc)) as [[-> ->]|Hne].
  - rewrite filter_cons_True by done. simpl. by rewrite Hk1.
  - rewrite filter_cons_False; [by rewrite Hk1|].
    intros [= -> ->]. by apply Hne.
Qed.

Lemma HMatch_middle g x :
  HMatch g x →
  ∃ r c, middle x = Some (r, c) ∧ r < ROWS ∧ 1 ≤ c ∧ c < COLS ∧
         kindAt g r (c - 1) = kindAt g r c.
Proof.
  intros (r & s & len & Hlen & [Hr (_ & Hn & Heq & _)] & ->).
  unfold MATCH_MIN in Hlen. destruct (middle_inside len Hlen) as [H1 H2].
  exists r, (s + len / 2). rewrite middle_hLine by lia.
  split; [done|]. split; [done|]. split; [lia|]. split; [lia|].
  rewrite (Heq (s + len / 2 - 1)), (Heq (s + len / 2)); [done|lia..].
Qed.

Lemma VMatch_middle g x :
  VMatch g x →
  ∃ r c, middle x = Some (r, c) ∧ c < COLS ∧ 1 ≤ r ∧ r < ROWS ∧
         kindAt g (r - 1) c = kindAt g r c.
Proof.
  intros (c & s & len & Hlen & [Hc (_ & Hn & Heq & _)] & ->).
  unfold MATCH_MIN in Hlen. destruct (middle_inside len Hlen) as [H1 H2].
  exists (s + len / 2), c. rewrite middle_vLine by lia.
  split; [done|]. split; [done|]. split; [lia|]. split; [lia|].
  rewrite (Heq (s + len / 2 - 1)), (Heq (s + len / 2)); [done|lia..].
Qed.

(** Two maximal runs through one and the same cell coincide. *)
Lemma MaxRun_through kind n s len s' len' i :
  MaxRun kind n s len → MaxRun kind n s' len' →
  s ≤ i < s + len → s' ≤ i < s' + len' → s' = s ∧ len' = len.
Proof.
  intros Hm Hm' Hi Hi'. destruct (decide (s' + len' ≤ s + len)).
  - apply (MaxRun_overlap kind n s len s' len'); [done..|lia|done].
  - destruct (MaxRun_overlap kind n s' len' s len) as [-> ->]; [done..|lia|lia|done].
Qed.

Lemma HMatch_middle_inj g x x' p :
  HMatch g x → HMatch g x' → middle x = Some p → middle x' = Some p → x = x'.
Proof.
  intros (r & s & len & Hlen & [Hr Hmax] & ->)
         (r' & s' & len' & Hlen' & [Hr' Hmax'] & ->).
  unfold MATCH_MIN in *.
  destruct (middle_inside len Hlen), (middle_inside len' Hlen').
  rewrite !middle_hLine by lia. intros Hp Hp'.
  assert (r' = r ∧ s' + len' / 2 = s + len / 2) as [-> Hc]
    by (split; congruence).
  destruct (MaxRun_through _ _ _ _ _ _ (s + len / 2) Hmax Hmax') as [-> ->];
    [lia..|done].
Qed.

Lemma VMatch_middle_inj g x x' p :
  VMatch g x → VMatch g x' → middle x = Some p → middle x' = Some p → x = x'.
Proof.
  intros (c & s & len & Hlen & [Hc Hmax] & ->)
         (c' & s' & len' & Hlen' & [Hc' Hmax'] & ->).
  unfold MATCH_MIN in *.
  destruct (middle_inside len Hlen), (middle_inside len' Hlen').
  rewrite !middle_vLine by lia. intros Hp Hp'.
  assert (c' = c ∧ s' + len' / 2 = s + len / 2) as [-> Hr]
    by (split; congruence).
  destruct (MaxRun_through _ _ _ _ _ _ (s + len / 2) Hmax Hmax') as [-> ->];
    [lia..|done].
Qed.

Lemma NoDup_picksOf (ms : list Run) :
  NoDup ms →
  (∀ x x' p, x ∈ ms → x' ∈ ms → middle x = Some p → middle x' = Some p → x = x') →
  NoDup (picksOf ms).
Proof.
  unfold picksOf. induction 1 as [|x ms Hx Hnd IH]; intros Hinj;
    [apply NoDup_nil_2|].
  simpl. destruct (middle x) as [p|] eqn:Hp; simpl.
  - apply NoDup_cons. split.
    + intros (x' & Hx' & Hp')%list_elem_of_omap.
      assert (x = x') as <-; [|done].
      apply (Hinj x x' p); [apply list_elem_of_here|by apply list_elem_of_further|done..].
    + apply IH. intros y y' q Hy Hy'.
      apply Hinj; by apply list_elem_of_further.
  - apply IH. intros y y' q Hy Hy'. apply Hinj; by apply list_elem_of_further.
Qed.

Lemma budgets_length g : length (budgets g) = ROWS * COLS.
Proof. unfold budgets. by rewrite length_fmap, length_seq. Qed.

Lemma budgets_lookup g k :
  k < ROWS * COLS →
  budgets g !! k = Some (budgetAt g (k / COLS) (k mod COLS)).
Proof.
  intros Hk. unfold budgets. by rewrite list_lookup_fmap, lookup_seq_lt.
Qed.

Lemma budgets_le g : Forall (λ b, b ≤ 2) (budgets g).
Proof.
  unfold budgets. apply Forall_fmap, Forall_forall. intros k _.
  apply budget_le.
Qed.

(** The budgets of the slots before the first changed one stay, and the
    budget of that one goes down. *)
Lemma sweepsLeft_descent g g' (PH PV : list Coord) :
  (∀ r c, (r, c) ∈ PH →
          r < ROWS ∧ 1 ≤ c ∧ c < COLS ∧ kindAt g r (c - 1) = kindAt g r c) →
  (∀ r c, (r, c) ∈ PV →
          c < COLS ∧ 1 ≤ r ∧ r < ROWS ∧ kindAt g (r - 1) c = kindAt g r c) →
  (∀ r c, kindAt g' r c
          = (if decide ((r, c) ∈ PV) then nextKind else id)
              ((if decide ((r, c) ∈ PH) then nextKind else id) (kindAt g r c))) →
  (∃ p, p ∈ PH ∨ p ∈ PV) →
  sweepsLeft g' < sweepsLeft g.
Proof.
  intros HPH HPV Hk' (p & Hp).
  pose (changed := λ k : nat,
          (k / COLS, k mod COLS) ∈ PH ∨ (k / COLS, k mod COLS) ∈ PV).
  assert (Hcell : ∀ r c, c < COLS → (r * COLS + c) / COLS = r ∧
                                    (r * COLS + c) mod COLS = c).
  { intros r c Hc. unfold COLS in *. dlia. }
  (* the first changed slot *)
  assert (∃ k0, k0 < ROWS * COLS ∧ changed k0 ∧ ∀ j, j < k0 → ¬ changed j)
    as (k0 & Hk0 & Hch & Hmin).
  { destruct p as [r c].
    assert (r < ROWS ∧ c < COLS) as [Hr Hc].
    { destruct Hp as [Hp|Hp]; [apply HPH in Hp|apply HPV in Hp]; lia. }
    destruct (list_find_elem_of changed (seq 0 (ROWS * COLS)) (r * COLS + c))
      as [[i k0] Hfind].
    { apply elem_of_seq. unfold ROWS, COLS in *. lia. }
    { unfold changed. by destruct (Hcell r c Hc) as [-> ->]. }
    apply list_find_Some in Hfind as (Hi & Hch & Hmin).
    apply lookup_seq in Hi as [-> Hi]. exists i. split; [done|]. split; [done|].
    intros j Hj. apply (Hmin j j); [|done]. apply lookup_seq. lia. }
  (* slots before it are untouched *)
  assert (Hsame : ∀ r c, c < COLS → r * COLS + c < k0 →
                         kindAt g' r c = kindAt g r c).
  { intros r c Hc Hlt. specialize (Hmin _ Hlt). unfold changed in Hmin.
    destruct (Hcell r c Hc) as [Hq Hm]. rewrite Hq, Hm in Hmin.
    rewrite Hk'. rewrite !decide_False; [done|tauto..]. }
  assert (Hleft : ∀ r c, c < COLS → r * COLS + c ≤ k0 →
                         leftOf g' r c = leftOf g r c).
  { intros r c Hc Hle. unfold leftOf. destruct (decide (c = 0)); [done|].
    f_equal. apply Hsame; lia. }
  assert (Hup : ∀ r c, c < COLS → r * COLS + c ≤ k0 →
                       upOf g' r c = upOf g r c).
  { intros r c Hc Hle. unfold upOf. destruct (decide (r = 0)); [done|].
    f_equal. apply Hsame; [done|]. unfold COLS in *. nia. }
  assert (Hdm : ∀ k, k mod COLS < COLS ∧ k / COLS * COLS + k mod COLS = k).
  { intros k. unfold COLS. dlia. }
  apply (weigh_lex (budgets g) (budgets g') k0
           (budgetAt g (k0 / COLS) (k0 mod COLS))
           (budgetAt g' (k0 / COLS) (k0 mod COLS))).
  - by rewrite !budgets_length.
  - apply budgets_le.
  - intros j Hj. rewrite !budgets_lookup by lia. f_equal.
    destruct (Hdm j) as [Hc Hj']. unfold budgetAt.
    rewrite Hsame, Hleft, Hup by lia. done.
  - by apply budgets_lookup.
  - by apply budgets_lookup.
  - destruct (Hdm k0) as [Hc Hk0']. unfold budgetAt.
    rewrite Hleft, Hup by lia. rewrite Hk'. unfold changed in Hch.
    set (r := k0 / COLS) in *. set (c := k0 mod COLS) in *.
    destruct (decide ((r, c) ∈ PH)) as [HinH|HninH];
      destruct (decide ((r, c) ∈ PV)) as [HinV|HninV]; [..|tauto].
    + destruct (HPH r c HinH) as (_ & Hc1 & _ & HL).
      destruct (HPV r c HinV) as (_ & Hr1 & _ & HU).
      unfold leftOf, upOf. rewrite !decide_False by lia. rewrite HL, HU.
      apply budget_bump_twice.
    + destruct (HPH r c HinH) as (_ & Hc1 & _ & HL).
      apply budget_bump. unfold pickable, sameAs, leftOf.
      rewrite decide_False by lia. rewrite HL.
      by rewrite bool_decide_eq_true_2.
    + destruct (HPV r c HinV) as (_ & Hr1 & _ & HU).
      apply budget_bump. unfold pickable, sameAs, upOf.
      rewrite decide_False by lia. rewrite HU.
      rewrite (bool_decide_eq_true_2 (Some (kindAt g r c) = Some (kindAt g r c)))
        by done.
      apply orb_true_r.
Qed.

Lemma IsMatch_middle g x :
  IsMatch g x → ∃ p, middle x = Some p ∧ p.1 < ROWS ∧ p.2 < COLS.
Proof.
  intros [Hx|Hx]%IsMatch_cases.
  - destruct (HMatch_middle g x Hx) as (r & c & ? & ? & ? & ? & _).
    by exists (r, c).
  - destruct (VMatch_middle g x Hx) as (r & c & ? & ? & ? & ? & _).
    by exists (r, c).
Qed.

(** A sweep over the matches of a grid returns, and advances every slot
    once for each match it is the middle of. *)
Lemma sweep_matches g ms :
  Tiled g → findAllMatches g = Ret ms →
  length (picksOf ms) = length ms ∧
  ∃ g', forOf ms bumpRun g = Ret g' ∧ Tiled g' ∧
        ∀ r c, kindAt g' r c
               = Nat.iter (countOf (r, c) (picksOf ms)) nextKind (kindAt g r c).
Proof.
  intros Hg Hrun.
  destruct (findAllMatches_spec g Hg) as (ms' & Hrun' & _ & Hms).
  rewrite Hrun in Hrun'. injection Hrun' as <-.
  assert (Hmid : ∀ run, run ∈ ms →
            ∃ p, middle run = Some p ∧ p.1 < ROWS ∧ p.2 < COLS).
  { intros run Hin. by apply (IsMatch_middle g), Hms. }
  split; [|by apply sweep_spec].
  clear Hrun Hms. unfold picksOf. induction ms as [|x ms IH]; [done|].
  destruct (Hmid x) as (p & Hp & _); [apply list_elem_of_here|].
  simpl. rewrite Hp. simpl. f_equal. apply IH.
  intros run Hin. by apply Hmid, list_elem_of_further.
Qed.

(** A sweep over a non-empty list of matches lowers the bound. *)
Lemma sweep_decreases g ms :
  Tiled g → findAllMatches g = Ret ms → ms ≠ [] →
  ∃ g', forOf ms bumpRun g = Ret g' ∧ Tiled g' ∧ sweepsLeft g' < sweepsLeft g.
Proof.
  intros Hg Hrun Hne.
  destruct (sweep_matches g ms Hg Hrun) as (_ & g' & Hsweep & Hg' & Hk).
  exists g'. split; [done|]. split; [done|].
  destruct (findAllMatches_split g Hg)
    as (emH & emV & Hrun' & HndH & HndV & HemH & HemV).
  rewrite Hrun in Hrun'. injection Hrun' as ->.
  assert (NoDup (picksOf emH)) as HndPH.
  { apply NoDup_picksOf; [done|]. intros x x' p Hx Hx'.
    apply (HMatch_middle_inj g); by apply HemH. }
  assert (NoDup (picksOf emV)) as HndPV.
  { apply NoDup_picksOf; [done|]. intros x x' p Hx Hx'.
    apply (VMatch_middle_inj g); by apply HemV. }
  apply (sweepsLeft_descent g g' (picksOf emH) (picksOf emV)).
  - intros r c (x & Hx & Hmid)%list_elem_of_omap.
    destruct (HMatch_middle g x) as (r' & c' & Hmid' & ? & ? & ? & ?);
      [by apply HemH|].
    rewrite Hmid in Hmid'. by injection Hmid' as <- <-.
  - intros r c (x & Hx & Hmid)%list_elem_of_omap.
    destruct (VMatch_middle g x) as (r' & c' & Hmid' & ? & ? & ? & ?);
      [by apply HemV|].
    rewrite Hmid in Hmid'. by injection Hmid' as <- <-.
  - intros r c. rewrite Hk. unfold picksOf at 1.
    rewrite omap_app, countOf_app, Nat.add_comm, Nat.iter_add.
    fold (picksOf emH). fold (picksOf emV).
    rewrite !countOf_NoDup by done.
    by destruct (decide ((r, c) ∈ picksOf emV)),
                (decide ((r, c) ∈ picksOf emH)).
  - destruct emH as [|x emH].
    + destruct emV as [|x emV]; [done|].
      destruct (VMatch_middle g x) as (r & c & Hmid & _);
        [apply HemV, list_elem_of_here|].
      exists (r, c). right. apply list_elem_of_omap. exists x.
      split; [apply list_elem_of_here|done].
    + destruct (HMatch_middle g x) as (r & c & Hmid & _);
        [apply HemH, list_elem_of_here|].
      exists (r, c). left. apply list_elem_of_omap. exists x.
      split; [apply list_elem_of_here|done].
Qed.

Lemma removeInitialLoop_mono fuel fuel' ms g g' :
  removeInitialLoop fuel ms g = Ret g' → fuel ≤ fuel' →
  removeInitialLoop fuel' ms g = Ret g'.
Proof.
  revert fuel' ms g. induction fuel as [|fuel IH]; intros fuel' ms g Hrun Hle.
  - destruct ms; [|done]. by destruct fuel'.
  - destruct ms as [|run ms]; [by destruct fuel'|].
    destruct fuel' as [|fuel']; [lia|]. cbn [removeInitialLoop] in *.
    apply bind_Ret in Hrun as (g1 & -> & Hrun). osimpl.
    apply bind_Ret in Hrun as (ms1 & -> & Hrun). osimpl.
    apply IH; [done|lia].
Qed.

(** From every grid of tiles the sweeps come to an end, on a grid without
    matches. *)
Lemma removeInitialMatches_total g :
  Tiled g →
  ∃ fuel g', removeInitialMatches fuel g = Ret g' ∧ Tiled g' ∧
             findAllMatches g' = Ret [].
Proof.
  remember (sweepsLeft g) as n eqn:Hn. revert g Hn.
  induction n as [n IH] using lt_wf_ind. intros g -> Hg.
  destruct (findAllMatches_spec g Hg) as (ms & Hrun & _).
  destruct ms as [|run ms].
  - exists 0, g. unfold removeInitialMatches. rewrite Hrun. by osimpl.
  - destruct (sweep_decreases g (run :: ms) Hg Hrun) as (g1 & Hsweep & Hg1 & Hlt);
      [done|].
    destruct (IH _ Hlt g1 eq_refl Hg1) as (fuel & g' & Hrest & Hg' & Hfree).
    exists (S fuel), g'. split; [|done].
    unfold removeInitialMatches in *. rewrite Hrun. osimpl.
    cbn [removeInitialLoop]. rewrite Hsweep. osimpl. exact Hrest.
Qed.

Lemma shuffleLoop_Tiled g src :
  Tiled g →
  ∃ g' src', forUp ROWS 0 (λ r, forUp COLS 0 (shuffleStep r)) (g, src)
             = Ret (g', src') ∧ Tiled g'.
Proof.
  intros Hg.
  destruct (forUp_total (λ _ (st : Grid * Rng), Tiled st.1) ROWS 0
              (λ r, forUp COLS 0 (shuffleStep r)) (g, src))
    as ([g' src'] & Hrun & Hg'); [done| |by exists g', src'].
  intros r st Hr Hst.
  apply (forUp_total (λ _ (st : Grid * Rng), Tiled st.1)); [done|].
  intros c [g1 src1] Hc Hg1. cbn [fst] in Hg1. unfold shuffleStep.
  destruct (rand TYPES src1) as [t src2].
  destruct (setType_Tiled g1 r c (Some t)) as (g2 & -> & Hg2 & _); [done|lia..|].
  osimpl. by eexists.
Qed.

(** ** Claim about [removeInitialMatches] *)

(** C7.  For every grid of tiles, whatever its types: [removeInitialMatches]
    returns once it is given enough steps, and on the grid it returns
    [findAllMatches] finds nothing; a sweep over the matches of the grid
    picks one point per run, its middle [run[floor(length/2)]], and advances
    the type there to [(type + 1) mod TYPES], once for every run the point is
    the middle of; and [shuffleBoard], for every random source, returns with
    a grid on which [findAllMatches] finds nothing. *)
Theorem removeInitialMatches_terminates st :
  Tiled (grid st) →
  (∃ fuel0 g',
     (∀ fuel, fuel0 ≤ fuel → removeInitialMatches fuel (grid st) = Ret g') ∧
     findAllMatches g' = Ret []) ∧
  (∀ ms, findAllMatches (grid st) = Ret ms →
     length (picksOf ms) = length ms ∧
     ∃ g1, forOf ms bumpRun (grid st) = Ret g1 ∧
           ∀ r c, kindAt g1 r c
                  = Nat.iter (countOf (r, c) (picksOf ms)) nextKind
                      (kindAt (grid st) r c)) ∧
  (∃ fuel st', shuffleBoard fuel st = Ret st' ∧
               findAllMatches (grid st') = Ret []).
Proof.
  intros Hg. split_and!.
  - destruct (removeInitialMatches_total (grid st) Hg)
      as (fuel0 & g' & Hrun & _ & Hfree).
    exists fuel0, g'. split; [|done]. intros fuel Hle.
    unfold removeInitialMatches in *.
    apply bind_Ret in Hrun as (ms & -> & Hrun). osimpl.
    by apply (removeInitialLoop_mono fuel0).
  - intros ms Hms. destruct (sweep_matches (grid st) ms Hg Hms)
      as (Hlen & g1 & Hsweep & _ & Hk).
    split; [done|]. by exists g1.
  - destruct (shuffleLoop_Tiled (grid st) (rng st) Hg) as (g1 & src1 & Hloop & Hg1).
    destruct (removeInitialMatches_total g1 Hg1) as (fuel & g' & Hrun & _ & Hfree).
    exists fuel. eexists. unfold shuffleBoard. rewrite Hloop. osimpl.
    rewrite Hrun. osimpl. split; [done|]. done.
Qed.

Lemma removeInitialMatches_terminates_witness :
  Tiled (grid sampleState) ∧
  (∃ fuel0 g',
     (∀ fuel, fuel0 ≤ fuel →
              removeInitialMatches fuel (grid sampleState) = Ret g') ∧
     findAllMatches g' = Ret []) ∧
  (∀ ms, findAllMatches (grid sampleState) = Ret ms →
     length (picksOf ms) = length ms ∧
     ∃ g1, forOf ms bumpRun (grid sampleState) = Ret g1 ∧
           ∀ r c, kindAt g1 r c
                  = Nat.iter (countOf (r, c) (picksOf ms)) nextKind
                      (kindAt (grid sampleState) r c)) ∧
  (∃ fuel st', shuffleBoard fuel sampleState = Ret st' ∧
               findAllMatches (grid st') = Ret []).
Proof.
  assert (H : Tiled (grid sampleState))
    by (vm_compute; repeat constructor; done).
  split; [exact H|]. exact (removeInitialMatches_terminates sampleState H).
Defined.

(** ** [init] returns a populated grid *)

Lemma slotAt_typeAt g r c k :
  slotAt g r c = Some (Tile k) → typeAt g r c = Ret k.
Proof.
  unfold slotAt, typeAt. destruct (g !! r) as [row|]; [|done]. simpl.
  by intros ->.
Qed.

Lemma upPair_Seeding g r c t :
  Seeding g r c → r < ROWS → c < COLS → ∃ b, upPair g r c t = Ret b.
Proof.
  intros (_ & _ & Hfilled) Hr Hc. unfold upPair.
  destruct (decide (2 ≤ r)); [|by eexists].
  destruct (g !! (r - 1)); [|by eexists]. destruct (g !! (r - 2)); [|by eexists].
  destruct (Hfilled (r - 1) c) as (t1 & _ & H1); [lia..|].
  destruct (Hfilled (r - 2) c) as (t2 & _ & H2); [lia..|].
  rewrite (slotAt_typeAt _ _ _ _ H1), (slotAt_typeAt _ _ _ _ H2). osimpl.
  destruct (decide (Some t1 = Some t)); by eexists.
Qed.

Lemma randomTypeSafeLoop_returns g r c fuel tries src :
  (∀ t, ∃ b, upPair g r c t = Ret b) → 0 < fuel → 17 ≤ fuel + tries →
  ∃ res, randomTypeSafeLoop fuel tries g r c src = Ret res.
Proof.
  intros Hup. revert tries src.
  induction fuel as [|fuel IH]; intros tries src Hf Hsum; [lia|].
  cbn [randomTypeSafeLoop]. destruct (rand TYPES src) as [t0 src0].
  destruct (decide (15 < tries)); [by eexists|].
  destruct (leftPair g r c t0); [apply IH; lia|].
  destruct (Hup t0) as [[|] ->]; osimpl; [apply IH; lia|by eexists].
Qed.

(** In the course of [init], [randomTypeSafe] returns a type id. *)
Lemma randomTypeSafe_Seeding g r c src :
  Seeding g r c → r < ROWS → c < COLS →
  ∃ t src', randomTypeSafe g r c src = Ret (t, src') ∧ t < TYPES.
Proof.
  intros Hg Hr Hc.
  destruct (randomTypeSafeLoop_returns g r c 17 0 src) as ([[t tries] src'] & Hrun);
    [by intros; apply upPair_Seeding|lia..|].
  exists t, src'. unfold randomTypeSafe, randomTypeSafeTries. rewrite Hrun.
  split; [done|]. by apply randomTypeSafeLoop_spec in Hrun as (? & _).
Qed.

Lemma initStep_Seeding r c st :
  r < ROWS → c < COLS → Seeding st.1 r c →
  ∃ st', initStep r c st = Ret st' ∧ Seeding st'.1 r (S c).
Proof.
  destruct st as [g src]. cbn [fst]. intros Hr Hc Hg.
  destruct (randomTypeSafe_Seeding g r c src Hg Hr Hc) as (t & src' & Hrun & Ht).
  destruct Hg as (Hlen & Hrows & Hfilled).
  destruct (lookup_lt_is_Some_2 g r) as [row Hrow]; [lia|].
  assert (length row = COLS) as Hrl.
  { rewrite Forall_lookup in Hrows. by apply (Hrows r). }
  unfold initStep. rewrite Hrun. osimpl. unfold putTile. rewrite Hrow. osimpl.
  eexists. split; [done|]. cbn [fst]. split; [by rewrite length_insert|]. split.
  { apply Forall_insert; [done|]. by rewrite length_insert. }
  intros r' c' Hr' Hc' Hbefore. unfold slotAt.
  destruct (decide (r' = r)) as [->|Hne].
  - rewrite list_lookup_insert_eq by lia. simpl.
    destruct (decide (c' = c)) as [->|Hnc].
    + exists t. split; [done|]. by rewrite list_lookup_insert_eq by lia.
    + rewrite list_lookup_insert_ne by done.
      destruct (Hfilled r c') as (t' & Ht' & Hs); [done..|lia|].
      exists t'. split; [done|]. unfold slotAt in Hs. by rewrite Hrow in Hs.
  - rewrite list_lookup_insert_ne by done. apply Hfilled; [done..|lia].
Qed.

Lemma Seeding_Populated g : Seeding g ROWS 0 → Populated g.
Proof.
  intros (Hlen & Hrows & Hfilled).
  assert (Hslot : ∀ r c, r < ROWS → c < COLS →
            ∃ t, t < TYPES ∧ slotAt g r c = Some (Tile (Some t))).
  { intros r c Hr Hc. apply Hfilled; [done..|]. by left. }
  split.
  - split; [done|]. apply Forall_lookup. intros r row Hrow.
    rewrite Forall_lookup in Hrows. pose proof (Hrows r row Hrow) as Hrl.
    split; [done|]. apply Forall_lookup. intros c s Hs ->.
    destruct (Hslot r c) as (t & _ & Ht).
    { apply lookup_lt_Some in Hrow. lia. }
    { apply lookup_lt_Some in Hs. lia. }
    unfold slotAt in Ht. rewrite Hrow in Ht. simpl in Ht. congruence.
  - intros r c Hr Hc. destruct (Hslot r c Hr Hc) as (t & Ht & Hs).
    exists t. split; [|done]. unfold kindAt.
    by rewrite (slotAt_typeAt _ _ _ _ Hs).
Qed.

(** For every random source, [init] returns a new game on a populated
    grid. *)
Lemma init_spec src :
  ∃ st, init src = Ret st ∧ Populated (grid st) ∧
        score st = 0%Z ∧ moves st = STARTING_MOVES.
Proof.
  destruct (forUp_total (λ r (st : Grid * Rng), Seeding st.1 r 0) ROWS 0
              (λ r, forUp COLS 0 (initStep r))
              (replicate ROWS (replicate COLS NoTile), src))
    as ([g src'] & Hrun & Hg).
  - cbn [fst]. split; [by rewrite length_replicate|]. split.
    + apply Forall_replicate. by rewrite length_replicate.
    + intros r' c' _ _ Hbefore. lia.
  - intros r st Hr Hst.
    destruct (forUp_total (λ c (st : Grid * Rng), Seeding st.1 r c) COLS 0
                (initStep r) st) as (st' & Hrow & Hst'); [done| |].
    + intros c st1 Hc. apply initStep_Seeding; lia.
    + exists st'. split; [done|]. destruct Hst' as (? & ? & Hfilled).
      split; [done|]. split; [done|]. intros r' c' Hr' Hc' Hbefore.
      apply Hfilled; [done..|]. cbn [Nat.add]. lia.
  - exists {| grid := g; score := 0; moves := STARTING_MOVES; rng := src' |}.
    unfold init. rewrite Hrun. osimpl. split; [done|].
    split; [|done]. by apply Seeding_Populated.
Qed.

(** ** The seeded board *)

Lemma nextKind_iter_bounded n k :
  ∃ t, Nat.iter n nextKind (Some k) = Some t ∧ (k < TYPES → t < TYPES).
Proof.
  induction n as [|n (t & Ht & Hlt)]; [by exists k|].
  change (Nat.iter (S n) nextKind (Some k))
    with (nextKind (Nat.iter n nextKind (Some k))).
  rewrite Ht. unfold nextKind, TYPES in *.
  eexists. split; [done|]. intros _. cbv [from_option id]. dlia.
Qed.

Lemma removeInitialLoop_Populated fuel ms g g' :
  Populated g → findAllMatches g = Ret ms →
  removeInitialLoop fuel ms g = Ret g' → Populated g'.
Proof.
  revert ms g. induction fuel as [|fuel IH]; intros ms g Hpop Hms Hrun.
  - destruct ms; [|done]. by injection Hrun as <-.
  - destruct ms as [|run ms]; [by injection Hrun as <-|].
    cbn [removeInitialLoop] in Hrun.
    apply bind_Ret in Hrun as (g1 & Hsweep & Hrun).
    apply bind_Ret in Hrun as (ms1 & Hms1 & Hrun).
    apply (IH ms1 g1); [|done..]. destruct Hpop as [Hg Hall].
    destruct (sweep_matches g (run :: ms) Hg Hms) as (_ & g1' & Hsweep' & Hg1 & Hk).
    rewrite Hsweep in Hsweep'. injection Hsweep' as <-. split; [done|].
    intros r c Hr Hc. destruct (Hall r c Hr Hc) as (t & Ht & Hlt).
    rewrite Hk, Ht.
    destruct (nextKind_iter_bounded (countOf (r, c) (picksOf (run :: ms))) t)
      as (t' & -> & Hlt').
    exists t'. split; [done|]. by apply Hlt'.
Qed.

(** For every random source, [init] followed by [removeInitialMatches]
    ends on a populated board on which [findAllMatches] finds nothing. *)
Corollary seeded_board_match_free src :
  ∃ st fuel g',
    init src = Ret st ∧ removeInitialMatches fuel (grid st) = Ret g' ∧
    Populated g' ∧ findAllMatches g' = Ret [].
Proof.
  destruct (init_spec src) as (st & Hinit & Hpop & _).
  destruct (removeInitialMatches_total (grid st) (proj1 Hpop))
    as (fuel & g' & Hrun & _ & Hfree).
  exists st, fuel, g'. split; [done|]. split; [done|]. split; [|done].
  unfold removeInitialMatches in Hrun.
  apply bind_Ret in Hrun as (ms & Hms & Hrun).
  by apply (removeInitialLoop_Populated fuel ms (grid st)).
Qed.

(** ** Sample runs *)

Example findAllMatches_sample : findAllMatches sampleGrid = Ret sampleMatches.
Proof. vm_compute. reflexivity. Qed.

Example removeSetOf_corner :
  removeSetOf [hLine 0 0 3; vLine 0 0 3]
  = ["0,0"; "0,1"; "0,2"; "1,0"; "2,0"]%string.
Proof. vm_compute. reflexivity. Qed.

Example dropTiles_gapped_column :
  ∃ g', dropTiles gappedGrid = Ret g' ∧
        column gappedGrid 3
        = [Some 1; Some 4; Some 5; Some 0; None; None; None; Some 1] ∧
        column g' 3
        = [None; None; None; Some 1; Some 4; Some 5; Some 0; Some 1].
Proof.
  destruct (dropTiles gappedGrid) as [g'| |] eqn:Hrun;
    [|vm_compute in Hrun; discriminate Hrun..].
  exists g'. split; [done|]. vm_compute in Hrun. injection Hrun as <-.
  split; vm_compute; reflexivity.
Qed.

Example removeInitialMatches_sample :
  ∃ g', removeInitialMatches 4 sampleGrid = Ret g' ∧ findAllMatches g' = Ret [].
Proof.
  destruct (removeInitialMatches 4 sampleGrid) as [g'| |] eqn:Hrun;
    [|vm_compute in Hrun; discriminate Hrun..].
  exists g'. split; [done|]. vm_compute in Hrun. injection Hrun as <-.
  vm_compute. reflexivity.
Qed.

Example resolveMatches_sample :
  ∃ st', resolveMatches 1 sampleMatches sampleState = Ret (14, st') ∧
         score st' = 140%Z ∧ moves st' = 29%Z.
Proof.
  destruct (resolveMatches 1 sampleMatches sampleState) as [[n st']| |] eqn:Hrun;
    [|vm_compute in Hrun; discriminate Hrun..].
  vm_compute in Hrun. injection Hrun as <- <-.
  eexists. split; [reflexivity|]. split; reflexivity.
Qed.

(** * Further properties of the engine *)

(** ** Utilities *)



Lemma idx_cell r c :
  inBounds r c = true →
  idx r c < ROWS * COLS ∧ idx r c / COLS = r ∧ idx r c mod COLS = c.
Proof.
  intros [Hr Hc]%inBounds_true. unfold idx, ROWS, COLS in *. dlia.
Qed.

(** X2.  On the board, [idx] numbers the slots row by row without gaps or
    clashes: the position is below [ROWS * COLS], and row and column are
    recovered from it as quotient and remainder by [COLS]. *)
Theorem idx_inverse r c :
  inBounds r c = true →
  idx r c < ROWS * COLS ∧ idx r c / COLS = r ∧ idx r c mod COLS = c ∧
  ∀ r' c', inBounds r' c' = true → idx r' c' = idx r c → r' = r ∧ c' = c.
Proof.
  intros H. destruct (idx_cell r c H) as (? & Hq & Hm). split_and!; [done..|].
  intros r' c' H' Heq. destruct (idx_cell r' c' H') as (_ & Hq' & Hm').
  rewrite Heq in Hq', Hm'. split; congruence.
Qed.

Lemma idx_inverse_witness :
  inBounds 3 5 = true ∧
  idx 3 5 < ROWS * COLS ∧ idx 3 5 / COLS = 3 ∧ idx 3 5 mod COLS = 5 ∧
  ∀ r' c', inBounds r' c' = true → idx r' c' = idx 3 5 → r' = 3 ∧ c' = 5.
Proof.
  assert (H : inBounds 3 5 = true) by reflexivity.
  split; [exact H|]. exact (idx_inverse 3 5 H).
Defined.

(** X3.  [isAdjacent] holds exactly for two slots of one row in neighbouring
    columns or of one column in neighbouring rows: never for a slot and
    itself, never diagonally; and it does not depend on the order of the two
    slots. *)
Theorem isAdjacent_spec r1 c1 r2 c2 :
  (isAdjacent r1 c1 r2 c2 = true ↔
     (r1 = r2 ∧ (c1 = S c2 ∨ c2 = S c1)) ∨
     (c1 = c2 ∧ (r1 = S r2 ∨ r2 = S r1))) ∧
  isAdjacent r1 c1 r2 c2 = isAdjacent r2 c2 r1 c1.
Proof.
  unfold isAdjacent. split.
  - rewrite bool_decide_eq_true. lia.
  - apply bool_decide_ext. lia.
Qed.

(** ** Keys of the removal set *)

(** X4.  The key of a point decodes to the point: splitting at the comma and
    reading the two numbers undoes the template string, for all row and
    column numbers; so two points with one key are the same point. *)
Theorem key_roundtrip pt :
  coordOfKey (keyOf pt) = Ret pt ∧ ∀ pt', keyOf pt = keyOf pt' → pt = pt'.
Proof.
  split; [apply coordOfKey_keyOf|]. intros pt'. apply keyOf_inj.
Qed.

(** X5.  The removal set built from a match list has no repeated key, holds
    exactly the keys of the points of its runs, and so has at most as many
    keys as the runs have points. *)
Theorem removeSetOf_keys ms :
  NoDup (removeSetOf ms) ∧
  (∀ k, k ∈ removeSetOf ms ↔ ∃ run pt, run ∈ ms ∧ pt ∈ run ∧ k = keyOf pt) ∧
  length (removeSetOf ms) ≤ length (mjoin ms).
Proof.
  destruct (removeSetOf_spec ms) as [Hnd Hin]. split; [done|]. split; [done|].
  rewrite <- (length_fmap keyOf (mjoin ms)).
  apply submseteq_length, NoDup_submseteq; [done|].
  intros k (run & pt & Hrun & Hpt & ->)%Hin.
  apply list_elem_of_fmap. exists pt. split; [done|].
  apply list_elem_of_join. by exists run.
Qed.

(** ** swapData *)

(** X6.  On a grid of tiles, [swapData] on two slots of the board returns a
    grid of tiles in which the two slots hold each other's former type and
    every other slot its own; on one and the same slot it changes nothing. *)
Theorem swapData_exchanges g a b :
  Tiled g → inBounds a.1 a.2 = true → inBounds b.1 b.2 = true →
  ∃ g1, swapData g a b = Ret g1 ∧ Tiled g1 ∧
        kindAt g1 a.1 a.2 = kindAt g b.1 b.2 ∧
        kindAt g1 b.1 b.2 = kindAt g a.1 a.2 ∧
        ∀ r c, (r, c) ≠ a → (r, c) ≠ b → kindAt g1 r c = kindAt g r c.
Proof.
  intros Hg [? ?]%inBounds_true [? ?]%inBounds_true.
  destruct (swapData_spec g a b) as (g1 & Hrun & Hg1 & Hk); [done..|].
  exists g1. split; [done|]. split; [done|]. destruct a as [ra ca], b as [rb cb].
  cbn [fst snd] in *. split_and!.
  - rewrite Hk. destruct (decide (ra = rb ∧ ca = cb)) as [[-> ->]|]; [done|].
    by rewrite decide_True.
  - rewrite Hk. by rewrite decide_True.
  - intros r c Ha Hb. rewrite Hk. rewrite !decide_False; [done|..].
    + intros [-> ->]. by apply Ha.
    + intros [-> ->]. by apply Hb.
Qed.

Lemma swapData_exchanges_witness :
  ∃ g1, swapData quietGrid (0, 0) (0, 1) = Ret g1 ∧ Tiled g1 ∧
        kindAt g1 0 0 = kindAt quietGrid 0 1 ∧
        kindAt g1 0 1 = kindAt quietGrid 0 0 ∧
        ∀ r c, (r, c) ≠ (0, 0) → (r, c) ≠ (0, 1) →
               kindAt g1 r c = kindAt quietGrid r c.
Proof.
  assert (Hg : Tiled quietGrid) by (vm_compute; repeat constructor; done).
  exact (swapData_exchanges quietGrid (0, 0) (0, 1) Hg eq_refl eq_refl).
Defined.

(** X7.  [swapData] is its own inverse: on a grid of tiles, swapping the
    same two slots of the board twice gives back the grid, slot for slot. *)
Theorem swapData_involution g a b g1 :
  Tiled g → inBounds a.1 a.2 = true → inBounds b.1 b.2 = true →
  swapData g a b = Ret g1 → swapData g1 a b = Ret g.
Proof.
  intros Hg [? ?]%inBounds_true [? ?]%inBounds_true.
  by apply swapData_twice.
Qed.

Lemma swapData_involution_witness :
  ∃ g1, swapData quietGrid (2, 3) (3, 3) = Ret g1 ∧
        swapData g1 (2, 3) (3, 3) = Ret quietGrid.
Proof.
  assert (Hg : Tiled quietGrid) by (vm_compute; repeat constructor; done).
  destruct (swapData quietGrid (2, 3) (3, 3)) as [g1| |] eqn:Hrun;
    [|vm_compute in Hrun; discriminate Hrun..].
  exists g1. split; [reflexivity|].
  exact (swapData_involution quietGrid (2, 3) (3, 3) g1 Hg eq_refl eq_refl Hrun).
Defined.

Lemma transpose_Permutation i j n :
  i < n → j < n → transpose i j <$> seq 0 n ≡ₚ seq 0 n.
Proof.
  intros Hi Hj. apply NoDup_Permutation.
  - apply NoDup_fmap_2_strong; [|apply NoDup_seq].
    intros k k' _ _. unfold transpose. repeat case_decide; congruence.
  - apply NoDup_seq.
  - intros k. rewrite list_elem_of_fmap. setoid_rewrite elem_of_seq. split.
    + intros (k' & -> & Hk'). unfold transpose. repeat case_decide; lia.
    + intros Hk. exists (transpose i j k). unfold transpose.
      repeat case_decide; split; first [lia | congruence].
Qed.

(** X8.  [swapData] on two slots of the board only moves types around: the
    types on the board after it are a permutation of those before. *)
Theorem swapData_permutes g a b g1 :
  Tiled g → inBounds a.1 a.2 = true → inBounds b.1 b.2 = true →
  swapData g a b = Ret g1 → allTypes g1 ≡ₚ allTypes g.
Proof.
  intros Hg Ha Hb Hrun.
  destruct (idx_cell a.1 a.2 Ha) as (Hia & Hqa & Hma).
  destruct (idx_cell b.1 b.2 Hb) as (Hib & Hqb & Hmb).
  apply inBounds_true in Ha as [? ?]. apply inBounds_true in Hb as [? ?].
  destruct (swapData_spec g a b) as (g1' & Hrun' & _ & Hk); [done..|].
  rewrite Hrun in Hrun'. injection Hrun' as <-.
  unfold allTypes.
  rewrite <- (transpose_Permutation (idx a.1 a.2) (idx b.1 b.2) (ROWS * COLS))
    at 2 by done.
  rewrite <- list_fmap_compose.
  rewrite (list_fmap_ext (λ k, kindAt g1 (k / COLS) (k mod COLS))
             ((λ k, kindAt g (k / COLS) (k mod COLS))
                ∘ transpose (idx a.1 a.2) (idx b.1 b.2))); [done|].
  intros i k [_ Hk']%lookup_seq. cbn [compose]. rewrite Hk.
  assert (∀ r c, c < COLS → (k / COLS = r ∧ k mod COLS = c) ↔ k = idx r c)
    as Hcell.
  { intros r c Hc. unfold idx, COLS in *. dlia. }
  unfold transpose.
  destruct (decide (k = idx a.1 a.2)) as [->|Hna].
  - rewrite Hqa, Hma, Hqb, Hmb.
    destruct (decide (a.1 = b.1 ∧ a.2 = b.2)) as [[-> ->]|]; [done|].
    by rewrite decide_True.
  - destruct (decide (k = idx b.1 b.2)) as [->|Hnb].
    + rewrite Hqb, Hmb, Hqa, Hma. by rewrite decide_True.
    + rewrite !decide_False; [done|..].
      * intros Heq. by apply Hcell in Heq.
      * intros Heq. by apply Hcell in Heq.
Qed.

Lemma swapData_permutes_witness :
  ∃ g1, swapData quietGrid (2, 3) (3, 3) = Ret g1 ∧
        allTypes g1 ≡ₚ allTypes quietGrid.
Proof.
  assert (Hg : Tiled quietGrid) by (vm_compute; repeat constructor; done).
  destruct (swapData quietGrid (2, 3) (3, 3)) as [g1| |] eqn:Hrun;
    [|vm_compute in Hrun; discriminate Hrun..].
  exists g1. split; [reflexivity|].
  exact (swapData_permutes quietGrid (2, 3) (3, 3) g1 Hg eq_refl eq_refl Hrun).
Defined.

(** ** Loops over the slots of the board *)

Lemma forUp_forOf {St} n i (body : nat → St → Outcome St) s :
  forUp n i body s = forOf (seq i n) body s.
Proof.
  revert i s. induction n as [|n IH]; intros i s; [done|]. simpl.
  destruct (body i s); simpl; [apply IH|done..].
Qed.

Lemma forOf_app {X St} (l1 l2 : list X) (body : X → St → Outcome St) s :
  forOf (l1 ++ l2) body s = forOf l1 body s ≫= forOf l2 body.
Proof.
  revert s. induction l1 as [|x l1 IH]; intros s; [done|]. simpl.
  destruct (body x s); simpl; [apply IH|done..].
Qed.

Lemma forOf_fmap {X Y St} (f : X → Y) (l : list X)
    (body : Y → St → Outcome St) s :
  forOf (f <$> l) body s = forOf l (λ x, body (f x)) s.
Proof.
  revert s. induction l as [|x l IH]; intros s; [done|]. simpl.
  destruct (body (f x) s); simpl; [apply IH|done..].
Qed.

Lemma forOf_nested {X Y St} (f : X → list Y) (l : list X)
    (body : Y → St → Outcome St) s :
  forOf (l ≫= f) body s = forOf l (λ x, forOf (f x) body) s.
Proof.
  revert s. induction l as [|x l IH]; intros s; [done|].
  cbn [mbind list_bind forOf]. rewrite forOf_app.
  destruct (forOf (f x) body s); simpl; [apply IH|done..].
Qed.

Lemma forOf_ext {X St} (l : list X) (body body' : X → St → Outcome St) s :
  (∀ x t, body x t = body' x t) → forOf l body s = forOf l body' s.
Proof.
  intros Heq. revert s. induction l as [|x l IH]; intros s; [done|]. simpl.
  rewrite Heq. destruct (body' x s); simpl; [apply IH|done..].
Qed.

(** Column by column, and row by row, as single loops over the slots. *)
Lemma columnwise_forOf {St} (body : nat → nat → St → Outcome St) s :
  forUp COLS 0 (λ c, forUp ROWS 0 (body c)) s
  = forOf columnMajor (λ p, body p.2 p.1) s.
Proof.
  unfold columnMajor. rewrite forOf_nested, forUp_forOf.
  apply forOf_ext. intros c t. by rewrite forOf_fmap, forUp_forOf.
Qed.

Lemma rowwise_forOf {St} (body : nat → nat → St → Outcome St) s :
  forUp ROWS 0 (λ r, forUp COLS 0 (body r)) s
  = forOf rowMajor (λ p, body p.1 p.2) s.
Proof.
  unfold rowMajor. rewrite forOf_nested, forUp_forOf.
  apply forOf_ext. intros r t. by rewrite forOf_fmap, forUp_forOf.
Qed.

Lemma columnMajor_NoDup : NoDup columnMajor.
Proof. compute_done. Qed.

Lemma rowMajor_NoDup : NoDup rowMajor.
Proof. compute_done. Qed.

Lemma elem_of_columnMajor r c : (r, c) ∈ columnMajor ↔ r < ROWS ∧ c < COLS.
Proof.
  unfold columnMajor. rewrite list_elem_of_bind. split.
  - intros (c' & (r' & [= -> ->] & Hr)%list_elem_of_fmap & Hc).
    apply elem_of_seq in Hr, Hc. lia.
  - intros [Hr Hc]. exists c. split; [|apply elem_of_seq; lia].
    apply list_elem_of_fmap. exists r. split; [done|]. apply elem_of_seq. lia.
Qed.

Lemma rowMajor_lookup r c :
  r < ROWS → c < COLS → rowMajor !! idx r c = Some (r, c).
Proof.
  intros Hr Hc.
  assert (Forall (λ r, Forall (λ c, rowMajor !! idx r c = Some (r, c))
                         (seq 0 COLS)) (seq 0 ROWS)) as Hall by compute_done.
  rewrite Forall_forall in Hall. specialize (Hall r).
  rewrite Forall_forall in Hall. apply Hall; apply elem_of_seq; lia.
Qed.

Lemma rowMajor_on_board p : p ∈ rowMajor → p.1 < ROWS ∧ p.2 < COLS.
Proof.
  unfold rowMajor. rewrite list_elem_of_bind.
  intros (r & (c & -> & Hc)%list_elem_of_fmap & Hr).
  apply elem_of_seq in Hr, Hc. simpl. lia.
Qed.

Lemma kindAt_column g r c : r < ROWS → column g c !! r = Some (kindAt g r c).
Proof. intros Hr. unfold column. rewrite colFrom_lookup by lia. done. Qed.

Lemma Tiled_columns_ext g g' :
  Tiled g → Tiled g' → (∀ c, c < COLS → column g' c = column g c) → g' = g.
Proof.
  intros Hg Hg' Hcols. apply Tiled_ext; [done..|]. intros r c Hr Hc.
  apply (inj Some). by rewrite <- !kindAt_column, Hcols.
Qed.

(** ** dropTiles, again *)

(** A column that has its nulls on top is left as it is. *)
Lemma dropTiles_settled g :
  Tiled g →
  (∀ c, c < COLS →
        column g c = replicate (length (gaps (column g c))) None
                       ++ live (column g c)) →
  dropTiles g = Ret g.
Proof.
  intros Hg Hset. destruct (dropTiles_spec g Hg) as (g' & Hrun & Hg' & Hcols).
  rewrite Hrun. f_equal. apply Tiled_columns_ext; [done..|].
  intros c Hc. by rewrite (Hcols c Hc), <- Hset.
Qed.

(** X9.  [dropTiles] is idempotent: on the grid it returns, a second call
    moves nothing. *)
Theorem dropTiles_idempotent g g' :
  Tiled g → dropTiles g = Ret g' → dropTiles g' = Ret g'.
Proof.
  intros Hg Hrun. destruct (dropTiles_spec g Hg) as (g1 & Hrun' & Hg1 & Hcols).
  rewrite Hrun in Hrun'. injection Hrun' as <-.
  apply dropTiles_settled; [done|]. intros c Hc. rewrite (Hcols c Hc).
  by rewrite gaps_compact, live_compact, length_replicate.
Qed.

Lemma dropTiles_idempotent_witness :
  ∃ g', dropTiles gappedGrid = Ret g' ∧ dropTiles g' = Ret g'.
Proof.
  assert (Hg : Tiled gappedGrid) by (vm_compute; repeat constructor; done).
  destruct (dropTiles gappedGrid) as [g'| |] eqn:Hrun;
    [|vm_compute in Hrun; discriminate Hrun..].
  exists g'. split; [reflexivity|].
  exact (dropTiles_idempotent gappedGrid g' Hg Hrun).
Defined.

Lemma dropTiles_full g :
  Tiled g →
  (∀ r c, r < ROWS → c < COLS → kindAt g r c ≠ None) →
  dropTiles g = Ret g.
Proof.
  intros Hg Hfull. apply dropTiles_settled; [done|]. intros c Hc.
  assert (Forall (λ k, k ≠ None) (column g c)) as Hall.
  { apply Forall_lookup. intros r k Hk.
    assert (r < ROWS) as Hr.
    { apply lookup_lt_Some in Hk. by rewrite column_length in Hk. }
    rewrite kindAt_column in Hk by done. injection Hk as <-. by apply Hfull. }
  assert (gaps (column g c) = [] ∧ live (column g c) = column g c) as [-> ->];
    [|done].
  unfold gaps, live. induction Hall as [|k l Hk _ [IH1 IH2]]; [done|].
  rewrite filter_cons_False, filter_cons_True by done. by rewrite IH1, IH2.
Qed.

(** X10.  On a grid of tiles without a null type, [dropTiles] changes
    nothing. *)
Theorem dropTiles_no_gap g :
  Tiled g →
  (∀ r c, r < ROWS → c < COLS → kindAt g r c ≠ None) →
  dropTiles g = Ret g.
Proof. apply dropTiles_full. Qed.

Lemma dropTiles_no_gap_witness : dropTiles quietGrid = Ret quietGrid.
Proof.
  apply dropTiles_no_gap.
  - vm_compute; repeat constructor; done.
  - assert (Hpop : Populated quietGrid)
      by (apply populatedb_Populated; vm_compute; reflexivity).
    intros r c Hr Hc. destruct (proj2 Hpop r c Hr Hc) as (t & -> & _). done.
Defined.

(** ** refillTiles, draw by draw *)

Lemma advance_0 src : advance 0 src = src.
Proof. destruct src as [d p]. unfold advance. simpl. f_equal. lia. Qed.

Lemma rand_advance n k src :
  rand n (advance k src)
  = (floorMul n (draws src (pos src + k)), advance (S k) src).
Proof.
  unfold rand, random, advance, floorMul. simpl. do 2 f_equal. lia.
Qed.

Lemma refillTiles_draws_spec g src :
  Tiled g →
  ∃ g', refillTiles g src = Ret (g', advance (length (nullSlots g)) src) ∧
        Tiled g' ∧
        (∀ r c, kindAt g r c ≠ None → kindAt g' r c = kindAt g r c) ∧
        ∀ i p, nullSlots g !! i = Some p →
               kindAt g' p.1 p.2
               = Some (floorMul TYPES (draws src (pos src + i))).
Proof.
  intros Hg. unfold refillTiles. rewrite columnwise_forOf.
  destruct (forOf_total (refillDrawsInv g src) columnMajor
              (λ p, refillStep p.2 p.1) (g, src))
    as ([g' src'] & Hrun & Hg' & Hsrc & Hkeep & Hnew).
  - split; [done|]. split; [by rewrite advance_0|]. split; [done|].
    intros i p Hi. unfold nullsAmong in Hi.
    by rewrite filter_nil, lookup_nil in Hi.
  - intros done [r c] [g1 src1] [rest Hall] (Hg1 & Hsrc & Hkeep & Hnew).
    cbn [fst snd] in *. subst src1.
    assert ((r, c) ∈ columnMajor) as Hin.
    { rewrite Hall. apply elem_of_app. right. apply list_elem_of_here. }
    apply elem_of_columnMajor in Hin as [Hr Hc].
    assert ((r, c) ∉ done) as Hfresh.
    { pose proof columnMajor_NoDup as Hnd. rewrite Hall in Hnd.
      apply NoDup_app in Hnd as (_ & Hnd & _). intros Hd.
      apply (Hnd _ Hd), list_elem_of_here. }
    unfold refillStep. rewrite typeAt_Tiled by done. osimpl.
    rewrite (Hkeep r c) by (by left).
    unfold refillDrawsInv, nullsAmong in *. rewrite filter_app.
    destruct (kindAt g r c) as [t|] eqn:Hk.
    + rewrite decide_False by done. eexists. split; [done|].
      rewrite filter_cons_False, filter_nil, app_nil_r
        by (cbn [fst snd]; by rewrite Hk).
      split; [done|]. split; [done|]. split; [|done].
      intros r' c' [Hnin|Hne]; apply Hkeep; [|by right].
      left. intros Hd. apply Hnin, elem_of_app. by left.
    + rewrite decide_True by done. rewrite rand_advance.
      destruct (setType_Tiled g1 r c
                  (Some (floorMul TYPES
                     (draws src (pos src + length (filter
                        (λ p, kindAt g p.1 p.2 = None) done))))))
        as (g2 & -> & Hg2 & Hk2); [done..|].
      osimpl. eexists. split; [done|].
      rewrite filter_cons_True, filter_nil by (by cbn [fst snd]).
      split; [done|]. cbn [fst snd]. split.
      { rewrite length_app. simpl. f_equal. lia. }
      split.
      { intros r' c' Hcond. rewrite Hk2.
        destruct (decide (r' = r ∧ c' = c)) as [[-> ->]|Hne].
        - destruct Hcond as [Hnin|Hne]; [|by rewrite Hk in Hne].
          exfalso. apply Hnin, elem_of_app. right. apply list_elem_of_here.
        - apply Hkeep. destruct Hcond as [Hnin|?]; [left|by right].
          intros Hd. apply Hnin, elem_of_app. by left. }
      intros i p Hi. rewrite Hk2.
      apply lookup_snoc_Some in Hi as [[Hlt Hi]|[-> <-]].
      * rewrite decide_False; [by apply Hnew|].
        intros [Hp1 Hp2]. apply Hfresh.
        apply list_elem_of_lookup_2, list_elem_of_filter in Hi as [_ Hi].
        destruct p. simpl in *. by subst.
      * by rewrite decide_True.
  - exists g'. cbn [fst snd] in *. subst src'. split; [done|]. split; [done|].
    split; [|done]. intros r c Hne. apply Hkeep. by right.
Qed.



(** X12.  On a grid of tiles without a null type, [refillTiles] changes
    nothing and draws nothing; so after one refill a second one is idle. *)
Theorem refillTiles_no_gap g src :
  Tiled g →
  (∀ r c, r < ROWS → c < COLS → kindAt g r c ≠ None) →
  refillTiles g src = Ret (g, src).
Proof.
  intros Hg Hfull.
  destruct (refillTiles_draws_spec g src Hg) as (g' & Hrun & Hg' & Hkeep & _).
  assert (nullSlots g = []) as Hnil.
  { destruct (nullSlots g) as [|[r c] l] eqn:Hn; [done|]. exfalso.
    assert ((r, c) ∈ nullSlots g) as Hin by (rewrite Hn; apply list_elem_of_here).
    unfold nullSlots, nullsAmong in Hin.
    apply list_elem_of_filter in Hin as [Hk [Hr Hc]%elem_of_columnMajor].
    by apply (Hfull r c). }
  rewrite Hnil, advance_0 in Hrun. rewrite Hrun. do 2 f_equal.
  apply Tiled_ext; [done..|]. intros r c Hr Hc. by apply Hkeep, Hfull.
Qed.

Lemma refillTiles_no_gap_witness :
  refillTiles quietGrid cyclingSource = Ret (quietGrid, cyclingSource).
Proof.
  apply refillTiles_no_gap.
  - vm_compute; repeat constructor; done.
  - assert (Hpop : Populated quietGrid)
      by (apply populatedb_Populated; vm_compute; reflexivity).
    intros r c Hr Hc. destruct (proj2 Hpop r c Hr Hc) as (t & -> & _). done.
Defined.

(** ** shuffleBoard, draw by draw *)

Lemma floorMul_lt n u : 0 < n → floorMul n u < n.
Proof.
  intros Hn. unfold floorMul. apply Nat.Div0.div_lt_upper_bound. nia.
Qed.

Lemma shuffleLoop_spec g src :
  Tiled g →
  ∃ g1, forUp ROWS 0 (λ r, forUp COLS 0 (shuffleStep r)) (g, src)
        = Ret (g1, advance (ROWS * COLS) src) ∧
        Tiled g1 ∧
        ∀ r c, r < ROWS → c < COLS →
               kindAt g1 r c
               = Some (floorMul TYPES (draws src (pos src + idx r c))).
Proof.
  intros Hg. rewrite rowwise_forOf.
  destruct (forOf_total (shuffleInv src) rowMajor
              (λ p, shuffleStep p.1 p.2) (g, src))
    as ([g1 src1] & Hrun & Hg1 & Hsrc & Hnew).
  - split; [done|]. split; [by rewrite advance_0|].
    intros i p Hi. by rewrite lookup_nil in Hi.
  - intros done [r c] [g1 src1] [rest Hall] (Hg1 & Hsrc & Hnew).
    cbn [fst snd] in *. subst src1.
    assert ((r, c) ∈ rowMajor) as Hin.
    { rewrite Hall. apply elem_of_app. right. apply list_elem_of_here. }
    apply rowMajor_on_board in Hin as [Hr Hc]. cbn [fst snd] in Hr, Hc.
    assert ((r, c) ∉ done) as Hfresh.
    { pose proof rowMajor_NoDup as Hnd. rewrite Hall in Hnd.
      apply NoDup_app in Hnd as (_ & Hnd & _). intros Hd.
      apply (Hnd _ Hd), list_elem_of_here. }
    unfold shuffleStep. rewrite rand_advance.
    destruct (setType_Tiled g1 r c
                (Some (floorMul TYPES (draws src (pos src + length done)))))
      as (g2 & -> & Hg2 & Hk2); [done..|].
    osimpl. eexists. split; [done|]. split; [done|]. cbn [fst snd]. split.
    { rewrite length_app. simpl. f_equal. lia. }
    intros i p Hi. rewrite Hk2.
    apply lookup_snoc_Some in Hi as [[Hlt Hi]|[-> <-]].
    + rewrite decide_False; [by apply Hnew|].
      intros [Hp1 Hp2]. apply Hfresh. apply list_elem_of_lookup_2 in Hi.
      destruct p. simpl in *. by subst.
    + by rewrite decide_True.
  - exists g1. cbn [fst snd] in *. subst src1.
    assert (length rowMajor = ROWS * COLS) as Hlen by (by vm_compute).
    rewrite Hlen in Hrun. split; [done|]. split; [done|]. intros r c Hr Hc.
    apply (Hnew (idx r c) (r, c)). by apply rowMajor_lookup.
Qed.



(** ** resolveMatches, again *)

Lemma resolveLoop_stable fuel ms total st n st' :
  resolveLoop fuel ms total st = Ret (n, st') →
  ms ≠ [] ∨ findAllMatches (grid st) = Ret [] →
  findAllMatches (grid st') = Ret [] ∧ total ≤ n.
Proof.
  revert ms total st. induction fuel as [|fuel IH]; intros ms total st Hrun Hms.
  - destruct ms; [|done]. injection Hrun as <- <-. by destruct Hms.
  - destruct ms as [|run ms].
    { injection Hrun as <- <-. by destruct Hms. }
    cbn [resolveLoop] in Hrun.
    apply bind_Ret in Hrun as ([[ms1 total1] st1] & Hpass & Hrun).
    apply resolvePass_inv in Hpass as (-> & _ & _ & Hfind & _).
    apply IH in Hrun as [Hfree Hle]; [split; [done|lia]|].
    destruct ms1; [by right|by left].
Qed.

(** X14.  When [resolveMatches], called with a non-empty match list,
    returns, the cascade is over: [findAllMatches] finds nothing on the grid
    it leaves, and the moves counter is as it was. *)
Theorem resolveMatches_stable fuel initialMatches st n st' :
  initialMatches ≠ [] →
  resolveMatches fuel initialMatches st = Ret (n, st') →
  findAllMatches (grid st') = Ret [] ∧ moves st' = moves st.
Proof.
  intros Hne Hrun. split.
  - by apply resolveLoop_stable in Hrun as [? _]; [|left].
  - by apply resolveLoop_inv in Hrun as (_ & ? & _).
Qed.

Lemma resolveMatches_stable_witness :
  ∃ n st', resolveMatches 10 sampleMatches sampleState = Ret (n, st') ∧
           findAllMatches (grid st') = Ret [] ∧ moves st' = moves sampleState.
Proof.
  destruct (resolveMatches 10 sampleMatches sampleState) as [[n st']| |] eqn:Hrun;
    [|vm_compute in Hrun; discriminate Hrun..].
  exists n, st'. split; [reflexivity|].
  apply (resolveMatches_stable 10 sampleMatches sampleState n st');
    [discriminate|exact Hrun].
Defined.

(** ** attemptSwap, the accepted branch and the failures *)

Lemma hLine_NoDup r s len : NoDup (hLine r s len).
Proof.
  unfold hLine. apply NoDup_fmap_2; [|apply NoDup_seq]. by intros ?? [= ->].
Qed.

Lemma vLine_NoDup c s len : NoDup (vLine c s len).
Proof.
  unfold vLine. apply NoDup_fmap_2; [|apply NoDup_seq]. by intros ?? [= ->].
Qed.

Lemma IsMatch_shape g x :
  IsMatch g x → NoDup x ∧ MATCH_MIN ≤ length x.
Proof.
  intros (i & s & len & Hlen & [[_ ->]|[_ ->]]).
  - split; [apply hLine_NoDup|]. unfold hLine.
    by rewrite length_fmap, length_seq.
  - split; [apply vLine_NoDup|]. unfold vLine.
    by rewrite length_fmap, length_seq.
Qed.

(** The matches of a grid call for the removal of [MATCH_MIN] tiles or
    more. *)
Lemma removeSetOf_matches g x ms :
  Tiled g → findAllMatches g = Ret (x :: ms) →
  MATCH_MIN ≤ length (removeSetOf (x :: ms)).
Proof.
  intros Hg Hrun. destruct (findAllMatches_spec g Hg) as (ms' & Hrun' & _ & Hms).
  rewrite Hrun in Hrun'. injection Hrun' as <-.
  destruct (IsMatch_shape g x) as [Hnd Hlen]; [apply Hms, list_elem_of_here|].
  destruct (removeSetOf_spec (x :: ms)) as [_ Hin].
  etrans; [exact Hlen|]. rewrite <- (length_fmap keyOf x).
  apply submseteq_length, NoDup_submseteq.
  - apply NoDup_fmap_2; [intros ??; apply keyOf_inj|done].
  - intros k (pt & -> & Hpt)%list_elem_of_fmap. apply Hin.
    exists x, pt. split; [apply list_elem_of_here|done].
Qed.

Lemma findAllMatches_cons_HasRun g x ms :
  Tiled g → findAllMatches g = Ret (x :: ms) → HasRun g.
Proof.
  intros Hg Hrun. destruct (findAllMatches_spec g Hg) as (ms' & Hrun' & _ & Hms).
  rewrite Hrun in Hrun'. injection Hrun' as <-.
  apply HasRun_IsMatch. exists x. apply Hms, list_elem_of_here.
Qed.

Lemma swapData_Populated g a b g1 :
  Populated g → a.1 < ROWS → a.2 < COLS → b.1 < ROWS → b.2 < COLS →
  swapData g a b = Ret g1 → Populated g1.
Proof.
  intros [Hg Hall] ???? Hrun.
  destruct (swapData_spec g a b) as (g1' & Hrun' & Hg1 & Hk); [done..|].
  rewrite Hrun in Hrun'. injection Hrun' as <-. split; [done|].
  intros r c Hr Hc. rewrite Hk. repeat case_decide; by apply Hall.
Qed.

Lemma resolveLoop_first fuel run ms total st n st' :
  resolveLoop fuel (run :: ms) total st = Ret (n, st') →
  total + length (removeSetOf (run :: ms)) ≤ n.
Proof.
  intros Hrun. destruct fuel as [|fuel]; [done|]. cbn [resolveLoop] in Hrun.
  apply bind_Ret in Hrun as ([[ms1 total1] st1] & Hpass & Hrun).
  apply resolvePass_inv in Hpass as (-> & _ & _ & Hfind & _).
  apply resolveLoop_stable in Hrun as [_ Hle]; [done|].
  destruct ms1; [by right|by left].
Qed.

(** X15.  On a populated grid, when swapping two slots of the board yields a
    run and [attemptSwap] returns, the move has been played: the moves
    counter is one lower, the score is higher by ten times a number of
    removed tiles that is at least [MATCH_MIN], the grid is populated again
    and without matches, and the status shown is [checkEndConditions] of the
    state left behind. *)
Theorem attemptSwap_accepted fuel r1 c1 r2 c2 st status st' :
  Populated (grid st) →
  inBounds r1 c1 = true → inBounds r2 c2 = true →
  (∀ g1, swapData (grid st) (r1, c1) (r2, c2) = Ret g1 → HasRun g1) →
  attemptSwap fuel r1 c1 r2 c2 st = Ret (status, st') →
  moves st' = (moves st - 1)%Z ∧
  (∃ n, MATCH_MIN ≤ n ∧ score st' = (score st + 10 * Z.of_nat n)%Z) ∧
  Populated (grid st') ∧ findAllMatches (grid st') = Ret [] ∧
  status = checkEndConditions st'.
Proof.
  intros Hpop [Hr1 Hc1]%inBounds_true [Hr2 Hc2]%inBounds_true Hhas Hrun.
  pose proof (proj1 Hpop) as Hg. unfold attemptSwap in Hrun.
  rewrite !typeAt_Tiled in Hrun by done. osimpl.
  destruct (swapData_spec (grid st) (r1, c1) (r2, c2))
    as (g1 & Hswap & Hg1 & _); [done..|].
  rewrite Hswap in Hrun. osimpl.
  destruct (findAllMatches g1) as [[|x ms]| |] eqn:Hfind; [|osimpl|done..].
  { exfalso. apply (findAllMatches_nil g1 Hg1); [done|]. by apply Hhas. }
  apply bind_Ret in Hrun as ([n st2] & Hres & [= <- <-]).
  unfold resolveMatches in Hres.
  pose proof (removeSetOf_matches g1 x ms Hg1 Hfind) as Hmin.
  pose proof (resolveLoop_first _ _ _ _ _ _ _ Hres) as Hfirst.
  pose proof (resolveLoop_stable _ _ _ _ _ _ Hres) as [Hfree _]; [by left|].
  apply resolveLoop_inv in Hres as (Hs & Hm & Hp). cbn [grid score moves] in *.
  split; [done|]. split; [exists n; split; lia|]. split; [|done].
  apply Hp. by apply (swapData_Populated (grid st) (r1, c1) (r2, c2)).
Qed.

Lemma attemptSwap_accepted_witness :
  ∃ status st',
    attemptSwap 30 3 0 3 1 sampleState = Ret (status, st') ∧
    moves st' = (moves sampleState - 1)%Z ∧
    (∃ n, MATCH_MIN ≤ n ∧ score st' = (score sampleState + 10 * Z.of_nat n)%Z) ∧
    Populated (grid st') ∧ findAllMatches (grid st') = Ret [] ∧
    status = checkEndConditions st'.
Proof.
  destruct (attemptSwap 30 3 0 3 1 sampleState) as [[status st']| |] eqn:Hrun;
    [|vm_compute in Hrun; discriminate Hrun..].
  exists status, st'. split; [reflexivity|].
  apply (attemptSwap_accepted 30 3 0 3 1 sampleState status st').
  - apply populatedb_Populated; reflexivity.
  - reflexivity.
  - reflexivity.
  - intros g1 Hswap. vm_compute in Hswap. injection Hswap as <-.
    eapply findAllMatches_cons_HasRun;
      [vm_compute; repeat constructor; done|vm_compute; reflexivity].
  - exact Hrun.
Defined.

Lemma typeAt_off_board g r c :
  Tiled g → ¬ (r < ROWS ∧ c < COLS) → typeAt g r c = Throw.
Proof.
  intros Hg Hoff. destruct (typeAt g r c) as [k| |] eqn:Hk; [|done|].
  - by apply typeAt_Ret_bounds in Hk.
  - unfold typeAt in Hk. by repeat case_match.
Qed.

(** X16.  On a grid of tiles, [attemptSwap] with a slot that is off the
    board fails with an exception, whatever the other slot is: the tile of
    such a slot does not exist, and it is read before the swap. *)
Theorem attemptSwap_off_board fuel r1 c1 r2 c2 st :
  Tiled (grid st) →
  inBounds r1 c1 = false ∨ inBounds r2 c2 = false →
  attemptSwap fuel r1 c1 r2 c2 st = Throw.
Proof.
  intros Hg Hoff. unfold attemptSwap.
  destruct (inBounds r1 c1) eqn:H1.
  - apply inBounds_true in H1 as [Hr1 Hc1].
    rewrite (typeAt_Tiled _ r1 c1) by done. osimpl.
    destruct Hoff as [?|H2]; [done|].
    rewrite (typeAt_off_board _ r2 c2); [done..|].
    intros Hin%inBounds_true. congruence.
  - rewrite (typeAt_off_board _ r1 c1); [done..|].
    intros Hin%inBounds_true. congruence.
Qed.

Lemma attemptSwap_off_board_witness :
  attemptSwap 5 7 7 8 7 sampleState = Throw.
Proof.
  apply attemptSwap_off_board.
  - vm_compute; repeat constructor; done.
  - right. reflexivity.
Defined.

(** ** The board at the start of a game *)

(** X17.  For every random source, [init] returns a state with a populated
    grid, score 0 and [STARTING_MOVES] moves, and the deferred call of
    [removeInitialMatches] on that grid returns, given enough steps, a
    populated grid on which [findAllMatches] finds nothing. *)
Theorem init_board src :
  ∃ st, init src = Ret st ∧ Populated (grid st) ∧
        score st = 0%Z ∧ moves st = STARTING_MOVES ∧
        ∃ fuel g', removeInitialMatches fuel (grid st) = Ret g' ∧
                   Populated g' ∧ findAllMatches g' = Ret [].
Proof.
  destruct (init_spec src) as (st & Hinit & Hpop & Hs & Hm).
  exists st. split_and!; [done..|].
  destruct (removeInitialMatches_total (grid st) (proj1 Hpop))
    as (fuel & g' & Hrun & _ & Hfree).
  exists fuel, g'. split; [done|]. split; [|done].
  unfold removeInitialMatches in Hrun.
  apply bind_Ret in Hrun as (ms & Hms & Hrun).
  by apply (removeInitialLoop_Populated fuel ms (grid st)).
Qed.

Lemma removeInitialLoop_stable fuel ms g g' :
  findAllMatches g = Ret ms →
  removeInitialLoop fuel ms g = Ret g' → findAllMatches g' = Ret [].
Proof.
  revert ms g. induction fuel as [|fuel IH]; intros ms g Hms Hrun.
  - destruct ms; [|done]. by injection Hrun as <-.
  - destruct ms as [|run ms]; [by injection Hrun as <-|].
    cbn [removeInitialLoop] in Hrun.
    apply bind_Ret in Hrun as (g1 & _ & Hrun).
    apply bind_Ret in Hrun as (ms1 & Hms1 & Hrun). by apply (IH ms1 g1).
Qed.

(** X18.  Whenever [removeInitialMatches] returns on a populated grid, the
    grid it leaves is populated and [findAllMatches] finds nothing on it;
    and given enough steps it does return. *)
Theorem removeInitialMatches_populated g :
  Populated g →
  (∃ fuel g', removeInitialMatches fuel g = Ret g') ∧
  ∀ fuel g', removeInitialMatches fuel g = Ret g' →
             Populated g' ∧ findAllMatches g' = Ret [].
Proof.
  intros Hpop. split.
  - destruct (removeInitialMatches_total g (proj1 Hpop)) as (fuel & g' & ? & _).
    by exists fuel, g'.
  - intros fuel g' Hrun. unfold removeInitialMatches in Hrun.
    apply bind_Ret in Hrun as (ms & Hms & Hrun). split.
    + by apply (removeInitialLoop_Populated fuel ms g).
    + by apply (removeInitialLoop_stable fuel ms g).
Qed.

Lemma removeInitialMatches_populated_witness :
  (∃ fuel g', removeInitialMatches fuel sampleGrid = Ret g') ∧
  ∀ fuel g', removeInitialMatches fuel sampleGrid = Ret g' →
             Populated g' ∧ findAllMatches g' = Ret [].
Proof.
  apply removeInitialMatches_populated.
  apply populatedb_Populated; reflexivity.
Defined.

(** X19.  On a grid of tiles without any run, [removeInitialMatches] returns
    the grid as it is, without entering its loop. *)
Theorem removeInitialMatches_quiet fuel g :
  Tiled g → ¬ HasRun g → removeInitialMatches fuel g = Ret g.
Proof.
  intros Hg Hquiet. apply (findAllMatches_nil g Hg) in Hquiet.
  unfold removeInitialMatches. rewrite Hquiet. osimpl. by destruct fuel.
Qed.

Lemma removeInitialMatches_quiet_witness :
  removeInitialMatches 0 quietGrid = Ret quietGrid.
Proof.
  assert (Hg : Tiled quietGrid) by (vm_compute; repeat constructor; done).
  apply (removeInitialMatches_quiet 0 quietGrid Hg).
  apply (findAllMatches_nil quietGrid Hg). reflexivity.
Defined.

(** ** randomTypeSafe, draw by draw *)









(** ** The runs that findAllMatches reports *)

Lemma IsMatch_points g x :
  IsMatch g x →
  length x ≤ Nat.max ROWS COLS ∧
  (∀ pt, pt ∈ x → pt.1 < ROWS ∧ pt.2 < COLS) ∧
  ∀ p q, p ∈ x → q ∈ x → kindAt g p.1 p.2 = kindAt g q.1 q.2.
Proof.
  intros (i & s & len & Hlen & [[[Hi Hrun] ->]|[[Hi Hrun] ->]]);
    destruct Hrun as (_ & Hend & Hsame & _); unfold hLine, vLine.
  - split; [rewrite length_fmap, length_seq; unfold ROWS, COLS in *; lia|].
    split.
    + intros pt (c & -> & Hc%elem_of_seq)%list_elem_of_fmap. simpl. lia.
    + intros p q (c & -> & Hc%elem_of_seq)%list_elem_of_fmap
        (c' & -> & Hc'%elem_of_seq)%list_elem_of_fmap. simpl.
      by rewrite (Hsame c), (Hsame c') by lia.
  - split; [rewrite length_fmap, length_seq; unfold ROWS, COLS in *; lia|].
    split.
    + intros pt (r & -> & Hr%elem_of_seq)%list_elem_of_fmap. simpl. lia.
    + intros p q (r & -> & Hr%elem_of_seq)%list_elem_of_fmap
        (r' & -> & Hr'%elem_of_seq)%list_elem_of_fmap. simpl.
      by rewrite (Hsame r), (Hsame r') by lia.
Qed.

(** X22.  On a grid of tiles, the list [findAllMatches] returns is empty
    exactly when no row or column has [MATCH_MIN] equal types in a row, and
    each run in it lists between [MATCH_MIN] and 8 distinct points, all on
    the board and all of one type. *)
Theorem findAllMatches_runs g ms :
  Tiled g → findAllMatches g = Ret ms →
  (ms = [] ↔ ¬ HasRun g) ∧
  ∀ x, x ∈ ms →
       NoDup x ∧ MATCH_MIN ≤ length x ≤ Nat.max ROWS COLS ∧
       (∀ pt, pt ∈ x → inBounds pt.1 pt.2 = true) ∧
       ∀ p q, p ∈ x → q ∈ x → kindAt g p.1 p.2 = kindAt g q.1 q.2.
Proof.
  intros Hg Hrun. split.
  - rewrite <- (findAllMatches_nil g Hg), Hrun. split; [by intros ->|].
    by intros [= ->].
  - intros x Hx.
    destruct (findAllMatches_spec g Hg) as (ms' & Hrun' & _ & Hms).
    rewrite Hrun in Hrun'. injection Hrun' as <-. apply Hms in Hx.
    destruct (IsMatch_shape g x Hx) as [Hnd Hmin].
    destruct (IsMatch_points g x Hx) as (Hmax & Hon & Hsame).
    split_and!; [done..| |done].
    intros pt Hpt. apply inBounds_true. by apply Hon.
Qed.

Lemma findAllMatches_runs_witness :
  (sampleMatches = [] ↔ ¬ HasRun sampleGrid) ∧
  ∀ x, x ∈ sampleMatches →
       NoDup x ∧ MATCH_MIN ≤ length x ≤ Nat.max ROWS COLS ∧
       (∀ pt, pt ∈ x → inBounds pt.1 pt.2 = true) ∧
       ∀ p q, p ∈ x → q ∈ x →
              kindAt sampleGrid p.1 p.2 = kindAt sampleGrid q.1 q.2.
Proof.
  apply findAllMatches_runs.
  - vm_compute; repeat constructor; done.
  - reflexivity.
Defined.

(** ** Invariants of a running session *)

Lemma Populated_full g r c :
  Populated g → r < ROWS → c < COLS → kindAt g r c ≠ None.
Proof. intros [_ Hall] Hr Hc. by destruct (Hall r c Hr Hc) as (t & -> & _). Qed.

Lemma attemptSwap_Populated fuel r1 c1 r2 c2 st status st' :
  Populated (grid st) →
  attemptSwap fuel r1 c1 r2 c2 st = Ret (status, st') →
  Populated (grid st').
Proof.
  intros Hpop Hrun. pose proof (proj1 Hpop) as Hg. unfold attemptSwap in Hrun.
  apply bind_Ret in Hrun as (k1 & [Hr1 Hc1]%typeAt_Ret_bounds & Hrun); [|done].
  apply bind_Ret in Hrun as (k2 & [Hr2 Hc2]%typeAt_Ret_bounds & Hrun); [|done].
  apply bind_Ret in Hrun as (g1 & Hswap & Hrun).
  pose proof (swapData_Populated _ (r1, c1) (r2, c2) _ Hpop Hr1 Hc1 Hr2 Hc2 Hswap)
    as Hpop1.
  apply bind_Ret in Hrun as ([|run ms] & _ & Hrun).
  - apply bind_Ret in Hrun as (g2 & Hback & [= _ <-]). cbn [grid].
    by apply (swapData_Populated g1 (r1, c1) (r2, c2)).
  - apply bind_Ret in Hrun as ([n st2] & Hres & [= _ <-]).
    apply resolveLoop_inv in Hres as (_ & _ & Hp). by apply Hp.
Qed.

(** X23.  A populated grid stays populated under every operation on a
    running session that returns: a swap attempt (accepted or rejected), a
    cascade, gravity, a refill, the removal of initial matches, a shuffle,
    the end-of-game evaluation. *)
Theorem runOp_Populated fuel op st st' :
  Populated (grid st) → runOp fuel op st = Ret st' → Populated (grid st').
Proof.
  intros Hpop. pose proof (proj1 Hpop) as Hg.
  destruct op as [r1 c1 r2 c2|ms| | | | |]; cbn [runOp]; intros Hrun.
  - apply bind_Ret in Hrun as ([status st1] & Hswap & [= <-]).
    by apply (attemptSwap_Populated fuel r1 c1 r2 c2 st status).
  - apply bind_Ret in Hrun as ([n st1] & Hres & [= <-]).
    apply resolveLoop_inv in Hres as (_ & _ & Hp). by apply Hp.
  - apply bind_Ret in Hrun as (g & Hdrop & [= <-]). cbn [withGrid grid].
    rewrite dropTiles_full in Hdrop; [by injection Hdrop as <-|done|].
    intros r c. by apply Populated_full.
  - apply bind_Ret in Hrun as ([g src] & Hfill & [= <-]). cbn [withGrid grid fst].
    apply (refillTiles_Populated (grid st) (rng st) g src); [done| |done].
    by apply Populated_Bounded.
  - apply bind_Ret in Hrun as (g & Hrem & [= <-]). cbn [withGrid grid].
    unfold removeInitialMatches in Hrem.
    apply bind_Ret in Hrem as (ms & Hms & Hrem).
    by apply (removeInitialLoop_Populated fuel ms (grid st)).
  - unfold shuffleBoard in Hrun.
    destruct (shuffleLoop_spec (grid st) (rng st) Hg) as (g1 & Hloop & Hg1 & Hk1).
    rewrite Hloop in Hrun. osimpl.
    apply bind_Ret in Hrun as (g' & Hrem & [= <-]). cbn [grid].
    unfold removeInitialMatches in Hrem.
    apply bind_Ret in Hrem as (ms & Hms & Hrem).
    apply (removeInitialLoop_Populated fuel ms g1); [|done..].
    split; [done|]. intros r c Hr Hc. rewrite (Hk1 r c Hr Hc).
    eexists. split; [done|]. apply floorMul_lt. unfold TYPES. lia.
  - by injection Hrun as <-.
Qed.

Lemma runOp_Populated_witness :
  ∃ st', runOp 30 (AttemptSwap 3 0 3 1) sampleState = Ret st' ∧
         Populated (grid sampleState) ∧ Populated (grid st').
Proof.
  assert (Hpop : Populated (grid sampleState))
    by (apply populatedb_Populated; reflexivity).
  destruct (runOp 30 (AttemptSwap 3 0 3 1) sampleState) as [st'| |] eqn:Hrun;
    [|vm_compute in Hrun; discriminate Hrun..].
  exists st'. split; [reflexivity|]. split; [exact Hpop|].
  exact (runOp_Populated 30 (AttemptSwap 3 0 3 1) sampleState st' Hpop Hrun).
Defined.

Lemma runOp_moves_cases fuel op st st' :
  runOp fuel op st = Ret st' →
  moves st' = moves st ∨
  (moves st' = (moves st - 1)%Z ∧
   ∃ r1 c1 r2 c2 g1 run ms,
     op = AttemptSwap r1 c1 r2 c2 ∧
     swapData (grid st) (r1, c1) (r2, c2) = Ret g1 ∧
     findAllMatches g1 = Ret (run :: ms)).
Proof.
  destruct op as [r1 c1 r2 c2|ms| | | | |]; cbn [runOp]; intros Hrun.
  - apply bind_Ret in Hrun as ([status st1] & Hswap & [= <-]).
    unfold attemptSwap in Hswap.
    apply bind_Ret in Hswap as (_ & _ & Hswap).
    apply bind_Ret in Hswap as (_ & _ & Hswap).
    apply bind_Ret in Hswap as (g1 & Hg1 & Hswap).
    apply bind_Ret in Hswap as ([|run ms] & Hfind & Hswap).
    + apply bind_Ret in Hswap as (g2 & _ & [= _ <-]). by left.
    + apply bind_Ret in Hswap as ([n st2] & Hres & [= _ <-]).
      apply resolveLoop_inv in Hres as (_ & Hm & _). cbn [moves] in Hm.
      right. split; [done|]. by exists r1, c1, r2, c2, g1, run, ms.
  - apply bind_Ret in Hrun as ([n st1] & Hres & [= <-]).
    apply resolveLoop_inv in Hres as (_ & Hm & _). by left.
  - apply bind_Ret in Hrun as (g & _ & [= <-]). by left.
  - apply bind_Ret in Hrun as (res & _ & [= <-]). by left.
  - apply bind_Ret in Hrun as (g & _ & [= <-]). by left.
  - unfold shuffleBoard in Hrun.
    apply bind_Ret in Hrun as ([g src] & _ & Hrun).
    apply bind_Ret in Hrun as (g' & _ & [= <-]). by left.
  - injection Hrun as <-. by left.
Qed.

(** X24.  No operation on a running session raises the moves counter; only
    a swap attempt changes it, and that by exactly one, which happens only
    when the swapped grid has a match. *)
Theorem runOp_moves fuel op st st' :
  runOp fuel op st = Ret st' →
  moves st' = moves st ∨
  (moves st' = (moves st - 1)%Z ∧
   ∃ r1 c1 r2 c2 g1 run ms,
     op = AttemptSwap r1 c1 r2 c2 ∧
     swapData (grid st) (r1, c1) (r2, c2) = Ret g1 ∧
     findAllMatches g1 = Ret (run :: ms)).
Proof. apply runOp_moves_cases. Qed.

Lemma runOp_moves_witness :
  ∃ st', runOp 30 (AttemptSwap 3 0 3 1) sampleState = Ret st' ∧
    (moves st' = moves sampleState ∨
     (moves st' = (moves sampleState - 1)%Z ∧
      ∃ r1 c1 r2 c2 g1 run ms,
        AttemptSwap 3 0 3 1 = AttemptSwap r1 c1 r2 c2 ∧
        swapData (grid sampleState) (r1, c1) (r2, c2) = Ret g1 ∧
        findAllMatches g1 = Ret (run :: ms))).
Proof.
  destruct (runOp 30 (AttemptSwap 3 0 3 1) sampleState) as [st'| |] eqn:Hrun;
    [|vm_compute in Hrun; discriminate Hrun..].
  exists st'. split; [reflexivity|].
  exact (runOp_moves 30 (AttemptSwap 3 0 3 1) sampleState st' Hrun).
Defined.

(** X25.  A finished game stays finished: under every operation on a
    running session that returns, a state that [checkEndConditions] rates as
    won is still rated as won, and one rated as won or lost is not rated as
    in play again. *)
Theorem finished_stays_finished fuel op st st' :
  runOp fuel op st = Ret st' →
  (checkEndConditions st = Won → checkEndConditions st' = Won) ∧
  (checkEndConditions st ≠ Playing → checkEndConditions st' ≠ Playing).
Proof.
  intros Hrun. pose proof (runOp_score fuel op st st' Hrun) as Hs.
  assert (moves st' ≤ moves st)%Z as Hm.
  { destruct (runOp_moves_cases fuel op st st' Hrun) as [->|[-> _]]; lia. }
  unfold checkEndConditions. repeat case_decide; split; (done || lia).
Qed.

Lemma finished_stays_finished_witness :
  let st := {| grid := quietGrid; score := 2000; moves := 0;
               rng := zeroSource |} in
  ∃ st', runOp 0 RefillTiles st = Ret st' ∧
         (checkEndConditions st = Won → checkEndConditions st' = Won) ∧
         (checkEndConditions st ≠ Playing → checkEndConditions st' ≠ Playing).
Proof.
  intros st. destruct (runOp 0 RefillTiles st) as [st'| |] eqn:Hrun;
    [|vm_compute in Hrun; discriminate Hrun..].
  exists st'. split; [reflexivity|].
  exact (finished_stays_finished 0 RefillTiles st st' Hrun).
Defined.

(** ** One sweep of removeInitialMatches *)




(** ** The removal loop of a pass *)

(** X27.  On a grid of tiles, the removal loop of a pass over runs of the
    board returns; it sets to null the type at exactly the slots that lie on
    some run, leaves every other type as it was, and counts one removed tile
    per key of the removal set. *)
Theorem removeTiles_exact g ms total :
  Tiled g → OnBoard ms →
  ∃ g1, forOf (removeSetOf ms) removeTile (g, total)
        = Ret (g1, total + length (removeSetOf ms)) ∧
        Tiled g1 ∧
        ∀ r c, ((∃ run, run ∈ ms ∧ (r, c) ∈ run) → kindAt g1 r c = None) ∧
               ((∀ run, run ∈ ms → (r, c) ∉ run) →
                kindAt g1 r c = kindAt g r c).
Proof.
  intros Hg Hon.
  destruct (removeLoop_total (removeSetOf ms) g total Hg)
    as (_ & g1 & Hrem & Hg1 & Hk).
  { intros k Hk. apply removeSetOf_spec in Hk as (run & pt & Hrun & Hpt & ->).
    exists pt. split; [done|]. by apply (Hon run). }
  exists g1. split; [done|]. split; [done|]. intros r c. rewrite Hk. split.
  - intros (run & Hrun & Hpt). rewrite decide_True; [done|].
    apply removeSetOf_spec. by exists run, (r, c).
  - intros Hno. rewrite decide_False; [done|].
    intros (run & pt & Hrun & Hpt & Heq%keyOf_inj)%removeSetOf_spec.
    subst pt. by apply (Hno run).
Qed.

Lemma removeTiles_exact_witness :
  ∃ g1, forOf (removeSetOf sampleMatches) removeTile (sampleGrid, 0)
        = Ret (g1, 0 + length (removeSetOf sampleMatches)) ∧
        Tiled g1 ∧
        ∀ r c, ((∃ run, run ∈ sampleMatches ∧ (r, c) ∈ run) →
                kindAt g1 r c = None) ∧
               ((∀ run, run ∈ sampleMatches → (r, c) ∉ run) →
                kindAt g1 r c = kindAt sampleGrid r c).
Proof.
  apply removeTiles_exact.
  - vm_compute; repeat constructor; done.
  - intros run pt Hrun Hpt.
    assert (Forall (Forall (λ p, p.1 < ROWS ∧ p.2 < COLS)) sampleMatches)
      as Hall by (vm_compute; repeat constructor; lia).
    rewrite Forall_forall in Hall. specialize (Hall run Hrun).
    rewrite Forall_forall in Hall. by apply Hall.
Defined.

Lemma markLoop_off_board g keys :
  Tiled g →
  (∃ pt, keyOf pt ∈ keys ∧ ¬ (pt.1 < ROWS ∧ pt.2 < COLS)) →
  (∀ k, k ∈ keys → ∃ pt, k = keyOf pt) →
  forOf keys (markRemoving g) () = Throw.
Proof.
  intros Hg. induction keys as [|k keys IH]; intros (pt & Hin & Hoff) Hkeys.
  { by apply elem_of_nil in Hin. }
  destruct (Hkeys k) as (pt0 & ->); [apply list_elem_of_here|].
  change (forOf (keyOf pt0 :: keys) (markRemoving g) ())
    with (markRemoving g (keyOf pt0) () ≫= forOf keys (markRemoving g)).
  assert (markRemoving g (keyOf pt0) ()
          = (typeAt g pt0.1 pt0.2 ≫= λ _, mret ())) as ->
    by (unfold markRemoving; by rewrite coordOfKey_keyOf).
  destruct (decide (pt0.1 < ROWS ∧ pt0.2 < COLS)) as [[H1 H2]|Hoff0].
  - rewrite typeAt_Tiled by done. osimpl. apply IH.
    + exists pt. split; [|done].
      apply elem_of_cons in Hin as [Heq%keyOf_inj|?]; [|done].
      subst pt0. by destruct Hoff.
    + intros k' Hk'. by apply Hkeys, list_elem_of_further.
  - by rewrite typeAt_off_board.
Qed.

(** X28.  On a grid of tiles, [resolveMatches] called with a run that has a
    point off the board fails with an exception in its first pass: the
    marking loop reads a tile that does not exist. *)
Theorem resolveMatches_off_board fuel ms st :
  Tiled (grid st) →
  (∃ run pt, run ∈ ms ∧ pt ∈ run ∧ inBounds pt.1 pt.2 = false) →
  resolveMatches (S fuel) ms st = Throw.
Proof.
  intros Hg (run & pt & Hrun & Hpt & Hoff).
  unfold resolveMatches. destruct ms as [|run0 ms].
  { by apply elem_of_nil in Hrun. }
  cbn [resolveLoop]. unfold resolvePass.
  rewrite (markLoop_off_board (grid st)); [done|done| |].
  - exists pt. split.
    + apply removeSetOf_spec. by exists run, pt.
    + intros Hin%inBounds_true. congruence.
  - intros k (run' & pt' & _ & _ & ->)%removeSetOf_spec. by exists pt'.
Qed.

Lemma resolveMatches_off_board_witness :
  resolveMatches 1 [[(0, 6); (0, 7); (0, 8)]] sampleState = Throw.
Proof.
  apply resolveMatches_off_board.
  - vm_compute; repeat constructor; done.
  - exists [(0, 6); (0, 7); (0, 8)], (0, 8).
    split; [apply list_elem_of_here|].
    split; [|reflexivity]. do 2 apply list_elem_of_further.
    apply list_elem_of_here.
Defined.

(** ** A cascade without end *)

Lemma Stuck_matches t st ms :
  Stuck t st → findAllMatches (grid st) = Ret ms →
  ms ≠ [] ∧ OnBoard ms ∧
  ∀ r c, r < ROWS → c < COLS → keyOf (r, c) ∈ removeSetOf ms.
Proof.
  intros (Hg & Hall & _) Hrun.
  destruct (findAllMatches_spec (grid st) Hg) as (ms' & Hrun' & _ & Hms).
  rewrite Hrun in Hrun'. injection Hrun' as <-.
  assert (∀ r, r < ROWS → hLine r 0 COLS ∈ ms) as Hrows.
  { intros r Hr. apply Hms. exists r, 0, COLS.
    split; [unfold MATCH_MIN, COLS; lia|]. left. split; [|done].
    split; [done|]. split; [unfold COLS; lia|]. split; [lia|].
    split; [|split; [by left|by left]].
    intros i Hi. rewrite !Hall; [done|unfold COLS in *; lia..]. }
  split_and!.
  - intros ->. specialize (Hrows 0 ltac:(unfold ROWS; lia)).
    by apply elem_of_nil in Hrows.
  - intros run pt Hin Hpt. apply Hms in Hin.
    destruct (IsMatch_points _ _ Hin) as (_ & Hon & _). by apply Hon.
  - intros r c Hr Hc. apply removeSetOf_spec.
    exists (hLine r 0 COLS), (r, c). split; [by apply Hrows|]. split; [|done].
    unfold hLine. apply list_elem_of_fmap. exists c. split; [done|].
    apply elem_of_seq. lia.
Qed.

Lemma resolvePass_Stuck t st ms total :
  Stuck t st → findAllMatches (grid st) = Ret ms →
  ∃ ms' total' st',
    resolvePass ms total st = Ret (ms', total', st') ∧
    Stuck t st' ∧ findAllMatches (grid st') = Ret ms'.
Proof.
  intros Hst Hrun. destruct (Stuck_matches t st ms Hst Hrun) as (_ & Hon & Hcov).
  destruct Hst as (Hg & Hall & Hsrc).
  destruct (removeLoop_total (removeSetOf ms) (grid st) total Hg)
    as (Hmark & g1 & Hrem & Hg1 & Hk1).
  { intros k Hk. apply removeSetOf_spec in Hk as (run & pt & Hin & Hpt & ->).
    exists pt. split; [done|]. by apply (Hon run). }
  assert (∀ r c, r < ROWS → c < COLS → kindAt g1 r c = None) as Hnull1.
  { intros r c Hr Hc. rewrite Hk1. by rewrite decide_True by by apply Hcov. }
  destruct (dropTiles_spec g1 Hg1) as (g2 & Hdrop & Hg2 & Hcol).
  assert (∀ r c, r < ROWS → c < COLS → kindAt g2 r c = None) as Hnull2.
  { intros r c Hr Hc. pose proof (kindAt_column g2 r c Hr) as Hlook.
    rewrite (Hcol c Hc) in Hlook.
    assert (live (column g1 c) = []) as Hlive.
    { unfold live. destruct (filter _ (column g1 c)) as [|k l] eqn:Hf; [done|].
      assert (k ∈ filter (λ k, k ≠ None) (column g1 c)) as Hin
        by (rewrite Hf; apply list_elem_of_here).
      apply list_elem_of_filter in Hin as [Hne Hin].
      apply list_elem_of_lookup in Hin as (r' & Hr').
      assert (r' < ROWS) as Hlt.
      { apply lookup_lt_Some in Hr'. by rewrite column_length in Hr'. }
      rewrite kindAt_column in Hr' by done. injection Hr' as Hr'.
      rewrite Hnull1 in Hr' by done. by subst k. }
    rewrite Hlive, app_nil_r in Hlook.
    apply lookup_replicate in Hlook as [Heq _]. done. }
  destruct (refillTiles_draws_spec g2 (rng st) Hg2)
    as (g3 & Hfill & Hg3 & _ & Hnew).
  destruct (findAllMatches_spec g3 Hg3) as (ms3 & Hfind & _).
  unfold resolvePass. rewrite Hmark. osimpl. rewrite Hrem. osimpl.
  rewrite Hdrop. osimpl. rewrite Hfill. osimpl. rewrite Hfind. osimpl.
  eexists _, _, _. split; [done|]. cbn [grid rng]. split; [|done].
  split; [done|]. split; [|done].
  intros r c Hr Hc.
  assert ((r, c) ∈ nullSlots g2) as Hin.
  { unfold nullSlots, nullsAmong. apply list_elem_of_filter.
    split; [by apply Hnull2|]. by apply elem_of_columnMajor. }
  apply list_elem_of_lookup in Hin as (i & Hi).
  pose proof (Hnew i (r, c) Hi) as Hk3. cbn [fst snd] in Hk3.
  cbn [grid]. rewrite Hk3. by rewrite Hsrc.
Qed.

(** X29.  The cascade of [resolveMatches] has no bound of its own: on a
    board that holds one type everywhere, under a random source whose every
    sample gives that type, each pass leaves the board as it found it, and
    no number of steps lets the call return. *)
Theorem resolveMatches_endless t st ms fuel :
  Stuck t st → findAllMatches (grid st) = Ret ms →
  resolveMatches fuel ms st = OutOfFuel.
Proof.
  unfold resolveMatches. generalize 0 as total. revert ms st.
  induction fuel as [|fuel IH]; intros ms st total Hst Hrun;
    destruct (Stuck_matches t st ms Hst Hrun) as (Hne & _);
    destruct ms as [|run ms]; try done.
  cbn [resolveLoop].
  destruct (resolvePass_Stuck t st (run :: ms) total Hst Hrun)
    as (ms' & total' & st' & -> & Hst' & Hrun').
  osimpl. by apply IH.
Qed.

Lemma resolveMatches_endless_witness :
  ∃ ms, findAllMatches (grid stuckState) = Ret ms ∧
        resolveMatches 1000 ms stuckState = OutOfFuel.
Proof.
  destruct (findAllMatches (grid stuckState)) as [ms| |] eqn:Hrun;
    [|vm_compute in Hrun; discriminate Hrun..].
  exists ms. split; [reflexivity|].
  apply (resolveMatches_endless 0 stuckState ms 1000); [|exact Hrun].
  split; [vm_compute; repeat constructor; done|]. split; [|reflexivity].
  intros r c Hr Hc. unfold ROWS, COLS in *.
  do 8 (destruct r as [|r];
        [do 8 (destruct c as [|c]; [reflexivity|]); lia|]).
  lia.
Defined.

(** ** A cascade without exception *)

Lemma resolvePass_Tiled ms total st :
  Tiled (grid st) → OnBoard ms →
  ∃ ms' total' st',
    resolvePass ms total st = Ret (ms', total', st') ∧
    Tiled (grid st') ∧ OnBoard ms'.
Proof.
  intros Hg Hon.
  destruct (removeLoop_total (removeSetOf ms) (grid st) total Hg)
    as (Hmark & g1 & Hrem & Hg1 & _).
  { intros k Hk. apply removeSetOf_spec in Hk as (run & pt & Hrun & Hpt & ->).
    exists pt. split; [done|]. by apply (Hon run). }
  destruct (dropTiles_spec g1 Hg1) as (g2 & Hdrop & Hg2 & _).
  destruct (refillTiles_spec g2 (rng st) Hg2) as (g3 & src3 & Hfill & Hg3 & _).
  destruct (findAllMatches_spec g3 Hg3) as (ms3 & Hfind & _ & Hms3).
  unfold resolvePass. rewrite Hmark. osimpl. rewrite Hrem. osimpl.
  rewrite Hdrop. osimpl. rewrite Hfill. osimpl. rewrite Hfind. osimpl.
  eexists _, _, _. split; [done|]. cbn [grid]. split; [done|].
  intros run pt Hrun Hpt. apply Hms3 in Hrun.
  destruct (IsMatch_points _ _ Hrun) as (_ & Hin & _). by apply Hin.
Qed.

(** X30.  On a grid of tiles, [resolveMatches] called with runs of the
    board never fails with an exception, however long the cascade: every
    pass returns, on a grid of tiles again and with runs of the board. *)
Theorem resolveMatches_no_exception fuel ms st :
  Tiled (grid st) → OnBoard ms → resolveMatches fuel ms st ≠ Throw.
Proof.
  unfold resolveMatches. generalize 0 as total. revert ms st.
  induction fuel as [|fuel IH]; intros ms st total Hg Hon;
    destruct ms as [|run ms]; try done.
  cbn [resolveLoop].
  destruct (resolvePass_Tiled (run :: ms) total st Hg Hon)
    as (ms' & total' & st' & -> & Hg' & Hon').
  osimpl. by apply IH.
Qed.

Lemma resolveMatches_no_exception_witness :
  resolveMatches 3 sampleMatches sampleState ≠ Throw.
Proof.
  apply resolveMatches_no_exception.
  - vm_compute; repeat constructor; done.
  - intros run pt Hrun Hpt.
    assert (Forall (Forall (λ p, p.1 < ROWS ∧ p.2 < COLS)) sampleMatches)
      as Hall by (vm_compute; repeat constructor; lia).
    rewrite Forall_forall in Hall. specialize (Hall run Hrun).
    rewrite Forall_forall in Hall. by apply Hall.
Defined.
